(** * SquashFS metadata stream reader and inode decoder

    A shallow embedding of [src/squashfs.cxx]: the size helpers of the
    inode structures, [MetadataReader] (the buffered, block-wise
    decompressing reader of the inode table) and [InodeReader::read]
    (the decoder that sizes one inode record and steps over it).

    Conventions of the embedding.
    - C++ integers are [Z] with the wrap-around of their width written
      out ([u16], [u32], [u64]; [size_t] is 64 bits wide).
    - A pointer into [MetadataReader::buf] is its offset from [buf].
    - A member function that mutates its object and may throw is a
      function from the object to an outcome and the object as the call
      leaves it, since a C++ exception keeps the mutations made so far.
    - Behaviour that C++ leaves undefined (a [memcpy] of overlapping
      regions, an access outside [buf], a shift by the operand's width,
      a read of an uninitialised variable) is an outcome of its own,
      [Undefined_behaviour], and ends the run. *)

From Stdlib Require Import ZArith Lia Strings.Byte.
From stdpp Require Import base list numbers.

Open Scope Z_scope.

(** ** Machine integers and little-endian scalars *)

Definition wrap (w x : Z) : Z := x mod 2 ^ w.

Definition u16 : Z -> Z := wrap 16.
Definition u32 : Z -> Z := wrap 32.
Definition u64 : Z -> Z := wrap 64.

Definition byte_val (b : byte) : Z := Z.of_N (Byte.to_N b).

(** The value of a little-endian scalar ([le16], [le32], [le64]) stored
    in the bytes [bs], lowest byte first. *)
Fixpoint le_val (bs : list byte) : Z :=
  match bs with
  | [] => 0
  | b :: bs' => byte_val b + 256 * le_val bs'
  end.

Definition zlen (bs : list byte) : Z := Z.of_nat (length bs).

(** [slice l off n]: the [n] bytes of [l] from offset [off] on. *)
Definition slice (l : list byte) (off n : Z) : list byte :=
  take (Z.to_nat n) (drop (Z.to_nat off) l).

(** [splice l off bs]: [l] with the bytes from offset [off] on
    overwritten by [bs]. *)
Definition splice (l : list byte) (off : Z) (bs : list byte) : list byte :=
  take (Z.to_nat off) l ++ bs ++ drop (Z.to_nat off + length bs) l.

(** ** What [squashfs.hxx] declares

    The header is not among the sources at hand.  The sizes of its
    structures, the offsets of the members that [squashfs.cxx] reads and
    two of its constants are parameters of the development; a concrete
    instance, the SquashFS 4.0 on-disk layout, is [squashfs4] below. *)

Class Layout := {
  metadata_size : Z;
  invalid_frag : Z;
  sizeof_buf : Z;
  sizeof_base : Z;
  sizeof_dir : Z;
  sizeof_reg : Z;
  sizeof_symlink : Z;
  sizeof_dev : Z;
  sizeof_ipc : Z;
  sizeof_ldir : Z;
  sizeof_lreg : Z;
  sizeof_ldev : Z;
  sizeof_lipc : Z;
  sizeof_dir_index : Z;
  offsetof_inode_type : Z;
  offsetof_reg_fragment : Z;
  offsetof_reg_file_size : Z;
  offsetof_symlink_size : Z;
  offsetof_lreg_file_size : Z;
  offsetof_lreg_fragment : Z;
  offsetof_i_count : Z;
  offsetof_index_size : Z
}.

Definition sizeof_le16 : Z := 2.
Definition sizeof_le32 : Z := 4.
Definition sizeof_le64 : Z := 8.

(** Modelled from the spec: the flag [squashfs::inode_size::uncompressed]
    is declared in [squashfs.hxx]; the spec (section 3) has it as the high
    bit of the 16-bit length header of a stored block. *)
Definition uncompressed : Z := Z.shiftl 1 15.

(** Modelled from the spec: the enumerators of [squashfs::inode::type]
    are declared in [squashfs.hxx]; the spec (section 3) lists the
    variants in this order, the extended ones after the plain ones, and
    the on-disk format numbers them from 1. *)
Module type.
Definition dir : Z := 1.
Definition reg : Z := 2.
Definition symlink : Z := 3.
Definition blkdev : Z := 4.
Definition chrdev : Z := 5.
Definition fifo : Z := 6.
Definition socket : Z := 7.
Definition ldir : Z := 8.
Definition lreg : Z := 9.
Definition lsymlink : Z := 10.
Definition lblkdev : Z := 11.
Definition lchrdev : Z := 12.
Definition lfifo : Z := 13.
Definition lsocket : Z := 14.
End type.

(** The decompression backend, an abstract class in the source.
    [decompress src out_size] is [Some out] when the backend writes the
    bytes [out] at the destination and returns their number, and [None]
    when it throws; what it may have written before it throws lies
    beyond the valid bytes and is not kept. *)
Class Compressor := {
  decompress : list byte -> Z -> option (list byte)
}.

(** Modelled from the spec: the superblock is a structure of
    [squashfs.hxx]; these are the fields the spec (section 6) names. *)
Record super_block := {
  inode_table_start : Z;
  inodes : Z;
  sb_block_size : Z;
  sb_block_log : Z
}.

(** ** Outcomes *)

Inductive undefined : Type :=
| Memcpy_overlap
| Out_of_bounds
| Uninitialised_read
| Shift_too_wide.

Inductive error : Type :=
| Eof                      (* the mapped file cannot supply the bytes *)
| Decompress_error         (* the backend rejects the block *)
| Past_last_inode          (* runtime_error: Trying to read past last inode *)
| Invalid_inode_type       (* runtime_error: Invalid inode type *)
| Undefined_behaviour (u : undefined)
| Out_of_fuel.             (* of the embedding only, see [peek_total] *)

#[global] Instance undefined_eq_dec : EqDecision undefined.
Proof. solve_decision. Defined.

#[global] Instance error_eq_dec : EqDecision error.
Proof. solve_decision. Defined.

(** State and exception: the state is returned on both paths. *)
Definition M (S A : Type) : Type := S -> (error + A) * S.

Definition ret {S A : Type} (a : A) : M S A := fun s => (inr a, s).

Definition throw {S A : Type} (e : error) : M S A := fun s => (inl e, s).

Definition bind {S A B : Type} (m : M S A) (k : A -> M S B) : M S B :=
  fun s =>
    match m s with
    | (inr a, s') => k a s'
    | (inl e, s') => (inl e, s')
    end.

Definition get {S : Type} : M S S := fun s => (inr s, s).

Notation "'do' x <- m ; k" := (bind m (fun x => k))
  (at level 10, x pattern, m at level 100, k at level 200, only parsing).

(** ** The mapped file *)

Module MMAPFile.

Record t := mk { data : list byte; pos : Z }.

Definition remaining (f : t) : Z := zlen (data f) - pos f.

(** Modelled from the spec: [MMAPFile] is defined outside
    [squashfs.cxx]; the spec (sections 6 and 7) gives the contract used
    here: [seek] moves to an absolute offset, [read_array] returns the
    next [n] bytes and advances, and a file that cannot supply them is
    a fatal error. *)
Definition seek (off : Z) : M t unit :=
  fun f => (inr tt, mk (data f) off).

Definition read_array (n : Z) : M t (list byte) :=
  fun f =>
    if (0 <=? pos f) && (0 <=? n) && (pos f + n <=? zlen (data f))
    then (inr (slice (data f) (pos f) n), mk (data f) (pos f + n))
    else (inl Eof, f).

Definition read_le16 : M t Z :=
  do bs <- read_array sizeof_le16; ret (le_val bs).

End MMAPFile.

(** ** MetadataReader

    The members are declared in [squashfs.hxx]: the file [f], the array
    [buf] of [sizeof_buf] bytes, the cursor [bufp] into it and the count
    [buf_filled], a [size_t], of the valid bytes from the cursor on. *)

Module MetadataReader.

Record t := mk {
  f : MMAPFile.t;
  buf : list byte;
  bufp : Z;
  buf_filled : Z
}.

Definition on_file {A : Type} (m : M MMAPFile.t A) : M t A :=
  fun r =>
    let '(o, f') := m (f r) in
    (o, mk f' (buf r) (bufp r) (buf_filled r)).

Definition in_bounds (r : t) (off n : Z) : bool :=
  (0 <=? off) && (0 <=? n) && (off + n <=? zlen (buf r)).

(** Two regions of [n] bytes at [a] and at [b] share a byte. *)
Definition overlap (a b n : Z) : bool :=
  (0 <? n) && (a <? b + n) && (b <? a + n).

(** A write of [bs] at [buf + dst] from outside the buffer. *)
Definition store (dst : Z) (bs : list byte) : M t unit :=
  fun r =>
    if in_bounds r dst (zlen bs)
    then (inr tt, mk (f r) (splice (buf r) dst bs) (bufp r) (buf_filled r))
    else (inl (Undefined_behaviour Out_of_bounds), r).

(** [memcpy(buf + dst, buf + src, n)]. *)
Definition memcpy (dst src n : Z) : M t unit :=
  fun r =>
    if negb (in_bounds r src n && in_bounds r dst n)
    then (inl (Undefined_behaviour Out_of_bounds), r)
    else if overlap dst src n
    then (inl (Undefined_behaviour Memcpy_overlap), r)
    else store dst (slice (buf r) src n) r.

(** A read of a little-endian member, [w] bytes wide at offset [off]
    of the structure at [buf + p]. *)
Definition load (p off w : Z) : M t Z :=
  fun r =>
    if in_bounds r (p + off) w
    then (inr (le_val (slice (buf r) (p + off) w)), r)
    else (inl (Undefined_behaviour Out_of_bounds), r).

Definition set_bufp (p : Z) : M t unit :=
  fun r => (inr tt, mk (f r) (buf r) p (buf_filled r)).

Definition add_buf_filled (n : Z) : M t unit :=
  fun r => (inr tt, mk (f r) (buf r) (bufp r) (u64 (buf_filled r + n))).

(** The bytes a view returned by [peek] may read: [buf_filled] bytes
    from the cursor on. *)
Definition valid_bytes (r : t) : list byte :=
  slice (buf r) (bufp r) (buf_filled r).

Section WithBackend.
Context {L : Layout} {C : Compressor}.

(** The constructor; [garbage] is the indeterminate initial content
    of the member array [buf]. *)
Definition init (new_file : MMAPFile.t) (sb : super_block)
    (garbage : list byte) : t :=
  mk (snd (MMAPFile.seek (inode_table_start sb) new_file))
     (take (Z.to_nat sizeof_buf)
           (garbage ++ replicate (Z.to_nat sizeof_buf) x00))
     0 0.

Definition run_decompress (src : list byte) (out_size : Z)
    : M t (list byte) :=
  match decompress src out_size with
  | Some out => ret out
  | None => throw Decompress_error
  end.

Definition poll_data : M t unit :=
  do length <- on_file MMAPFile.read_le16;
  do r <- get;
  let writep := bufp r + buf_filled r in
  (* if we're past half buffer, shift it *)
  do writep <- (if metadata_size <? writep - 0
                then do _ <- memcpy 0 (bufp r) (buf_filled r);
                     do _ <- set_bufp 0;
                     ret (0 + buf_filled r)
                else ret writep);
  if negb (Z.land length uncompressed =? 0)
  then
    (* uncompressed inode *)
    let length := u16 (Z.land length (Z.lnot uncompressed)) in
    do src <- on_file (MMAPFile.read_array length);
    do _ <- store writep src;
    add_buf_filled length
  else
    (* uncompress to buf *)
    do src <- on_file (MMAPFile.read_array length);
    do out <- run_decompress src metadata_size;
    do _ <- store writep out;
    add_buf_filled (zlen out).

(** The loop of [peek]; every round of it takes at least the two
    bytes of a block header from the file, so [peek_fuel] rounds are
    never used up ([peek_total]). *)
Fixpoint peek_loop (fuel : nat) (length : Z) : M t unit :=
  fun r =>
    if buf_filled r <? length
    then match fuel with
         | O => (inl Out_of_fuel, r)
         | S k => (do _ <- poll_data; peek_loop k length) r
         end
    else (inr tt, r).

Definition peek_fuel (r : t) : nat :=
  S (Z.to_nat (MMAPFile.remaining (f r))).

Definition peek (length : Z) : M t Z :=
  fun r =>
    (do _ <- peek_loop (peek_fuel r) length;
     do r' <- get;
     ret (bufp r')) r.

Definition seek (length : Z) : M t unit :=
  fun r =>
    (inr tt, mk (f r) (buf r) (bufp r + length)
                (u64 (buf_filled r - length))).

End WithBackend.

End MetadataReader.

(** ** The size helpers of the inode structures

    A structure is represented by the members its method reads. *)

Module reg.

Record t := mk { file_size : Z; fragment : Z }.

Section WithLayout.
Context {L : Layout}.

(** [None]: the shift count is not below the width of [blocks]. *)
Definition block_count (this : t) (block_size block_log : Z)
    : option Z :=
  let blocks := file_size this in
  (* if fragments were not used, round up the last block *)
  let blocks :=
    if fragment this =? invalid_frag
    then u32 (blocks + u32 (block_size - 1))
    else blocks in
  (* bytes -> blocks *)
  if block_log <? 32
  then Some (Z.shiftr blocks block_log)
  else None.

Definition inode_size (this : t) (block_size block_log : Z)
    : option Z :=
  match block_count this block_size block_log with
  | Some blocks => Some (u64 (sizeof_reg + u64 (blocks * sizeof_le32)))
  | None => None
  end.

End WithLayout.

End reg.

Module symlink.

Record t := mk { symlink_size : Z }.

Definition inode_size {L : Layout} (this : t) : Z :=
  u64 (sizeof_symlink + symlink_size this).

End symlink.

Module lreg.

Record t := mk { file_size : Z; fragment : Z }.

Definition inode_size {L : Layout} (this : t) (block_size block_log : Z)
    : option Z :=
  let blocks := file_size this in
  (* if fragments were not used, round up the last block *)
  let blocks :=
    if fragment this =? invalid_frag
    then u64 (blocks + u32 (block_size - 1))
    else blocks in
  (* bytes -> blocks *)
  if block_log <? 64
  then
    let blocks := Z.shiftr blocks block_log in
    Some (u64 (sizeof_lreg + u64 (u64 (2 * blocks) * sizeof_le16)))
  else None.

End lreg.

(** ** InodeReader

    The members are declared in [squashfs.hxx]: the reader [f], the
    counters [inode_num] and [no_inodes], 32 bits wide like the
    superblock member [inodes] that [no_inodes] is copied from, and
    [block_size] and [block_log] as [block_count] takes them. *)

Module InodeReader.

Record t := mk {
  f : MetadataReader.t;
  inode_num : Z;
  no_inodes : Z;
  block_size : Z;
  block_log : Z
}.

Definition on_reader {A : Type} (m : M MetadataReader.t A) : M t A :=
  fun st =>
    let '(o, r') := m (f st) in
    (o, mk r' (inode_num st) (no_inodes st) (block_size st) (block_log st)).

Definition incr_inode_num : M t unit :=
  fun st =>
    (inr tt, mk (f st) (u32 (inode_num st + 1)) (no_inodes st)
                (block_size st) (block_log st)).

(** The variables of the loop over the directory indexes:
    [i], [offset], [inode_len] and the view [ret]. *)
Record scan := mk_scan {
  sc_i : Z;
  sc_offset : Z;
  sc_inode_len : Z;
  sc_ret : Z
}.

Section WithBackend.
Context {L : Layout} {C : Compressor}.

Definition init (new_file : MMAPFile.t) (sb : super_block)
    (garbage : list byte) : t :=
  mk (MetadataReader.init new_file sb garbage)
     0 (inodes sb) (sb_block_size sb) (sb_block_log sb).

(** The first [switch]: the size of the structure of a type tag;
    [None] when no [case] assigns [inode_len]. *)
Definition fixed_size (inode_type : Z) : option Z :=
  if inode_type =? type.dir then Some sizeof_dir
  else if inode_type =? type.reg then Some sizeof_reg
  else if (inode_type =? type.symlink) || (inode_type =? type.lsymlink)
  then Some sizeof_symlink
  else if (inode_type =? type.blkdev) || (inode_type =? type.chrdev)
  then Some sizeof_dev
  else if (inode_type =? type.fifo) || (inode_type =? type.socket)
  then Some sizeof_ipc
  else if inode_type =? type.ldir then Some sizeof_ldir
  else if inode_type =? type.lreg then Some sizeof_lreg
  else if (inode_type =? type.lblkdev) || (inode_type =? type.lchrdev)
  then Some sizeof_ldev
  else if (inode_type =? type.lfifo) || (inode_type =? type.lsocket)
  then Some sizeof_lipc
  else None.

Definition initialised {S : Type} (v : option Z) : M S Z :=
  match v with
  | Some n => ret n
  | None => throw (Undefined_behaviour Uninitialised_read)
  end.

Definition shifted {S : Type} (v : option Z) : M S Z :=
  match v with
  | Some n => ret n
  | None => throw (Undefined_behaviour Shift_too_wide)
  end.

Definition inode_type_at (p : Z) : M MetadataReader.t Z :=
  MetadataReader.load p offsetof_inode_type sizeof_le16.

Definition reg_at (p : Z) : M MetadataReader.t reg.t :=
  do file_size <- MetadataReader.load p offsetof_reg_file_size sizeof_le32;
  do fragment <- MetadataReader.load p offsetof_reg_fragment sizeof_le32;
  ret (reg.mk file_size fragment).

Definition symlink_at (p : Z) : M MetadataReader.t symlink.t :=
  do symlink_size <- MetadataReader.load p offsetof_symlink_size sizeof_le32;
  ret (symlink.mk symlink_size).

Definition lreg_at (p : Z) : M MetadataReader.t lreg.t :=
  do file_size <- MetadataReader.load p offsetof_lreg_file_size sizeof_le64;
  do fragment <- MetadataReader.load p offsetof_lreg_fragment sizeof_le32;
  ret (lreg.mk file_size fragment).

Definition i_count_at (p : Z) : M MetadataReader.t Z :=
  MetadataReader.load p offsetof_i_count sizeof_le16.

(** The second [switch]: the inodes with dynamic sizes. *)
Definition dynamic_size (p inode_type inode_len block_size block_log : Z)
    : M MetadataReader.t Z :=
  if inode_type =? type.reg then
    do in2 <- reg_at p;
    shifted (reg.inode_size in2 block_size block_log)
  else if (inode_type =? type.symlink) || (inode_type =? type.lsymlink)
  then
    do in2 <- symlink_at p;
    ret (symlink.inode_size in2)
  else if inode_type =? type.lreg then
    do in2 <- lreg_at p;
    shifted (lreg.inode_size in2 block_size block_log)
  else if inode_type =? type.ldir then
    do i_count <- i_count_at p;
    ret (u64 (inode_len + u64 (i_count * sizeof_dir_index)))
  else ret inode_len.

(** The loop condition [i < in2->i_count]. *)
Definition scan_cond (s : scan) : M MetadataReader.t bool :=
  do i_count <- i_count_at (sc_ret s);
  ret (sc_i s <? i_count).

(** The loop body. *)
Definition scan_body (s : scan) : M MetadataReader.t scan :=
  do size <- MetadataReader.load (sc_ret s + sc_offset s)
               offsetof_index_size sizeof_le32;
  (* size is length-1... for some smart reason *)
  let inode_len := u64 (sc_inode_len s + u32 (size + 1)) in
  let offset := u64 (sc_offset s + u64 (u32 (size + 1) + sizeof_dir_index)) in
  do p <- MetadataReader.peek inode_len;
  ret (mk_scan (sc_i s + 1) offset inode_len p).

Fixpoint scan_loop (fuel : nat) (s : scan) : M MetadataReader.t scan :=
  do c <- scan_cond s;
  if c : bool
  then match fuel with
       | O => throw Out_of_fuel
       | S k => do s' <- scan_body s; scan_loop k s'
       end
  else ret s.

(** [i_count] is 16 bits wide and [i] counts up from 0. *)
Definition scan_fuel : nat := Z.to_nat (2 ^ 16).

Definition read : M t Z :=
  do st <- get;
  if u32 (no_inodes st + 1) <=? inode_num st
  then throw Past_last_inode
  else
    (* start with inode 'header' size *)
    do p <- on_reader (MetadataReader.peek sizeof_base);
    do inode_type <- on_reader (inode_type_at p);
    (* get the actual type-specific inode size *)
    let inode_len := fixed_size inode_type in
    if (inode_type =? 0) || (type.lsocket <? inode_type)
    then throw Invalid_inode_type
    else
      do inode_len <- initialised inode_len;
      do p <- on_reader (MetadataReader.peek inode_len);
      do inode_type <- on_reader (inode_type_at p);
      (* now consider the inodes with dynamic sizes *)
      do inode_len <- on_reader
           (dynamic_size p inode_type inode_len
              (block_size st) (block_log st));
      do p <- on_reader (MetadataReader.peek inode_len);
      do inode_type <- on_reader (inode_type_at p);
      do s <- (if inode_type =? type.ldir
               then
                 (* continue scanning dir indexes *)
                 on_reader
                   (scan_loop scan_fuel
                      (mk_scan 0 sizeof_ldir inode_len p))
               else ret (mk_scan 0 0 inode_len p));
      (* seek towards the next inode *)
      do _ <- on_reader (MetadataReader.seek (sc_inode_len s));
      do _ <- incr_inode_num;
      ret (sc_ret s).

End WithBackend.

End InodeReader.

(** ** Notions the statements below use *)

(** The invariant of a [MetadataReader]: the cursor and the valid bytes
    after it lie inside the buffer, a member array far smaller than
    4 GiB. *)
Definition wf (r : MetadataReader.t) : Prop :=
  0 <= MetadataReader.bufp r /\
  0 <= MetadataReader.buf_filled r /\
  MetadataReader.bufp r + MetadataReader.buf_filled r
    <= zlen (MetadataReader.buf r) /\
  zlen (MetadataReader.buf r) < 2 ^ 32.

(** The little-endian member, [w] bytes wide, at offset [off] of the
    record [v]. *)
Definition field (v : list byte) (off w : Z) : Z := le_val (slice v off w).

(** [m] never ends in the error [e]. *)
Definition never {S A : Type} (e : error) (m : M S A) : Prop :=
  forall s : S, fst (m s) <> inl e.

(** The errors a block pull can end in. *)
Definition raised_by_poll_data (e : error) : bool :=
  match e with
  | Eof
  | Decompress_error
  | Undefined_behaviour Memcpy_overlap
  | Undefined_behaviour Out_of_bounds => true
  | _ => false
  end.

(** [peek length] returns at once: the view is the cursor and the reader
    is left as it was, no block having been taken from the file. *)
Definition returns_at_once {L : Layout} {C : Compressor}
    (length : Z) (r : MetadataReader.t) : Prop :=
  MetadataReader.peek length r = (inr (MetadataReader.bufp r), r).

(** What the structures of [squashfs.hxx] have to satisfy for the
    decoder to make sense: a member lies inside its structure, and the
    extended directory begins with the common header. *)
Class LayoutFacts (L : Layout) : Prop := {
  inode_type_in_base :
    0 <= offsetof_inode_type /\ offsetof_inode_type + sizeof_le16 <= sizeof_base;
  base_in_ldir : sizeof_base <= sizeof_ldir;
  i_count_in_ldir :
    0 <= offsetof_i_count /\ offsetof_i_count + sizeof_le16 <= sizeof_ldir;
  size_in_dir_index :
    0 <= offsetof_index_size /\
    offsetof_index_size + sizeof_le32 <= sizeof_dir_index;
  sizes_small : sizeof_ldir < 2 ^ 32 /\ sizeof_dir_index < 2 ^ 32;
  sizes_nonneg :
    0 <= sizeof_dir /\ 0 <= sizeof_reg /\ 0 <= sizeof_symlink /\
    0 <= sizeof_dev /\ 0 <= sizeof_ipc /\ 0 <= sizeof_lreg /\
    0 <= sizeof_ldev /\ 0 <= sizeof_lipc;
  buf_small : 0 <= sizeof_buf < 2 ^ 32
}.

Section Records.
Context {L : Layout} {C : Compressor}.

(** The inode table as a byte stream.  [next_block f] is the content
    of the stored block at the position of the file [f], and the file
    after it; [pending] is the content of all the stored blocks from
    there on, as far as they can be read; [stream r] is what is still
    to be consumed at the cursor of the reader [r]: the valid bytes of
    the buffer, then the content of the blocks not yet pulled. *)
Definition next_block (f : MMAPFile.t) : option (list byte * MMAPFile.t) :=
  match MMAPFile.read_le16 f with
  | (inr length, f1) =>
      if negb (Z.land length uncompressed =? 0)
      then
        match MMAPFile.read_array
                (u16 (Z.land length (Z.lnot uncompressed))) f1 with
        | (inr src, f2) => Some (src, f2)
        | (inl _, _) => None
        end
      else
        match MMAPFile.read_array length f1 with
        | (inr src, f2) =>
            match decompress src metadata_size with
            | Some out => Some (out, f2)
            | None => None
            end
        | (inl _, _) => None
        end
  | (inl _, _) => None
  end.

Fixpoint pending (fuel : nat) (f : MMAPFile.t) : list byte :=
  match fuel with
  | O => []
  | S k =>
      match next_block f with
      | Some (blk, f') => blk ++ pending k f'
      | None => []
      end
  end.

Definition stream (r : MetadataReader.t) : list byte :=
  MetadataReader.valid_bytes r
  ++ pending (MetadataReader.peek_fuel r) (MetadataReader.f r).

(** The length of an extended directory inode whose directory indexes
    have the sizes [sizes]: the structure, and for every index its
    structure and the [size + 1] bytes of its name. *)
Definition ldir_length (sizes : list Z) : Z :=
  sizeof_ldir
  + foldr (fun size acc => sizeof_dir_index + (size + 1) + acc) 0 sizes.

(** The bytes of the names alone. *)
Definition names_length (sizes : list Z) : Z :=
  foldr (fun size acc => size + 1 + acc) 0 sizes.

(** The reader [r] is on its way to [r1]: a [peek] for [len] bytes
    takes it there. *)
Definition toward (len : Z) (r1 r : MetadataReader.t) : Prop :=
  wf r /\
  MetadataReader.peek len r = (inr (MetadataReader.bufp r1), r1).

(** Where [with_reader st r] is the decoder [st] with [r] for its
    reader. *)
Definition with_reader (st : InodeReader.t) (r : MetadataReader.t)
    : InodeReader.t :=
  InodeReader.mk r (InodeReader.inode_num st) (InodeReader.no_inodes st)
    (InodeReader.block_size st) (InodeReader.block_log st).

(** The record [v] holds, from offset [off] on, directory indexes
    whose [size] members are [sizes], each followed by its name. *)
Fixpoint index_chain (v : list byte) (off : Z) (sizes : list Z) : Prop :=
  match sizes with
  | [] => True
  | size :: sizes' =>
      field v (off + offsetof_index_size) sizeof_le32 = size /\
      index_chain v (off + sizeof_dir_index + (size + 1)) sizes'
  end.

(** The variables of the loop over the directory indexes and the
    reader at the start of round [n], when the loop gets that far. *)
Fixpoint scan_at (n : nat) (s : InodeReader.scan) (r : MetadataReader.t)
    : option (InodeReader.scan * MetadataReader.t) :=
  match n with
  | O => Some (s, r)
  | S n' =>
      match InodeReader.scan_cond s r with
      | (inr true, r1) =>
          match InodeReader.scan_body s r1 with
          | (inr s', r') => scan_at n' s' r'
          | (inl _, _) => None
          end
      | _ => None
      end
  end.

(** The invariant of the loop over the directory indexes of an
    extended directory with [k] of them: the view is the cursor, the
    bytes peeked last cover [inode_len], and [inode_len] is ahead of
    [offset] by the structures of the indexes not yet visited. *)
Definition scan_inv (k : Z) (s : InodeReader.scan) (r : MetadataReader.t)
    : Prop :=
  wf r /\
  InodeReader.sc_ret s = MetadataReader.bufp r /\
  InodeReader.sc_inode_len s <= MetadataReader.buf_filled r /\
  0 <= InodeReader.sc_i s <= k /\
  sizeof_ldir <= InodeReader.sc_offset s /\
  InodeReader.sc_inode_len s - InodeReader.sc_offset s
  = (k - InodeReader.sc_i s) * sizeof_dir_index /\
  field (MetadataReader.valid_bytes r) offsetof_i_count sizeof_le16 = k.

End Records.

(** ** A concrete instance: the SquashFS 4.0 on-disk layout

    The sizes and offsets of the packed little-endian structures of the
    format, a working buffer of twice the logical block size, and a
    backend that stores its blocks unchanged.  The examples below run
    the embedding on them. *)

Definition squashfs4 : Layout := {|
  metadata_size := 8192;
  invalid_frag := 0xffffffff;
  sizeof_buf := 2 * 8192;
  sizeof_base := 16;
  sizeof_dir := 32;
  sizeof_reg := 32;
  sizeof_symlink := 24;
  sizeof_dev := 24;
  sizeof_ipc := 20;
  sizeof_ldir := 40;
  sizeof_lreg := 56;
  sizeof_ldev := 28;
  sizeof_lipc := 24;
  sizeof_dir_index := 12;
  offsetof_inode_type := 0;
  offsetof_reg_fragment := 20;
  offsetof_reg_file_size := 28;
  offsetof_symlink_size := 20;
  offsetof_lreg_file_size := 24;
  offsetof_lreg_fragment := 44;
  offsetof_i_count := 32;
  offsetof_index_size := 8
|}.

Definition copy_backend : Compressor := {|
  decompress := fun src out_size =>
    if zlen src <=? out_size then Some src else None
|}.

Definition byte_of (z : Z) : byte :=
  match Byte.of_N (Z.to_N (z mod 256)) with
  | Some b => b
  | None => x00
  end.

(** The [w] bytes of the little-endian scalar [v]. *)
Fixpoint le_bytes (w : nat) (v : Z) : list byte :=
  match w with
  | O => []
  | S w' => byte_of v :: le_bytes w' (v / 256)
  end.

Definition zeros (n : Z) : list byte := replicate (Z.to_nat n) x00.

(** A stored block holding [payload] uncompressed. *)
Definition raw_block (payload : list byte) : list byte :=
  le_bytes 2 (Z.lor uncompressed (zlen payload)) ++ payload.

Definition pad_to (n : Z) (bs : list byte) : list byte :=
  bs ++ zeros (n - zlen bs).

(** The common header of an inode of type [ty]; the other members are 0. *)
Definition base_bytes (ty : Z) : list byte := le_bytes 2 ty ++ zeros 14.

Definition fifo_bytes : list byte := base_bytes type.fifo ++ zeros 4.

Definition reg_bytes (fragment file_size : Z) : list byte :=
  base_bytes type.reg ++ zeros 4 ++ le_bytes 4 fragment ++ zeros 4
    ++ le_bytes 4 file_size.

Definition ldir_bytes (i_count : Z) : list byte :=
  base_bytes type.ldir ++ zeros 16 ++ le_bytes 2 i_count ++ zeros 6.

(** A directory index whose name has [size + 1] bytes. *)
Definition dir_index_bytes (size : Z) : list byte :=
  zeros 8 ++ le_bytes 4 size ++ zeros (size + 1).

Definition image (blocks : list (list byte)) : MMAPFile.t :=
  MMAPFile.mk (concat blocks) 0.

Definition demo_sb (n : Z) : super_block :=
  {| inode_table_start := 0; inodes := n;
     sb_block_size := 4096; sb_block_log := 12 |}.

(** An inode table that declares one inode, a fifo; the bytes stored
    after it happen to form a second fifo record. *)
Definition one_fifo_image : MMAPFile.t :=
  image [raw_block (fifo_bytes ++ fifo_bytes)].

Definition one_fifo_decoder : InodeReader.t :=
  @InodeReader.init squashfs4 one_fifo_image (demo_sb 1) [].

(** A regular file inode of [blocks] blocks of 4096 bytes with its tail
    in fragment 0: the structure and [blocks] entries of 4 bytes. *)
Definition reg_record (blocks : Z) : list byte :=
  reg_bytes 0 (blocks * 4096) ++ zeros (4 * blocks).

(** A table of four regular files, of 2039, 2039, 17 and 2018 blocks:
    records of 8188, 8188, 100 and 8104 bytes, none longer than the
    8192 bytes of a block, stored in four full blocks. *)
Definition four_reg_stream : list byte :=
  pad_to (4 * 8192)
    (reg_record 2039 ++ reg_record 2039 ++ reg_record 17 ++ reg_record 2018).

Definition four_reg_image : MMAPFile.t :=
  image [raw_block (slice four_reg_stream 0 8192);
         raw_block (slice four_reg_stream 8192 8192);
         raw_block (slice four_reg_stream (2 * 8192) 8192);
         raw_block (slice four_reg_stream (3 * 8192) 8192)].

Definition four_reg_decoder : InodeReader.t :=
  @InodeReader.init squashfs4 four_reg_image (demo_sb 4) [].

(** A table whose first inode is an extended directory with three
    directory indexes of sizes 0, 1 and 200, followed by a fifo. *)
Definition ldir_record : list byte :=
  ldir_bytes 3 ++ dir_index_bytes 0 ++ dir_index_bytes 1
    ++ dir_index_bytes 200.

Definition ldir_image : MMAPFile.t :=
  image [raw_block (ldir_record ++ fifo_bytes)].

Definition ldir_decoder : InodeReader.t :=
  @InodeReader.init squashfs4 ldir_image (demo_sb 2) [].

(** A table whose first record carries the type tag [ty]. *)
Definition tagged_image (ty : Z) : MMAPFile.t :=
  image [raw_block (base_bytes ty ++ zeros 16)].

Definition tagged_decoder (ty : Z) : InodeReader.t :=
  @InodeReader.init squashfs4 (tagged_image ty) (demo_sb 1) [].

(** ** Further notions: the trailing data of a record, errors, runs *)

(** The accessors of the trailing data, each [this + 1] in the source:
    the address right after the structure at [this]. *)
Section Accessors.
Context {L : Layout}.

Definition dir_index_name (this : Z) : Z := this + sizeof_dir_index.

Definition symlink_symlink_name (this : Z) : Z := this + sizeof_symlink.

Definition reg_block_list (this : Z) : Z := this + sizeof_reg.

End Accessors.

(** The reader [r'] has the valid bytes of [r] at its cursor, and maybe
    more after them. *)
Definition keeps_valid (r r' : MetadataReader.t) : Prop :=
  wf r' /\
  exists more : list byte,
    MetadataReader.valid_bytes r' = MetadataReader.valid_bytes r ++ more.

(** An error the source throws, as opposed to undefined behaviour and to
    the fuel of the embedding. *)
Definition thrown (e : error) : bool :=
  match e with
  | Eof | Decompress_error | Past_last_inode | Invalid_inode_type => true
  | Undefined_behaviour _ | Out_of_fuel => false
  end.

(** What the other structures of [squashfs.hxx] have to satisfy: each
    begins with the common header, and the members the size helpers read
    lie inside their structure. *)
Class StructFacts (L : Layout) : Prop := {
  base_in_structs :
    sizeof_base <= sizeof_dir /\ sizeof_base <= sizeof_reg /\
    sizeof_base <= sizeof_symlink /\ sizeof_base <= sizeof_dev /\
    sizeof_base <= sizeof_ipc /\ sizeof_base <= sizeof_lreg /\
    sizeof_base <= sizeof_ldev /\ sizeof_base <= sizeof_lipc;
  reg_members :
    0 <= offsetof_reg_file_size /\
    offsetof_reg_file_size + sizeof_le32 <= sizeof_reg /\
    0 <= offsetof_reg_fragment /\
    offsetof_reg_fragment + sizeof_le32 <= sizeof_reg;
  symlink_members :
    0 <= offsetof_symlink_size /\
    offsetof_symlink_size + sizeof_le32 <= sizeof_symlink;
  lreg_members :
    0 <= offsetof_lreg_file_size /\
    offsetof_lreg_file_size + sizeof_le64 <= sizeof_lreg /\
    0 <= offsetof_lreg_fragment /\
    offsetof_lreg_fragment + sizeof_le32 <= sizeof_lreg;
  structs_small :
    sizeof_reg < 2 ^ 32 /\ sizeof_symlink < 2 ^ 32 /\ sizeof_lreg < 2 ^ 32
}.

Section Runs.
Context {L : Layout} {C : Compressor}.

(** [k] calls of [read] in a row, when each of them returns. *)
Fixpoint read_n (k : nat) (st : InodeReader.t) : option InodeReader.t :=
  match k with
  | O => Some st
  | S k' =>
      match InodeReader.read st with
      | (inr _, st') => read_n k' st'
      | (inl _, _) => None
      end
  end.

End Runs.

(** An inode table cut short: a block with a fifo, then the header of
    a block that announces 100 bytes, and 10 of them. *)
Definition truncated_image : MMAPFile.t :=
  image [raw_block fifo_bytes;
         le_bytes 2 (Z.lor uncompressed 100) ++ zeros 10].

Definition truncated_decoder : InodeReader.t :=
  @InodeReader.init squashfs4 truncated_image (demo_sb 2) [].

(** A file with no inode table at all. *)
Definition empty_image : MMAPFile.t := image [].

(** A table of a symlink whose target has 11 bytes, a regular file of
    3 blocks and an extended regular file of 5 blocks, both with their
    tail in a fragment, and a fifo. *)
Definition symlink_bytes (symlink_size : Z) : list byte :=
  base_bytes type.symlink ++ zeros 4 ++ le_bytes 4 symlink_size
    ++ zeros symlink_size.

Definition lreg_bytes (fragment file_size : Z) : list byte :=
  base_bytes type.lreg ++ zeros 8 ++ le_bytes 8 file_size ++ zeros 12
    ++ le_bytes 4 fragment ++ zeros 8.

Definition lreg_record (blocks : Z) : list byte :=
  lreg_bytes 0 (blocks * 4096) ++ zeros (4 * blocks).

Definition mixed_image : MMAPFile.t :=
  image [raw_block (symlink_bytes 11 ++ reg_record 3 ++ lreg_record 5
                      ++ fifo_bytes)].




(** ** Byte lists *)

Lemma zlen_nonneg (l : list byte) : 0 <= zlen l.
Proof. unfold zlen. lia. Qed.

Lemma zlen_app (l k : list byte) : zlen (l ++ k) = zlen l + zlen k.
Proof. unfold zlen. rewrite length_app. lia. Qed.

Lemma zlen_slice (l : list byte) (off n : Z) :
  0 <= off -> 0 <= n -> off + n <= zlen l -> zlen (slice l off n) = n.
Proof.
  unfold zlen, slice. intros Hoff Hn Hle.
  rewrite length_take, length_drop. lia.
Qed.

Lemma zlen_splice (l : list byte) (off : Z) (bs : list byte) :
  0 <= off -> off + zlen bs <= zlen l -> zlen (splice l off bs) = zlen l.
Proof.
  unfold zlen, splice. intros Hoff Hle.
  rewrite !length_app, length_take, length_drop. lia.
Qed.

Lemma slice_nil (l : list byte) (off : Z) : slice l off 0 = [].
Proof. reflexivity. Qed.

Lemma slice_app (l : list byte) (off n m : Z) :
  0 <= off -> 0 <= n -> 0 <= m ->
  slice l off (n + m) = slice l off n ++ slice l (off + n) m.
Proof.
  unfold slice. intros Hoff Hn Hm.
  rewrite !Z2Nat.inj_add by lia.
  rewrite <- take_take_drop, drop_drop. reflexivity.
Qed.

Lemma slice_splice_same (l : list byte) (off : Z) (bs : list byte) :
  0 <= off -> off <= zlen l ->
  slice (splice l off bs) off (zlen bs) = bs.
Proof.
  unfold slice, splice, zlen. intros Hoff Hle.
  rewrite drop_app_length' by (rewrite length_take; lia).
  rewrite Nat2Z.id. apply take_app_length.
Qed.

Lemma slice_splice_before (l : list byte) (off : Z) (bs : list byte) (a n : Z) :
  0 <= a -> 0 <= n -> a + n <= off -> off <= zlen l ->
  slice (splice l off bs) a n = slice l a n.
Proof.
  unfold slice, splice, zlen. intros Ha Hn Hle Hoff.
  rewrite drop_app_le by (rewrite length_take; lia).
  rewrite take_app_le by (rewrite length_drop, length_take; lia).
  rewrite take_drop_commute, take_take.
  rewrite (take_drop_commute l). f_equal. f_equal. lia.
Qed.

Lemma slice_prefix (l : list byte) (off n m : Z) :
  0 <= off -> 0 <= n -> n <= m -> slice l off n `prefix_of` slice l off m.
Proof.
  intros Hoff Hn Hm. replace m with (n + (m - n)) by lia.
  rewrite slice_app by lia. apply prefix_app_r. reflexivity.
Qed.

Lemma slice_slice (l : list byte) (off n a m : Z) :
  0 <= off -> 0 <= a -> 0 <= m -> a + m <= n ->
  slice (slice l off n) a m = slice l (off + a) m.
Proof.
  unfold slice. intros Hoff Ha Hm Hle.
  rewrite skipn_firstn_comm, take_take, drop_drop.
  f_equal; [lia|]. f_equal. lia.
Qed.

Section ReaderBasics.
Import MetadataReader.

Lemma byte_val_bound (b : byte) : 0 <= byte_val b < 256.
Proof.
  unfold byte_val. pose proof (Byte.to_N_bounded b). lia.
Qed.

Lemma le_val_bound (bs : list byte) : 0 <= le_val bs < 2 ^ (8 * zlen bs).
Proof.
  induction bs as [|b bs IH]; [change (0 <= 0 < 1); lia|].
  cbn [le_val]. pose proof (byte_val_bound b).
  replace (8 * zlen (b :: bs)) with (8 + 8 * zlen bs)
    by (unfold zlen; cbn [length]; lia).
  rewrite Z.pow_add_r by (pose proof (zlen_nonneg bs); lia).
  change (2 ^ 8) with 256. nia.
Qed.

Lemma read_array_inr (n : Z) (f0 f1 : MMAPFile.t) (bs : list byte) :
  MMAPFile.read_array n f0 = (inr bs, f1) ->
  0 <= MMAPFile.pos f0 /\ 0 <= n /\
  MMAPFile.pos f0 + n <= zlen (MMAPFile.data f0) /\
  bs = slice (MMAPFile.data f0) (MMAPFile.pos f0) n /\
  f1 = MMAPFile.mk (MMAPFile.data f0) (MMAPFile.pos f0 + n).
Proof.
  unfold MMAPFile.read_array. intros H.
  destruct (_ && _) eqn:Hb in H; [|discriminate].
  injection H as <- <-.
  apply andb_prop in Hb as [Hb H3]. apply andb_prop in Hb as [H1 H2].
  repeat split; lia.
Qed.

Lemma read_array_zlen (n : Z) (f0 f1 : MMAPFile.t) (bs : list byte) :
  MMAPFile.read_array n f0 = (inr bs, f1) -> zlen bs = n.
Proof.
  intros H. apply read_array_inr in H as (H1 & H2 & H3 & -> & _).
  apply zlen_slice; assumption.
Qed.

Lemma read_array_inl (n : Z) (f0 f1 : MMAPFile.t) (e : error) :
  MMAPFile.read_array n f0 = (inl e, f1) -> e = Eof /\ f1 = f0.
Proof.
  unfold MMAPFile.read_array. intros H.
  destruct (_ && _) in H; [discriminate|].
  injection H as <- <-. split; reflexivity.
Qed.

Lemma read_le16_inr (f0 f1 : MMAPFile.t) (v : Z) :
  MMAPFile.read_le16 f0 = (inr v, f1) ->
  0 <= MMAPFile.pos f0 /\
  MMAPFile.pos f0 + 2 <= zlen (MMAPFile.data f0) /\
  f1 = MMAPFile.mk (MMAPFile.data f0) (MMAPFile.pos f0 + 2) /\
  0 <= v < 2 ^ 16.
Proof.
  unfold MMAPFile.read_le16, bind, ret. intros H.
  destruct (MMAPFile.read_array _ f0) as [[e|bs] f'] eqn:E; [discriminate|].
  injection H as <- <-.
  apply read_array_inr in E as (H1 & _ & H3 & -> & ->).
  unfold sizeof_le16 in *. split; [lia|]. split; [lia|]. split; [reflexivity|].
  pose proof (le_val_bound (slice (MMAPFile.data f0) (MMAPFile.pos f0) 2)) as Hb.
  rewrite zlen_slice in Hb by lia. exact Hb.
Qed.

Lemma store_inr (dst : Z) (bs : list byte) (r r' : t) :
  store dst bs r = (inr tt, r') ->
  0 <= dst /\ dst + zlen bs <= zlen (buf r) /\
  r' = mk (f r) (splice (buf r) dst bs) (bufp r) (buf_filled r).
Proof.
  unfold store, in_bounds. intros H.
  destruct (_ && _) eqn:Hb in H; [|discriminate].
  injection H as <-.
  apply andb_prop in Hb as [Hb H3]. apply andb_prop in Hb as [H1 H2].
  repeat split; lia.
Qed.

Lemma memcpy_inr (dst src n : Z) (r r' : t) :
  memcpy dst src n r = (inr tt, r') ->
  0 <= n /\ 0 <= src /\ src + n <= zlen (buf r) /\
  0 <= dst /\ dst + n <= zlen (buf r) /\
  (n = 0 \/ src + n <= dst \/ dst + n <= src) /\
  r' = mk (f r) (splice (buf r) dst (slice (buf r) src n))
          (bufp r) (buf_filled r).
Proof.
  unfold memcpy, in_bounds, overlap. intros H.
  destruct (negb _) eqn:Hb in H; [discriminate|].
  destruct (_ && _) eqn:Ho in H; [discriminate|].
  apply negb_false_iff in Hb.
  apply andb_prop in Hb as [Hs Hd].
  apply andb_prop in Hs as [Hs Hs3]. apply andb_prop in Hs as [Hs1 Hs2].
  apply andb_prop in Hd as [Hd Hd3]. apply andb_prop in Hd as [Hd1 Hd2].
  apply store_inr in H as (_ & _ & ->).
  repeat split; lia.
Qed.

Lemma bind_inr {S A B : Type} (m : M S A) (k : A -> M S B) (s s' : S) (b : B) :
  bind m k s = (inr b, s') ->
  exists (a : A) (s1 : S), m s = (inr a, s1) /\ k a s1 = (inr b, s').
Proof.
  unfold bind. destruct (m s) as [[e|a] s1]; [discriminate|]. eauto.
Qed.

Lemma on_file_inv {A : Type} (m : M MMAPFile.t A) (r r' : t) (o : error + A) :
  on_file m r = (o, r') ->
  exists f' : MMAPFile.t,
    m (f r) = (o, f') /\ r' = mk f' (buf r) (bufp r) (buf_filled r).
Proof.
  unfold on_file. destruct (m (f r)) as [o' f']. intros [= <- <-]. eauto.
Qed.

Lemma wrap_small (w x : Z) : 0 <= x < 2 ^ w -> wrap w x = x.
Proof. unfold wrap. intros. apply Z.mod_small. assumption. Qed.

Lemma u16_small (x : Z) : 0 <= x < 2 ^ 16 -> u16 x = x.
Proof. apply wrap_small. Qed.

Lemma u32_small (x : Z) : 0 <= x < 2 ^ 32 -> u32 x = x.
Proof. apply wrap_small. Qed.

Lemma u64_small (x : Z) : 0 <= x < 2 ^ 64 -> u64 x = x.
Proof. apply wrap_small. Qed.

Lemma never_bind {S A B : Type} (e : error) (m : M S A) (k : A -> M S B) :
  never e m -> (forall a : A, never e (k a)) -> never e (bind m k).
Proof.
  intros Hm Hk s. unfold bind. specialize (Hm s).
  destruct (m s) as [[e'|a] s1]; [|apply Hk].
  cbn in *. intros [= ->]. apply Hm. reflexivity.
Qed.

Lemma never_ret {S A : Type} (e : error) (a : A) : never e (@ret S A a).
Proof. intros s. discriminate. Qed.

Lemma never_get {S : Type} (e : error) : never e (@get S).
Proof. intros s. discriminate. Qed.

Lemma never_throw {S A : Type} (e e' : error) :
  e <> e' -> never e (@throw S A e').
Proof. intros Hne s. cbn. congruence. Qed.

Lemma never_read_array (e : error) (n : Z) :
  raised_by_poll_data e = false -> never e (MMAPFile.read_array n).
Proof.
  intros He s. unfold MMAPFile.read_array.
  destruct (_ && _); cbn; [discriminate|]. intros [= <-]. discriminate.
Qed.

Lemma never_read_le16 (e : error) :
  raised_by_poll_data e = false -> never e MMAPFile.read_le16.
Proof.
  intros He. apply never_bind; [apply never_read_array, He|].
  intros; apply never_ret.
Qed.

Lemma never_on_file {A : Type} (e : error) (m : M MMAPFile.t A) :
  never e m -> never e (on_file m).
Proof.
  intros Hm r. unfold on_file. specialize (Hm (f r)).
  destruct (m (f r)) as [o f']. exact Hm.
Qed.

Lemma never_store (e : error) (dst : Z) (bs : list byte) :
  raised_by_poll_data e = false -> never e (store dst bs).
Proof.
  intros He r. unfold store.
  destruct (in_bounds _ _ _); cbn; [discriminate|]. intros [= <-]. discriminate.
Qed.

Lemma never_memcpy (e : error) (dst src n : Z) :
  raised_by_poll_data e = false -> never e (memcpy dst src n).
Proof.
  intros He r. unfold memcpy.
  destruct (negb _); [cbn; intros [= <-]; discriminate|].
  destruct (overlap _ _ _); [cbn; intros [= <-]; discriminate|].
  apply never_store, He.
Qed.

Lemma never_load (e : error) (p off w : Z) :
  raised_by_poll_data e = false -> never e (load p off w).
Proof.
  intros He r. unfold load.
  destruct (in_bounds _ _ _); cbn; [discriminate|]. intros [= <-]. discriminate.
Qed.

End ReaderBasics.

Section Reader.
Context {L : Layout} {C : Compressor}.
Import MetadataReader.

(** The compaction step of [poll_data]. *)
Lemma shift_inr (r r1 : t) (writep : Z) :
  wf r ->
  (if metadata_size <? bufp r + buf_filled r - 0
   then do _ <- memcpy 0 (bufp r) (buf_filled r);
        do _ <- set_bufp 0;
        ret (0 + buf_filled r)
   else ret (bufp r + buf_filled r)) r = (inr writep, r1) ->
  valid_bytes r1 = valid_bytes r /\
  buf_filled r1 = buf_filled r /\
  (bufp r1 = bufp r \/ bufp r1 = 0) /\
  zlen (buf r1) = zlen (buf r) /\
  f r1 = f r /\
  writep = bufp r1 + buf_filled r1.
Proof.
  intros (Hp & Hf & Hle & Hcap) H.
  destruct (metadata_size <? _) in H.
  - apply bind_inr in H as ([] & r2 & Hm & H).
    apply memcpy_inr in Hm as (_ & _ & _ & _ & _ & _ & ->).
    cbv [bind set_bufp ret] in H. cbn in H. injection H as <- <-.
    unfold valid_bytes. cbn.
    pose proof (zlen_slice (buf r) (bufp r) (buf_filled r) Hp Hf Hle) as Hn.
    rewrite <- Hn at 2.
    rewrite slice_splice_same by (pose proof (zlen_nonneg (buf r)); lia).
    rewrite zlen_splice by lia. auto 10.
  - injection H as <- <-. auto 10.
Qed.

(** What a successful [poll_data] does: it takes one stored block from
    the file and appends its bytes to the valid bytes at the cursor. *)
Lemma poll_data_inr (r r' : t) :
  wf r ->
  poll_data r = (inr tt, r') ->
  exists blk : list byte,
    next_block (f r) = Some (blk, f r') /\
    valid_bytes r' = valid_bytes r ++ blk /\
    buf_filled r' = buf_filled r + zlen blk /\
    (bufp r' = bufp r \/ bufp r' = 0) /\
    zlen (buf r') = zlen (buf r) /\
    wf r'.
Proof.
  intros Hwf H. pose proof Hwf as (Hp & Hf & Hle & Hcap).
  unfold poll_data in H.
  apply bind_inr in H as (len & r0 & Hlen & H).
  apply on_file_inv in Hlen as (f0 & Hlen & ->).
  apply bind_inr in H as (r0 & r0' & Hget & H).
  injection Hget as <- <-. cbn [bufp buf_filled] in H.
  apply bind_inr in H as (writep & r1 & Hshift & H).
  assert (Hwf0 : wf (mk f0 (buf r) (bufp r) (buf_filled r)))
    by (repeat split; assumption).
  apply (shift_inr (mk f0 (buf r) (bufp r) (buf_filled r))) in Hshift
    as (Hv & Hfill & Hbufp & Hlenb & Hf1 & ->); [|exact Hwf0].
  cbn [bufp buf_filled buf f] in *. unfold valid_bytes in Hv. cbn in Hv.
  fold (valid_bytes r1) in Hv. fold (valid_bytes r) in Hv.
  assert (Hp1 : 0 <= bufp r1) by lia.
  assert (Hstore : forall (blk : list byte) (r2 r3 r4 : t),
    store (bufp r1 + buf_filled r1) blk r2 = (inr tt, r3) ->
    buf r2 = buf r1 -> bufp r2 = bufp r1 -> buf_filled r2 = buf_filled r1 ->
    add_buf_filled (zlen blk) r3 = (inr tt, r4) ->
    f r4 = f r2 /\
    valid_bytes r4 = valid_bytes r ++ blk /\
    buf_filled r4 = buf_filled r + zlen blk /\
    (bufp r4 = bufp r \/ bufp r4 = 0) /\
    zlen (buf r4) = zlen (buf r) /\
    wf r4).
  { intros blk r2 r3 r4 Hst Hb2 Hp2 Hf2 Hadd.
    apply store_inr in Hst as (Hd & Hroom & ->).
    injection Hadd as <-. cbn. rewrite Hb2, Hp2, Hf2 in *.
    pose proof (zlen_nonneg blk) as Hblk.
    rewrite u64_small by lia.
    unfold valid_bytes. cbn.
    rewrite zlen_splice by lia.
    rewrite slice_app by lia.
    rewrite slice_splice_before by lia.
    rewrite slice_splice_same by lia.
    fold (valid_bytes r1). rewrite Hv.
    split; [reflexivity|].
    split; [reflexivity|]. split; [lia|]. split; [lia|]. split; [lia|].
    unfold wf. cbn. rewrite zlen_splice by lia. lia. }
  unfold next_block. rewrite Hlen.
  destruct (negb _) in H |- *.
  - apply bind_inr in H as (src & r2 & Hsrc & H).
    apply on_file_inv in Hsrc as (f2 & Hsrc & ->).
    rewrite Hf1 in Hsrc. rewrite Hsrc.
    apply read_array_zlen in Hsrc.
    apply bind_inr in H as ([] & r3 & Hst & H).
    exists src. rewrite <- Hsrc in H.
    destruct (Hstore _ _ _ _ Hst eq_refl eq_refl eq_refl H) as (-> & Hrest).
    split; [reflexivity|exact Hrest].
  - apply bind_inr in H as (src & r2 & Hsrc & H).
    apply on_file_inv in Hsrc as (f2 & Hsrc & ->).
    rewrite Hf1 in Hsrc. rewrite Hsrc.
    apply bind_inr in H as (out & r3 & Hout & H).
    unfold run_decompress in Hout.
    destruct (decompress src metadata_size) as [blk|]; [|discriminate].
    injection Hout as <- <-.
    apply bind_inr in H as ([] & r4 & Hst & H).
    exists blk.
    destruct (Hstore _ _ _ _ Hst eq_refl eq_refl eq_refl H) as (-> & Hrest).
    split; [reflexivity|exact Hrest].
Qed.

(** A successful [poll_data] takes at least the two bytes of a block
    header from the file. *)
Lemma poll_data_consumes (r r' : t) :
  poll_data r = (inr tt, r') ->
  0 <= MMAPFile.remaining (f r') /\
  MMAPFile.remaining (f r') + 2 <= MMAPFile.remaining (f r).
Proof.
  intros H. unfold poll_data in H.
  apply bind_inr in H as (len & r0 & Hlen & H).
  apply on_file_inv in Hlen as (f0 & Hlen & ->).
  apply read_le16_inr in Hlen as (Hpos & Hroom & -> & _).
  apply bind_inr in H as (r0 & r0' & Hget & H).
  injection Hget as <- <-. cbn [bufp buf_filled] in H.
  apply bind_inr in H as (writep & r1 & Hshift & H).
  assert (Hf1 : f r1 = MMAPFile.mk (MMAPFile.data (f r)) (MMAPFile.pos (f r) + 2)).
  { destruct (metadata_size <? _) in Hshift.
    - apply bind_inr in Hshift as ([] & r2 & Hm & Hshift).
      apply memcpy_inr in Hm as (_ & _ & _ & _ & _ & _ & ->).
      cbv [bind set_bufp ret] in Hshift. cbn in Hshift.
      injection Hshift as <- <-. reflexivity.
    - injection Hshift as <- <-. reflexivity. }
  assert (Hrd : forall (n : Z) (src : list byte) (f2 : MMAPFile.t),
    MMAPFile.read_array n (f r1) = (inr src, f2) ->
    0 <= MMAPFile.remaining f2 /\
    MMAPFile.remaining f2 + 2 <= MMAPFile.remaining (f r)).
  { intros n src f2 Hsrc.
    apply read_array_inr in Hsrc as (_ & Hn & Hend & _ & ->).
    rewrite Hf1 in *. unfold MMAPFile.remaining. cbn in *. lia. }
  assert (Hadd : forall (n : Z) (r3 : t),
    add_buf_filled n r3 = (inr tt, r') -> f r' = f r3).
  { intros n r3 [= <-]. reflexivity. }
  destruct (negb _) in H.
  - apply bind_inr in H as (src & r2 & Hsrc & H).
    apply on_file_inv in Hsrc as (f2 & Hsrc & ->).
    apply Hrd in Hsrc.
    apply bind_inr in H as ([] & r3 & Hst & H).
    apply store_inr in Hst as (_ & _ & ->).
    apply Hadd in H. rewrite H. exact Hsrc.
  - apply bind_inr in H as (src & r2 & Hsrc & H).
    apply on_file_inv in Hsrc as (f2 & Hsrc & ->).
    apply Hrd in Hsrc.
    apply bind_inr in H as (out & r3 & Hout & H).
    unfold run_decompress in Hout.
    destruct (decompress src metadata_size) as [blk|]; [|discriminate].
    injection Hout as <- <-.
    apply bind_inr in H as ([] & r4 & Hst & H).
    apply store_inr in Hst as (_ & _ & ->).
    apply Hadd in H. rewrite H. exact Hsrc.
Qed.

Lemma poll_data_never (e : error) :
  raised_by_poll_data e = false -> never e poll_data.
Proof.
  intros He. unfold poll_data.
  apply never_bind; [apply never_on_file, never_read_le16, He|intros len].
  apply never_bind; [apply never_get|intros r].
  apply never_bind; [|intros writep].
  - destruct (metadata_size <? _); [|apply never_ret].
    apply never_bind; [apply never_memcpy, He|intros _].
    apply never_bind; [intros s; discriminate|intros _].
    apply never_ret.
  - destruct (negb _).
    + apply never_bind; [apply never_on_file, never_read_array, He|intros src].
      apply never_bind; [apply never_store, He|intros _].
      intros s; discriminate.
    + apply never_bind; [apply never_on_file, never_read_array, He|intros src].
      apply never_bind; [|intros out].
      * unfold run_decompress. destruct (decompress _ _); [apply never_ret|].
        apply never_throw. intros ->. discriminate.
      * apply never_bind; [apply never_store, He|intros _].
        intros s; discriminate.
Qed.

Lemma peek_loop_S (k : nat) (len : Z) (r : t) :
  peek_loop (S k) len r =
  if buf_filled r <? len
  then (do _ <- poll_data; peek_loop k len) r
  else (inr tt, r).
Proof. reflexivity. Qed.

Lemma peek_loop_done (n : nat) (len : Z) (r : t) :
  len <= buf_filled r -> peek_loop n len r = (inr tt, r).
Proof.
  intros Hle. destruct n; cbn [peek_loop];
    destruct (buf_filled r <? len) eqn:E; try reflexivity; lia.
Qed.

(** The loop never takes more rounds than the file has bytes left. *)
Lemma peek_loop_fuel (n m : nat) (len : Z) (r : t) :
  Z.max 0 (MMAPFile.remaining (f r)) < Z.of_nat n ->
  Z.max 0 (MMAPFile.remaining (f r)) < Z.of_nat m ->
  peek_loop n len r = peek_loop m len r.
Proof.
  revert m r. induction n as [|n IH]; intros m r Hn Hm; [lia|].
  destruct m as [|m]; [lia|].
  rewrite !peek_loop_S.
  destruct (buf_filled r <? len); [|reflexivity].
  unfold bind. destruct (poll_data r) as [[e|[]] r1] eqn:E; [reflexivity|].
  apply poll_data_consumes in E as [E0 E2].
  apply IH; lia.
Qed.

Lemma peek_loop_total (n : nat) (len : Z) (r : t) :
  Z.max 0 (MMAPFile.remaining (f r)) < Z.of_nat n ->
  fst (peek_loop n len r) <> inl Out_of_fuel.
Proof.
  revert r. induction n as [|n IH]; intros r Hn; [lia|].
  rewrite peek_loop_S.
  destruct (buf_filled r <? len); [|discriminate].
  unfold bind. destruct (poll_data r) as [[e|[]] r1] eqn:E.
  - pose proof (poll_data_never Out_of_fuel eq_refl r) as Hp.
    rewrite E in Hp. exact Hp.
  - apply poll_data_consumes in E as [E0 E2]. apply IH. lia.
Qed.

Lemma peek_fuel_enough (r : t) :
  Z.max 0 (MMAPFile.remaining (f r)) < Z.of_nat (peek_fuel r).
Proof. unfold peek_fuel. lia. Qed.

Lemma peek_loop_inr (n : nat) (len : Z) (r r' : t) :
  peek_loop n len r = (inr tt, r') ->
  len <= buf_filled r' /\
  MMAPFile.remaining (f r') <= MMAPFile.remaining (f r).
Proof.
  revert r. induction n as [|n IH]; intros r H.
  - cbn [peek_loop] in H.
    destruct (buf_filled r <? len) eqn:E; [discriminate|].
    injection H as <-. lia.
  - rewrite peek_loop_S in H.
    destruct (buf_filled r <? len) eqn:E.
    + apply bind_inr in H as ([] & r1 & Hp & H).
      apply poll_data_consumes in Hp. apply IH in H. lia.
    + injection H as <-. lia.
Qed.

(** Across a successful run of the loop the bytes at the cursor stay
    and more are appended; the cursor itself only ever moves back to
    the origin of the buffer. *)
Lemma peek_loop_wf (n : nat) (len : Z) (r r' : t) :
  wf r ->
  peek_loop n len r = (inr tt, r') ->
  wf r' /\
  (exists more : list byte, valid_bytes r' = valid_bytes r ++ more) /\
  buf_filled r <= buf_filled r' /\
  bufp r' <= bufp r /\
  zlen (buf r') = zlen (buf r).
Proof.
  revert r. induction n as [|n IH]; intros r Hwf H.
  - cbn [peek_loop] in H.
    destruct (buf_filled r <? len) eqn:E; [discriminate|].
    injection H as <-. split; [assumption|].
    split; [exists []; symmetry; apply app_nil_r|]. lia.
  - rewrite peek_loop_S in H.
    destruct (buf_filled r <? len) eqn:E.
    + apply bind_inr in H as ([] & r1 & Hp & H).
      apply poll_data_inr in Hp as (blk & _ & Hv & Hfill & Hbufp & Hlen & Hwf1);
        [|assumption].
      apply IH in H as (Hwf' & (more & Hv') & Hfill' & Hbufp' & Hlen');
        [|assumption].
      split; [assumption|]. split.
      * exists (blk ++ more). rewrite Hv', Hv, app_assoc. reflexivity.
      * pose proof (zlen_nonneg blk). destruct Hwf as (Hp0 & _). lia.
    + injection H as <-. split; [assumption|].
      split; [exists []; symmetry; apply app_nil_r|]. lia.
Qed.

Lemma peek_inv (len : Z) (r r' : t) (o : error + Z) :
  peek len r = (o, r') ->
  (exists e, o = inl e /\ peek_loop (peek_fuel r) len r = (inl e, r')) \/
  (o = inr (bufp r') /\ peek_loop (peek_fuel r) len r = (inr tt, r')).
Proof.
  unfold peek, bind, get, ret.
  destruct (peek_loop (peek_fuel r) len r) as [[e|[]] r1];
    intros [= <- <-]; eauto.
Qed.

Lemma peek_inr (len : Z) (r r' : t) (p : Z) :
  peek len r = (inr p, r') ->
  p = bufp r' /\ peek_loop (peek_fuel r) len r = (inr tt, r').
Proof.
  intros H. apply peek_inv in H as [(e & [=] & _)|([= ->] & H)]. auto.
Qed.

(** A [peek] for bytes that are buffered already changes nothing. *)
Lemma peek_buffered (len : Z) (r : t) :
  len <= buf_filled r -> peek len r = (inr (bufp r), r).
Proof.
  intros Hle. unfold peek, bind, get, ret.
  rewrite peek_loop_done by assumption. reflexivity.
Qed.

(** A [peek] for [a] bytes followed by one for [b >= a] bytes is the
    [peek] for [b] bytes. *)
Lemma peek_loop_compose (n : nat) (a b : Z) (r : t) :
  a <= b ->
  Z.max 0 (MMAPFile.remaining (f r)) < Z.of_nat n ->
  peek_loop n b r = (do _ <- peek_loop n a; peek_loop n b) r.
Proof.
  intros Hab. revert r. induction n as [|n IH]; intros r Hn; [lia|].
  unfold bind. rewrite (peek_loop_S n a).
  destruct (buf_filled r <? a) eqn:Ea; [|reflexivity].
  rewrite (peek_loop_S n b).
  destruct (buf_filled r <? b) eqn:Eb; [|lia].
  unfold bind.
  destruct (poll_data r) as [[e|[]] r1] eqn:Ep; [reflexivity|].
  apply poll_data_consumes in Ep as [E0 E2].
  rewrite IH by lia. unfold bind.
  destruct (peek_loop n a r1) as [[e|[]] r2] eqn:Ea1; [reflexivity|].
  apply peek_loop_inr in Ea1 as [_ Hrem].
  apply peek_loop_fuel; lia.
Qed.

Lemma peek_compose (a b : Z) (r : t) :
  a <= b -> peek b r = (do _ <- peek a; peek b) r.
Proof.
  intros Hab. unfold peek, bind, get, ret.
  rewrite (peek_loop_compose _ a b) by (assumption || apply peek_fuel_enough).
  unfold bind.
  destruct (peek_loop (peek_fuel r) a r) as [[e|[]] r1] eqn:Ea; [reflexivity|].
  apply peek_loop_inr in Ea as [_ Hrem].
  rewrite (peek_loop_fuel (peek_fuel r1) (peek_fuel r)); [reflexivity| |].
  - apply peek_fuel_enough.
  - pose proof (peek_fuel_enough r). lia.
Qed.

Lemma peek_total (len : Z) (r : t) : fst (peek len r) <> inl Out_of_fuel.
Proof.
  unfold peek, bind, get, ret.
  pose proof (peek_loop_total (peek_fuel r) len r (peek_fuel_enough r)) as H.
  destruct (peek_loop (peek_fuel r) len r) as [[e|[]] r1]; [|discriminate].
  cbn in *. intros [= ->]. apply H. reflexivity.
Qed.

Lemma peek_loop_never (e : error) (n : nat) (len : Z) :
  raised_by_poll_data e = false -> e <> Out_of_fuel ->
  never e (peek_loop n len).
Proof.
  intros He Hne. induction n as [|n IH]; intros r.
  - cbn [peek_loop]. destruct (buf_filled r <? len); cbn; congruence.
  - rewrite peek_loop_S. destruct (buf_filled r <? len); [|discriminate].
    apply never_bind; [apply poll_data_never, He|intros _; exact IH].
Qed.

Lemma peek_never (e : error) (len : Z) :
  raised_by_poll_data e = false -> never e (peek len).
Proof.
  intros He r.
  destruct (decide (e = Out_of_fuel)) as [->|Hne]; [apply peek_total|].
  unfold peek.
  apply never_bind; [apply peek_loop_never; assumption|intros _].
  apply never_bind; [apply never_get|intros; apply never_ret].
Qed.

End Reader.

(** ** The inode table as a stream *)

Lemma slice_drop (l : list byte) (off m n : Z) :
  0 <= off -> 0 <= n <= m ->
  drop (Z.to_nat n) (slice l off m) = slice l (off + n) (m - n).
Proof.
  unfold slice. intros Hoff Hn.
  rewrite skipn_firstn_comm, drop_drop. f_equal; [lia|]. f_equal. lia.
Qed.

Section Stream.
Context {L : Layout} {C : Compressor}.
Import MetadataReader.

Lemma next_block_consumes (f0 f1 : MMAPFile.t) (blk : list byte) :
  next_block f0 = Some (blk, f1) ->
  0 <= MMAPFile.remaining f1 /\
  MMAPFile.remaining f1 + 2 <= MMAPFile.remaining f0.
Proof.
  unfold next_block. intros H.
  destruct (MMAPFile.read_le16 f0) as [[e|len] fa] eqn:Hlen; [discriminate|].
  apply read_le16_inr in Hlen as (Hpos & Hroom & -> & _).
  assert (Hrd : forall (n : Z) (src : list byte) (f2 : MMAPFile.t),
    MMAPFile.read_array n
      (MMAPFile.mk (MMAPFile.data f0) (MMAPFile.pos f0 + 2)) = (inr src, f2) ->
    0 <= MMAPFile.remaining f2 /\
    MMAPFile.remaining f2 + 2 <= MMAPFile.remaining f0).
  { intros n src f2 Hsrc.
    apply read_array_inr in Hsrc as (_ & Hn & Hend & _ & ->).
    unfold MMAPFile.remaining. cbn in *. lia. }
  destruct (negb _) in H.
  - destruct (MMAPFile.read_array _ _) as [[e|src] f2] eqn:Hsrc in H;
      [discriminate|].
    injection H as <- <-. exact (Hrd _ _ _ Hsrc).
  - destruct (MMAPFile.read_array _ _) as [[e|src] f2] eqn:Hsrc in H;
      [discriminate|].
    destruct (decompress src metadata_size); [|discriminate].
    injection H as <- <-. exact (Hrd _ _ _ Hsrc).
Qed.

Lemma pending_fuel (n m : nat) (f0 : MMAPFile.t) :
  Z.max 0 (MMAPFile.remaining f0) < Z.of_nat n ->
  Z.max 0 (MMAPFile.remaining f0) < Z.of_nat m ->
  pending n f0 = pending m f0.
Proof.
  revert m f0. induction n as [|n IH]; intros m f0 Hn Hm; [lia|].
  destruct m as [|m]; [lia|]. cbn [pending].
  destruct (next_block f0) as [[blk f1]|] eqn:E; [|reflexivity].
  apply next_block_consumes in E as [E0 E2].
  f_equal. apply IH; lia.
Qed.

(** A block pull moves the content of one stored block from the part
    of the stream still in the file into the buffer. *)
Lemma poll_data_stream (r r' : t) :
  wf r -> poll_data r = (inr tt, r') -> stream r' = stream r.
Proof.
  intros Hwf H.
  apply poll_data_inr in H as (blk & Hnext & Hv & _); [|assumption].
  unfold stream. rewrite Hv, <- app_assoc. f_equal.
  unfold peek_fuel at 2. cbn [pending]. rewrite Hnext. f_equal.
  apply next_block_consumes in Hnext as [E0 E2].
  apply pending_fuel; unfold peek_fuel; lia.
Qed.

Lemma peek_loop_stream (n : nat) (len : Z) (r r' : t) :
  wf r -> peek_loop n len r = (inr tt, r') -> stream r' = stream r.
Proof.
  revert r. induction n as [|n IH]; intros r Hwf H.
  - cbn [peek_loop] in H.
    destruct (buf_filled r <? len); [discriminate|].
    injection H as <-. reflexivity.
  - rewrite peek_loop_S in H.
    destruct (buf_filled r <? len).
    + apply bind_inr in H as ([] & r1 & Hp & H).
      pose proof (poll_data_stream _ _ Hwf Hp) as Hs.
      apply poll_data_inr in Hp as (_ & _ & _ & _ & _ & _ & Hwf1);
        [|assumption].
      rewrite <- Hs. apply IH; assumption.
    + injection H as <-. reflexivity.
Qed.

(** A [seek] inside the valid bytes drops that many bytes from the
    front of the stream. *)
Lemma seek_stream (length : Z) (r r' : t) :
  wf r -> 0 <= length <= buf_filled r ->
  seek length r = (inr tt, r') ->
  wf r' /\ stream r' = drop (Z.to_nat length) (stream r).
Proof.
  intros (Hp & Hf & Hle & Hcap) Hlen [= <-].
  assert (Hw : u64 (buf_filled r - length) = buf_filled r - length)
    by (apply u64_small; lia).
  split; [unfold wf; cbn; rewrite Hw; lia|].
  unfold stream, valid_bytes, peek_fuel. cbn. rewrite Hw.
  rewrite drop_app_le.
  - rewrite slice_drop by lia. reflexivity.
  - pose proof (zlen_slice (buf r) (bufp r) (buf_filled r) Hp Hf Hle) as Hz.
    unfold zlen in Hz. lia.
Qed.

End Stream.

(** ** Members read through a view *)

Lemma field_app (v more : list byte) (off w : Z) :
  0 <= off -> 0 <= w -> off + w <= zlen v ->
  field (v ++ more) off w = field v off w.
Proof.
  unfold field, slice, zlen. intros Hoff Hw Hle. f_equal.
  rewrite drop_app_le by lia.
  apply take_app_le. rewrite length_drop. lia.
Qed.

Lemma field_bound (v : list byte) (off w : Z) :
  0 <= w -> 0 <= field v off w < 2 ^ (8 * w).
Proof.
  intros Hw. unfold field.
  pose proof (le_val_bound (slice v off w)) as [H0 H1].
  split; [assumption|].
  eapply Z.lt_le_trans; [exact H1|].
  apply Z.pow_le_mono_r; [lia|].
  unfold zlen, slice. rewrite length_take. lia.
Qed.

Lemma zlen_valid_bytes (r : MetadataReader.t) :
  wf r -> zlen (MetadataReader.valid_bytes r) = MetadataReader.buf_filled r.
Proof.
  intros (Hp & Hf & Hle & _). apply zlen_slice; assumption.
Qed.

(** Inside the valid bytes a member read through the view at the cursor
    is the member of the record there. *)
Lemma load_field (r : MetadataReader.t) (off w : Z) :
  wf r -> 0 <= off -> 0 <= w -> off + w <= MetadataReader.buf_filled r ->
  MetadataReader.load (MetadataReader.bufp r) off w r
  = (inr (field (MetadataReader.valid_bytes r) off w), r).
Proof.
  intros (Hp & Hf & Hle & _) Hoff Hw Hin.
  unfold MetadataReader.load, MetadataReader.in_bounds.
  destruct (_ && _) eqn:Hb; [|lia].
  unfold field, MetadataReader.valid_bytes.
  rewrite slice_slice by lia. reflexivity.
Qed.

Lemma load_inr (p off w : Z) (r r' : MetadataReader.t) (v : Z) :
  MetadataReader.load p off w r = (inr v, r') ->
  r' = r /\ (0 <= w -> 0 <= v < 2 ^ (8 * w)).
Proof.
  unfold MetadataReader.load. destruct (MetadataReader.in_bounds _ _ _); [|discriminate].
  intros [= <- <-]. split; [reflexivity|]. intros Hw.
  apply (field_bound (MetadataReader.buf r) (p + off) w Hw).
Qed.

(** ** MetadataReader: peek and seek *)

Section ReaderProperties.
Context {L : Layout} {C : Compressor}.
Import MetadataReader.

(** A [peek] that returns keeps the invariant and the cursor: the
    bytes that were valid at the cursor are the first valid bytes
    afterwards, the stream to be consumed is the same, and the cursor
    is where it was or back at the origin of the buffer. *)
Lemma peek_keeps_cursor (length : Z) (r r' : t) (p : Z) :
  wf r ->
  peek length r = (inr p, r') ->
  wf r' /\
  (exists more : list byte, valid_bytes r' = valid_bytes r ++ more) /\
  stream r' = stream r /\
  bufp r' <= bufp r.
Proof.
  intros Hwf H. apply peek_inr in H as [-> H].
  pose proof (peek_loop_stream _ _ _ _ Hwf H) as Hs.
  apply peek_loop_wf in H as (Hwf' & Hmore & _ & Hbufp & _); [|assumption].
  auto.
Qed.

Lemma peek_filled (length : Z) (r r' : t) (p : Z) :
  peek length r = (inr p, r') -> length <= buf_filled r' /\ p = bufp r'.
Proof.
  intros H. apply peek_inr in H as [-> H].
  apply peek_loop_inr in H as [Hlen _]. auto.
Qed.

(** C8. After [peek length] returns, at least [length] valid bytes are
    buffered from the cursor on, and the cursor has not advanced: the
    view returned is the cursor, the stream to be consumed from it is
    the one before the call, the bytes that were valid at the cursor
    are the first valid bytes after it, and the cursor itself is where
    it was or back at the origin of the buffer.  The invariant of the
    reader is kept. *)
Theorem peek_guarantee (length : Z) (r r' : t) (p : Z) :
  wf r ->
  peek length r = (inr p, r') ->
  length <= buf_filled r' /\
  p = bufp r' /\
  stream r' = stream r /\
  (exists more : list byte, valid_bytes r' = valid_bytes r ++ more) /\
  bufp r' <= bufp r /\
  wf r'.
Proof.
  intros Hwf H.
  pose proof (peek_filled _ _ _ _ H) as [Hlen Hp].
  pose proof (peek_keeps_cursor _ _ _ _ Hwf H) as (Hwf' & Hmore & Hs & Hb).
  auto 10.
Qed.

(** C6. A [peek n] followed, with no [seek] in between, by a [peek n']
    for [n' <= n] bytes returns the same view of the same buffer: the
    second call pulls no block and moves nothing, so the leading [n']
    bytes of the two views are identical.  The block pulls and the
    compaction of the first call keep the bytes that were valid at
    the cursor. *)
Theorem peek_idempotent (n n' : Z) (r r1 : t) (p1 : Z) :
  n' <= n ->
  peek n r = (inr p1, r1) ->
  exists (p2 : Z) (r2 : t),
    peek n' r1 = (inr p2, r2) /\
    slice (buf r2) p2 n' = slice (buf r1) p1 n' /\
    r2 = r1 /\
    (wf r -> exists more : list byte,
               valid_bytes r1 = valid_bytes r ++ more).
Proof.
  intros Hle H. exists p1, r1.
  pose proof (peek_filled _ _ _ _ H) as [Hlen ->].
  split; [apply peek_buffered; lia|].
  split; [reflexivity|]. split; [reflexivity|].
  intros Hwf. apply (peek_keeps_cursor n r r1 (bufp r1) Hwf H).
Qed.

(** C9, amended. [seek] checks nothing: it always succeeds, moves the
    cursor by [length] and leaves [buf_filled - length] modulo 2^64 as
    the count of valid bytes.  When [length] exceeds [buf_filled] the
    count wraps to [buf_filled - length + 2^64], and every later
    [peek] for at most that many bytes returns at once. *)
Theorem seek_unchecked (length : Z) (r : t) :
  0 <= buf_filled r < 2 ^ 64 ->
  0 <= length < 2 ^ 64 ->
  buf_filled r < length ->
  exists r' : t,
    seek length r = (inr tt, r') /\
    bufp r' = bufp r + length /\
    buf_filled r' = buf_filled r - length + 2 ^ 64 /\
    forall n : Z, n <= buf_filled r - length + 2 ^ 64 ->
                  returns_at_once n r'.
Proof.
  intros Hf Hl Hlt. eexists. split; [reflexivity|]. cbn.
  assert (Hw : u64 (buf_filled r - length) = buf_filled r - length + 2 ^ 64).
  { unfold u64, wrap.
    rewrite <- (Z.mod_add _ 1) by lia. apply Z.mod_small. lia. }
  rewrite Hw. split; [reflexivity|]. split; [reflexivity|].
  intros n Hn. unfold returns_at_once. apply peek_buffered. cbn. lia.
Qed.

End ReaderProperties.

(** ** The size helpers *)

Section Helpers.
Context {L : Layout}.

(** C7. For a symlink or an extended symlink (the decoder views both
    through the structure [symlink]) and every value of the 32-bit
    member [symlink_size], [inode_size] is the size of the structure
    plus that value: the sum never wraps. *)
Theorem symlink_inode_size_exact (this : symlink.t) :
  0 <= sizeof_symlink < 2 ^ 32 ->
  0 <= symlink.symlink_size this < 2 ^ 32 ->
  symlink.inode_size this = sizeof_symlink + symlink.symlink_size this.
Proof.
  intros Hs Hv. unfold symlink.inode_size. apply u64_small. lia.
Qed.

(** With a fragment the block count is the file size shifted right,
    that is, divided by [2 ^ block_log] and rounded down. *)
Lemma block_count_fragment (this : reg.t) (block_size block_log : Z) :
  reg.fragment this <> invalid_frag ->
  0 <= block_log < 32 ->
  reg.block_count this block_size block_log
  = Some (Z.shiftr (reg.file_size this) block_log) /\
  Z.shiftr (reg.file_size this) block_log
  = reg.file_size this / 2 ^ block_log.
Proof.
  intros Hfrag Hlog. unfold reg.block_count.
  destruct (reg.fragment this =? invalid_frag) eqn:E; [lia|].
  destruct (block_log <? 32) eqn:E'; [|lia].
  split; [reflexivity|]. apply Z.shiftr_div_pow2. lia.
Qed.

(** Without a fragment the block count is the file size divided by the
    block size and rounded up, as long as the 32-bit sum
    [file_size + block_size - 1] does not wrap. *)
Lemma block_count_round_up (this : reg.t) (block_log : Z) :
  reg.fragment this = invalid_frag ->
  0 <= block_log < 32 ->
  0 <= reg.file_size this ->
  reg.file_size this + 2 ^ block_log - 1 < 2 ^ 32 ->
  reg.block_count this (2 ^ block_log) block_log
  = Some ((reg.file_size this + 2 ^ block_log - 1) / 2 ^ block_log).
Proof.
  intros Hfrag Hlog Hsize Hsum. unfold reg.block_count.
  destruct (reg.fragment this =? invalid_frag) eqn:E; [|lia].
  destruct (block_log <? 32) eqn:E'; [|lia].
  assert (Hpow : 0 < 2 ^ block_log) by (apply Z.pow_pos_nonneg; lia).
  rewrite (u32_small (2 ^ block_log - 1)) by lia.
  rewrite u32_small by lia.
  rewrite Z.shiftr_div_pow2 by lia.
  do 2 f_equal. lia.
Qed.

End Helpers.

(** C3. A regular file of 2^32 - 1 bytes without a fragment, in an image
    of 4096-byte blocks: the 32-bit sum [file_size + block_size - 1]
    wraps, and [block_count] returns 0 where the file size divided by
    the block size and rounded up is 1048576. *)
Theorem block_count_round_up_wraps :
  @reg.block_count squashfs4 (reg.mk 0xffffffff 0xffffffff) 4096 12 = Some 0 /\
  (0xffffffff + 4096 - 1) / 4096 = 1048576.
Proof. split; reflexivity. Qed.

(** C9 as first stated, with every later [peek] returning at once, fails:
    on a reader with nothing buffered [seek 2] leaves 2^64 - 2 as the
    count, and a [peek] for 2^64 - 1 bytes goes on to pull a block. *)
Lemma seek_wrap_then_peek_pulls :
  let r := @MetadataReader.init squashfs4 (tagged_image 7) (demo_sb 1) [] in
  let r' := snd (MetadataReader.seek 2 r) in
  MetadataReader.buf_filled r < 2 /\
  ~ @returns_at_once squashfs4 copy_backend (2 ^ 64 - 1) r'.
Proof.
  split; [reflexivity|].
  unfold returns_at_once. intros H.
  apply (f_equal fst) in H. vm_compute in H. discriminate.
Qed.

Lemma bind_run {S A B : Type} (m : M S A) (k : A -> M S B) (s s1 : S) (a : A) :
  m s = (inr a, s1) -> bind m k s = k a s1.
Proof. intros H. unfold bind. rewrite H. reflexivity. Qed.

Lemma bind_fail {S A B : Type} (m : M S A) (k : A -> M S B) (s s1 : S)
    (e : error) :
  m s = (inl e, s1) -> bind m k s = (inl e, s1).
Proof. intros H. unfold bind. rewrite H. reflexivity. Qed.

(** ** InodeReader *)

Lemma on_reader_run {A : Type} (m : M MetadataReader.t A)
    (st : InodeReader.t) (o : error + A) (r' : MetadataReader.t) :
  m (InodeReader.f st) = (o, r') ->
  InodeReader.on_reader m st = (o, with_reader st r').
Proof. intros H. unfold InodeReader.on_reader. rewrite H. reflexivity. Qed.

Lemma on_reader_with {A : Type} (m : M MetadataReader.t A)
    (st : InodeReader.t) (r : MetadataReader.t) (o : error + A)
    (r' : MetadataReader.t) :
  m r = (o, r') ->
  InodeReader.on_reader m (with_reader st r) = (o, with_reader st r').
Proof.
  intros H. unfold InodeReader.on_reader, with_reader. cbn. rewrite H.
  reflexivity.
Qed.

Lemma never_on_reader {A : Type} (e : error) (m : M MetadataReader.t A) :
  never e m -> never e (InodeReader.on_reader m).
Proof.
  intros Hm st. unfold InodeReader.on_reader. specialize (Hm (InodeReader.f st)).
  destruct (m (InodeReader.f st)) as [o r']. exact Hm.
Qed.

Section DecoderProperties.
Context {L : Layout} {C : Compressor}.
Import InodeReader.

(** C4. When the decoder may still read and the record at the cursor
    carries a type tag that is 0 or above [lsocket], [read] throws
    "Invalid inode type".  The call leaves the reader as the [peek] of
    the common header left it: no [seek] is performed, the stream to
    be consumed at the cursor is the one before the call, and the
    inode index is unchanged. *)
Theorem read_invalid_type (st : t) (r1 : MetadataReader.t) (p ty : Z) :
  (u32 (no_inodes st + 1) <=? inode_num st) = false ->
  MetadataReader.peek sizeof_base (f st) = (inr p, r1) ->
  inode_type_at p r1 = (inr ty, r1) ->
  ty = 0 \/ type.lsocket < ty ->
  exists st' : t,
    read st = (inl Invalid_inode_type, st') /\
    f st' = r1 /\
    inode_num st' = inode_num st /\
    (wf (f st) ->
     stream (f st') = stream (f st) /\
     exists more : list byte,
       MetadataReader.valid_bytes (f st')
       = MetadataReader.valid_bytes (f st) ++ more).
Proof.
  intros Hguard Hpeek Hty Hbad. exists (with_reader st r1).
  split; [|split; [reflexivity|split; [reflexivity|]]].
  - unfold read. rewrite (bind_run get _ st st st) by reflexivity.
    rewrite Hguard.
    rewrite (bind_run _ _ _ _ _ (on_reader_run _ _ _ _ Hpeek)).
    rewrite (bind_run _ _ _ _ _ (on_reader_with _ st _ _ _ Hty)).
    destruct ((ty =? 0) || (type.lsocket <? ty)) eqn:E; [reflexivity|lia].
  - intros Hwf. cbn.
    pose proof (peek_keeps_cursor sizeof_base (f st) r1 p Hwf Hpeek)
      as (_ & Hmore & Hs & _).
    auto.
Qed.

(** The decoder sizes a symlink and an extended symlink alike, through
    [symlink::inode_size]. *)
Lemma dynamic_size_symlink (p ty len bs bl : Z) :
  ty = type.symlink \/ ty = type.lsymlink ->
  dynamic_size p ty len bs bl
  = (do in2 <- symlink_at p; ret (symlink.inode_size in2)).
Proof. intros [-> | ->]; reflexivity. Qed.

Lemma dynamic_size_never (e : error) (p ty len bs bl : Z) :
  raised_by_poll_data e = false ->
  e <> Undefined_behaviour Shift_too_wide ->
  never e (dynamic_size p ty len bs bl).
Proof.
  intros He Hne. unfold dynamic_size, reg_at, symlink_at, lreg_at, i_count_at.
  assert (Hsh : forall v : option Z, never e (@shifted MetadataReader.t v)).
  { intros [v|]; [apply never_ret|apply never_throw, Hne]. }
  repeat match goal with
         | |- never _ (if ?b then _ else _) => destruct b
         | |- never _ (bind _ _) => apply never_bind; [|intros ?]
         | |- never _ (MetadataReader.load _ _ _) => apply never_load, He
         | |- never _ (ret _) => apply never_ret
         | |- never _ (shifted _) => apply Hsh
         end.
Qed.

Lemma scan_cond_never (e : error) (s : scan) :
  raised_by_poll_data e = false -> never e (scan_cond s).
Proof.
  intros He. unfold scan_cond, i_count_at.
  apply never_bind; [apply never_load, He|intros; apply never_ret].
Qed.

Lemma scan_body_never (e : error) (s : scan) :
  raised_by_poll_data e = false -> never e (scan_body s).
Proof.
  intros He. unfold scan_body.
  apply never_bind; [apply never_load, He|intros size].
  apply never_bind; [apply peek_never, He|intros; apply never_ret].
Qed.

Lemma scan_loop_never (e : error) (n : nat) (s : scan) :
  raised_by_poll_data e = false -> e <> Out_of_fuel ->
  never e (scan_loop n s).
Proof.
  intros He Hne. revert s. induction n as [|n IH]; intros s; cbn [scan_loop].
  - apply never_bind; [apply scan_cond_never, He|].
    intros [|]; [apply never_throw, Hne|apply never_ret].
  - apply never_bind; [apply scan_cond_never, He|].
    intros [|]; [|apply never_ret].
    apply never_bind; [apply scan_body_never, He|intros s'; apply IH].
Qed.

Lemma scan_loop_unfold (fuel : nat) (s : scan) :
  scan_loop fuel s =
  (do c <- scan_cond s;
   if c : bool
   then match fuel with
        | O => throw Out_of_fuel
        | S k => do s' <- scan_body s; scan_loop k s'
        end
   else ret s).
Proof. destruct fuel; reflexivity. Qed.

(** The loop over the directory indexes ends within its fuel: [i]
    counts up from 0 and [i_count] is below 2^16 whenever it is
    read. *)
Lemma scan_loop_total (fuel : nat) :
  forall (s : scan) (r : MetadataReader.t),
    0 <= sc_i s ->
    2 ^ 16 - 1 - sc_i s < Z.of_nat fuel ->
    fst (scan_loop fuel s r) <> inl Out_of_fuel.
Proof.
  induction fuel as [|fuel IH]; intros s r Hi Hfuel;
    rewrite scan_loop_unfold; unfold bind at 1;
    destruct (scan_cond s r) as [[e|c] r1] eqn:Hc.
  1,3: pose proof (scan_cond_never Out_of_fuel s eq_refl r) as Hn;
    rewrite Hc in Hn; cbn in *; intros [= ->]; apply Hn; reflexivity.
  all: unfold scan_cond, i_count_at in Hc;
    apply bind_inr in Hc as (k & r2 & Hld & Hc);
    apply load_inr in Hld as [-> Hk]; unfold sizeof_le16 in Hk;
    specialize (Hk ltac:(lia)); change (2 ^ (8 * 2)) with (2 ^ 16) in Hk;
    injection Hc as <- <-;
    destruct (sc_i s <? k) eqn:E; [|discriminate].
  - lia.
  - unfold bind.
    destruct (scan_body s r) as [[e|s'] r'] eqn:Hb.
    + pose proof (scan_body_never Out_of_fuel s eq_refl r) as Hn.
      rewrite Hb in Hn. exact Hn.
    + unfold scan_body in Hb.
      apply bind_inr in Hb as (size & r2 & _ & Hb).
      apply bind_inr in Hb as (p & r3 & _ & Hb).
      injection Hb as <- <-. apply IH; cbn [sc_i]; lia.
Qed.

(** [read] never runs out of the fuel of the embedding. *)
Lemma read_total : never Out_of_fuel read.
Proof.
  intros st. unfold read.
  rewrite (bind_run get _ st st st) by reflexivity.
  destruct (u32 (no_inodes st + 1) <=? inode_num st); [discriminate|].
  match goal with
  | |- fst (?m st) <> _ => enough (H : never Out_of_fuel m) by apply H
  end.
  assert (Hne : Out_of_fuel <> Undefined_behaviour Shift_too_wide)
    by discriminate.
  repeat match goal with
         | |- never _ (if ?b then _ else _) => destruct b
         | |- never _ (bind _ _) => apply never_bind; [|intros ?]
         | |- never _ (on_reader (scan_loop _ _)) =>
             apply never_on_reader; intros ?; apply scan_loop_total;
             [cbn [sc_i]; lia|cbn [sc_i]; unfold scan_fuel; lia]
         | |- never _ (on_reader _) => apply never_on_reader
         | |- never _ (MetadataReader.peek _) => apply peek_never; reflexivity
         | |- never _ (inode_type_at _) => apply never_load; reflexivity
         | |- never _ (dynamic_size _ _ _ _ _) =>
             apply dynamic_size_never; [reflexivity|exact Hne]
         | |- never _ (ret _) => apply never_ret
         | |- never _ (throw _) => apply never_throw; discriminate
         | |- never _ (initialised ?v) =>
             destruct v; [apply never_ret|apply never_throw; discriminate]
         | |- never _ (MetadataReader.seek _) => intros ?; discriminate
         | |- never _ incr_inode_num => intros ?; discriminate
         end.
Qed.

(** The guard of [read] lets a decoder through that has produced all
    the inodes the superblock declares. *)
Lemma read_guard_off_by_one (st : t) :
  inode_num st = no_inodes st ->
  0 <= no_inodes st < 2 ^ 32 - 1 ->
  fst (read st) <> inl Past_last_inode.
Proof.
  intros Hnum Hrange. unfold read.
  rewrite (bind_run get _ st st st) by reflexivity.
  rewrite u32_small by lia.
  destruct (no_inodes st + 1 <=? inode_num st) eqn:E; [lia|].
  match goal with
  | |- fst (?m st) <> _ => enough (H : never Past_last_inode m) by apply H
  end.
  assert (Hne : Past_last_inode <> Undefined_behaviour Shift_too_wide)
    by discriminate.
  assert (Hne' : Past_last_inode <> Out_of_fuel) by discriminate.
  repeat match goal with
         | |- never _ (if ?b then _ else _) => destruct b
         | |- never _ (bind _ _) => apply never_bind; [|intros ?]
         | |- never _ (on_reader _) => apply never_on_reader
         | |- never _ (MetadataReader.peek _) => apply peek_never; reflexivity
         | |- never _ (inode_type_at _) => apply never_load; reflexivity
         | |- never _ (dynamic_size _ _ _ _ _) =>
             apply dynamic_size_never; [reflexivity|exact Hne]
         | |- never _ (scan_loop _ _) =>
             apply scan_loop_never; [reflexivity|exact Hne']
         | |- never _ (ret _) => apply never_ret
         | |- never _ (throw _) => apply never_throw; discriminate
         | |- never _ (initialised ?v) =>
             destruct v; [apply never_ret|apply never_throw; discriminate]
         | |- never _ (MetadataReader.seek _) => intros ?; discriminate
         | |- never _ incr_inode_num => intros ?; discriminate
         end.
Qed.

(** The comment in [poll_data] is right about the cursor: once the
    cursor is past half of a buffer of twice the block size, the valid
    bytes fit in front of it, and moving them to the origin copies
    between disjoint regions. *)
Lemma shift_disjoint_past_half (r : MetadataReader.t) :
  wf r ->
  zlen (MetadataReader.buf r) <= 2 * metadata_size ->
  metadata_size < MetadataReader.bufp r ->
  MetadataReader.overlap 0 (MetadataReader.bufp r)
    (MetadataReader.buf_filled r) = false.
Proof.
  intros (Hp & Hf & Hle & _) Hcap Hpast. unfold MetadataReader.overlap. lia.
Qed.

End DecoderProperties.

(** C1. A table that declares one inode: after that inode has been read
    the inode index equals the declared count, and a further [read]
    does not throw "Trying to read past last inode"; it decodes the
    bytes stored after the table as one more inode and moves the index
    beyond the count.  Only the [read] after that one is refused. *)
Theorem read_past_declared_count :
  let read := @InodeReader.read squashfs4 copy_backend in
  let st := snd (read one_fifo_decoder) in
  InodeReader.inode_num st = InodeReader.no_inodes st /\
  fst (read st) = inr 20 /\
  InodeReader.inode_num (snd (read st)) = 2 /\
  fst (read (snd (read st))) = inl Past_last_inode.
Proof. vm_compute. repeat split. Qed.

(** C2. A table of four regular file inodes, none longer than a block,
    in full 8192-byte blocks.  Three of them are read; then 8100 valid
    bytes are buffered and the cursor is 100 bytes from the origin of
    the buffer, so it has not advanced past the block size.  The fourth
    record needs one more block; the block pull compacts all the same,
    because the write position is past the block size, and the copy has
    source and destination regions that overlap. *)
Theorem poll_data_shift_overlaps :
  let read := @InodeReader.read squashfs4 copy_backend in
  let st := snd (read (snd (read (snd (read four_reg_decoder))))) in
  let r := InodeReader.f st in
  InodeReader.inode_num st = 3 /\
  MetadataReader.bufp r = 100 /\
  MetadataReader.buf_filled r = 8100 /\
  MetadataReader.bufp r <= @metadata_size squashfs4 /\
  MetadataReader.overlap 0 (MetadataReader.bufp r)
    (MetadataReader.buf_filled r) = true /\
  fst (@MetadataReader.poll_data squashfs4 copy_backend r)
  = inl (Undefined_behaviour Memcpy_overlap) /\
  fst (read st) = inl (Undefined_behaviour Memcpy_overlap).
Proof. vm_compute. repeat split; discriminate. Qed.

Lemma load_shift (p a off w : Z) (r : MetadataReader.t) :
  MetadataReader.load (p + a) off w r = MetadataReader.load p (a + off) w r.
Proof. unfold MetadataReader.load. rewrite Z.add_assoc. reflexivity. Qed.

Section Toward.
Context {L : Layout} {C : Compressor}.
Import MetadataReader.

Lemma toward_start (len p : Z) (r r1 : t) :
  wf r -> peek len r = (inr p, r1) -> toward len r1 r /\ p = bufp r1.
Proof.
  intros Hwf H. pose proof (peek_inr _ _ _ _ H) as [-> _].
  split; [split; assumption|reflexivity].
Qed.

Lemma toward_step (len a : Z) (r r1 : t) :
  toward len r1 r -> a <= len ->
  exists r' : t,
    peek a r = (inr (bufp r'), r') /\ toward len r1 r' /\
    a <= buf_filled r'.
Proof.
  intros [Hwf H] Hle. rewrite (peek_compose a len) in H by assumption.
  apply bind_inr in H as (p & r' & Ha & H).
  pose proof (peek_filled _ _ _ _ Ha) as [Hlen ->].
  pose proof (peek_keeps_cursor _ _ _ _ Hwf Ha) as (Hwf' & _).
  exists r'. split; [assumption|]. split; [split; assumption|assumption].
Qed.

Lemma toward_extends (len : Z) (r r1 : t) :
  toward len r1 r ->
  wf r1 /\ len <= buf_filled r1 /\
  exists more : list byte, valid_bytes r1 = valid_bytes r ++ more.
Proof.
  intros [Hwf H].
  pose proof (peek_filled _ _ _ _ H) as [Hlen _].
  pose proof (peek_keeps_cursor _ _ _ _ Hwf H) as (Hwf' & Hmore & _).
  auto.
Qed.

Lemma toward_done (len : Z) (r r1 : t) :
  toward len r1 r -> len <= buf_filled r -> r1 = r.
Proof.
  intros [Hwf H] Hle. rewrite peek_buffered in H by assumption.
  injection H as _ <-. reflexivity.
Qed.

(** On the way to [r1] a member inside the valid bytes reads as it
    does in the record at [r1]. *)
Lemma toward_load (len : Z) (r r1 : t) (off w : Z) :
  toward len r1 r ->
  0 <= off -> 0 <= w -> off + w <= buf_filled r ->
  load (bufp r) off w r = (inr (field (valid_bytes r1) off w), r).
Proof.
  intros Ht Hoff Hw Hin. pose proof Ht as [Hwf _].
  apply toward_extends in Ht as (_ & _ & more & ->).
  rewrite load_field by assumption.
  rewrite field_app; [reflexivity|assumption..|].
  rewrite zlen_valid_bytes; assumption.
Qed.

End Toward.

Section Ldir.
Context {L : Layout} {C : Compressor} {F : LayoutFacts L}.
Import InodeReader.

Lemma names_length_nonneg (v : list byte) (off : Z) (sizes : list Z) :
  index_chain v off sizes -> 0 <= names_length sizes.
Proof.
  revert off. induction sizes as [|s sizes IH]; intros off H; [reflexivity|].
  destruct H as [Hs H]. cbn [names_length foldr].
  apply IH in H. fold (names_length sizes).
  pose proof (field_bound v (off + offsetof_index_size) sizeof_le32) as Hb.
  unfold sizeof_le32 in *. lia.
Qed.

Lemma ldir_length_split (sizes : list Z) :
  ldir_length sizes
  = sizeof_ldir + Z.of_nat (length sizes) * sizeof_dir_index + names_length sizes.
Proof.
  unfold ldir_length, names_length.
  induction sizes as [|s sizes IH]; [cbn; lia|].
  cbn [foldr length]. lia.
Qed.

Lemma scan_cond_toward (len : Z) (r r1 : MetadataReader.t) (s : scan) :
  toward len r1 r ->
  sc_ret s = MetadataReader.bufp r ->
  sizeof_ldir <= MetadataReader.buf_filled r ->
  scan_cond s r
  = (inr (sc_i s <? field (MetadataReader.valid_bytes r1)
                      offsetof_i_count sizeof_le16), r).
Proof.
  intros Ht Hret Hfill. pose proof i_count_in_ldir as Hf.
  unfold scan_cond, i_count_at. rewrite Hret.
  unfold sizeof_le16 in *.
  erewrite bind_run; [reflexivity|].
  apply (toward_load len); [assumption|lia..].
Qed.

Lemma scan_body_run (s : scan) (r r' : MetadataReader.t) (size p : Z) :
  MetadataReader.load (sc_ret s + sc_offset s) offsetof_index_size
    sizeof_le32 r = (inr size, r) ->
  MetadataReader.peek (u64 (sc_inode_len s + u32 (size + 1))) r
  = (inr p, r') ->
  scan_body s r
  = (inr (mk_scan (sc_i s + 1)
            (u64 (sc_offset s + u64 (u32 (size + 1) + sizeof_dir_index)))
            (u64 (sc_inode_len s + u32 (size + 1))) p), r').
Proof.
  intros Hld Hpeek. unfold scan_body.
  rewrite (bind_run _ _ _ _ _ Hld), (bind_run _ _ _ _ _ Hpeek). reflexivity.
Qed.

Lemma scan_loop_chain (r1 : MetadataReader.t) (len_total : Z)
    (sizes : list Z) :
  forall (fuel : nat) (i off len : Z) (r : MetadataReader.t),
    toward len_total r1 r ->
    len <= MetadataReader.buf_filled r ->
    (length sizes < fuel)%nat ->
    field (MetadataReader.valid_bytes r1) offsetof_i_count sizeof_le16
    = i + Z.of_nat (length sizes) ->
    sizeof_ldir <= off ->
    len - off = Z.of_nat (length sizes) * sizeof_dir_index ->
    len + names_length sizes = len_total ->
    index_chain (MetadataReader.valid_bytes r1) off sizes ->
    exists i' off' : Z,
      scan_loop fuel (mk_scan i off len (MetadataReader.bufp r)) r
      = (inr (mk_scan i' off' len_total (MetadataReader.bufp r1)), r1).
Proof.
  pose proof i_count_in_ldir as Hf3. pose proof size_in_dir_index as Hf4.
  pose proof sizes_small as Hf5. unfold sizeof_le16, sizeof_le32 in Hf3, Hf4.
  induction sizes as [|s sizes IH];
    intros fuel i off len r Ht Hfill Hfuel Hcount Hoff Hlen Htotal Hchain.
  - cbn in Htotal, Hlen, Hcount.
    assert (Hdone : len_total <= MetadataReader.buf_filled r) by lia.
    assert (Hlen' : len = len_total) by lia.
    pose proof (toward_done _ _ _ Ht Hdone) as ->.
    exists i, off. rewrite scan_loop_unfold.
    erewrite bind_run;
      [|apply (scan_cond_toward len_total _ r); [assumption|reflexivity|lia]].
    cbn [sc_i]. rewrite Hcount.
    assert (E : (i <? i + Z.of_nat 0) = false) by (apply Z.ltb_ge; lia).
    rewrite E, Hlen'. reflexivity.
  - cbn [length] in Hlen, Hcount, Hfuel. cbn [names_length foldr] in Htotal.
    fold (names_length sizes) in Htotal.
    assert (Hprod : 0 <= Z.of_nat (length sizes) * sizeof_dir_index) by nia.
    rewrite Nat2Z.inj_succ, Z.mul_succ_l in Hlen.
    destruct Hchain as [Hs Hchain].
    pose proof (names_length_nonneg _ _ _ Hchain) as Hnames.
    pose proof (field_bound (MetadataReader.valid_bytes r1)
                  (off + offsetof_index_size) sizeof_le32) as Hsb.
    unfold sizeof_le32 in Hsb, Hs. rewrite Hs in Hsb.
    specialize (Hsb ltac:(lia)). change (2 ^ (8 * 4)) with (2 ^ 32) in Hsb.
    pose proof (toward_extends _ _ _ Ht) as ((Hp1 & Hfil1 & Hcap1 & Hcap2) & Hl1 & _).
    pose proof Ht as [(Hp & Hfil & Hcap & _) _].
    destruct fuel as [|fuel]; [lia|].
    rewrite scan_loop_unfold.
    erewrite bind_run;
      [|apply (scan_cond_toward len_total r r1); [assumption|reflexivity|lia]].
    cbn [sc_i]. rewrite Hcount.
    assert (E : (i <? i + Z.of_nat (S (length sizes))) = true)
      by (apply Z.ltb_lt; lia).
    rewrite E.
    assert (Hld : MetadataReader.load (MetadataReader.bufp r + off)
                    offsetof_index_size sizeof_le32 r = (inr s, r)).
    { rewrite load_shift, <- Hs. unfold sizeof_le32.
      apply (toward_load len_total); [assumption|lia..]. }
    destruct (toward_step len_total (len + (s + 1)) r r1 Ht ltac:(lia))
      as (r' & Hpeek & Ht' & Hfill').
    erewrite bind_run.
    2:{ apply scan_body_run; cbn [sc_ret sc_offset sc_inode_len sc_i];
        [exact Hld|].
        rewrite (u32_small (s + 1)), u64_small by lia. exact Hpeek. }
    cbn [sc_ret sc_offset sc_inode_len sc_i].
    rewrite (u32_small (s + 1)) by lia.
    rewrite (u64_small (s + 1 + sizeof_dir_index)) by lia.
    rewrite !u64_small by lia.
    apply IH; try assumption; try lia.
    replace (off + (s + 1 + sizeof_dir_index))
      with (off + sizeof_dir_index + (s + 1)) by lia.
    assumption.
Qed.

Lemma inode_type_toward (len : Z) (r r1 : MetadataReader.t) :
  toward len r1 r ->
  sizeof_base <= MetadataReader.buf_filled r ->
  inode_type_at (MetadataReader.bufp r) r
  = (inr (field (MetadataReader.valid_bytes r1)
            offsetof_inode_type sizeof_le16), r).
Proof.
  intros Ht Hfill. pose proof inode_type_in_base as Hf.
  unfold inode_type_at. unfold sizeof_le16 in *.
  apply (toward_load len); [assumption|lia..].
Qed.

Lemma i_count_toward (len : Z) (r r1 : MetadataReader.t) :
  toward len r1 r ->
  sizeof_ldir <= MetadataReader.buf_filled r ->
  i_count_at (MetadataReader.bufp r) r
  = (inr (field (MetadataReader.valid_bytes r1)
            offsetof_i_count sizeof_le16), r).
Proof.
  intros Ht Hfill. pose proof i_count_in_ldir as Hf.
  unfold i_count_at. unfold sizeof_le16 in *.
  apply (toward_load len); [assumption|lia..].
Qed.

(** An extended directory inode with directory indexes of sizes
    [sizes] at the cursor, all of which the reader can supply (so
    that every size is below 2^32 - 1): [read] returns the view of it
    and advances
    the reader, by one [seek], by the size of the structure [ldir]
    plus, for every index, the size of the structure [dir_index] plus
    the [size + 1] bytes of its name; that many bytes are gone from
    the front of the stream.  For three indexes of sizes 0, 1 and 200
    the length is [sizeof_ldir + 3 * sizeof_dir_index + 1 + 2 + 201]. *)
Theorem read_ldir_length (st : t) (r1 : MetadataReader.t) (p : Z)
    (sizes : list Z) :
  wf (f st) ->
  (u32 (no_inodes st + 1) <=? inode_num st) = false ->
  MetadataReader.peek (ldir_length sizes) (f st) = (inr p, r1) ->
  field (MetadataReader.valid_bytes r1) offsetof_inode_type sizeof_le16
  = type.ldir ->
  field (MetadataReader.valid_bytes r1) offsetof_i_count sizeof_le16
  = Z.of_nat (length sizes) ->
  index_chain (MetadataReader.valid_bytes r1) sizeof_ldir sizes ->
  exists st' : t,
    read st = (inr p, st') /\
    MetadataReader.seek (ldir_length sizes) r1 = (inr tt, f st') /\
    stream (f st') = drop (Z.to_nat (ldir_length sizes)) (stream (f st)) /\
    inode_num st' = u32 (inode_num st + 1) /\
    ldir_length [0; 1; 200]
    = sizeof_ldir + 3 * sizeof_dir_index + 1 + 2 + 201.
Proof.
  intros Hwf Hguard Hpeek Hty Hcount Hchain.
  exists (mk (snd (MetadataReader.seek (ldir_length sizes) r1))
            (u32 (inode_num st + 1)) (no_inodes st)
            (block_size st) (block_log st)).
  cbn [f inode_num].
  pose proof inode_type_in_base as Hf1. pose proof base_in_ldir as Hf2.
  pose proof i_count_in_ldir as Hf3. pose proof size_in_dir_index as Hf4.
  pose proof sizes_small as Hf5.
  unfold sizeof_le16, sizeof_le32 in Hf1, Hf3, Hf4.
  pose proof (names_length_nonneg _ _ _ Hchain) as Hnames.
  pose proof (ldir_length_split sizes) as Hsplit.
  pose proof (field_bound (MetadataReader.valid_bytes r1) offsetof_i_count
                sizeof_le16 ltac:(unfold sizeof_le16; lia)) as Hk.
  rewrite Hcount in Hk. change (2 ^ (8 * sizeof_le16)) with (2 ^ 16) in Hk.
  assert (Hprod : 0 <= Z.of_nat (length sizes) * sizeof_dir_index) by nia.
  assert (Hprod' : Z.of_nat (length sizes) * sizeof_dir_index < 2 ^ 48) by nia.
  split; [|split; [reflexivity|split; [|split; [reflexivity|]]]].
  3:{ unfold ldir_length; cbn [foldr]; lia. }
  2:{ pose proof (peek_filled _ _ _ _ Hpeek) as [Hfill _].
      pose proof (peek_keeps_cursor _ _ _ _ Hwf Hpeek) as (Hwf1 & _ & <- & _).
      apply (seek_stream (ldir_length sizes) r1); [assumption|lia|reflexivity]. }
  apply toward_start in Hpeek as [Ht ->]; [|assumption].
  remember (ldir_length sizes) as len_total eqn:Hlt.
  unfold read. rewrite (bind_run get _ st st st) by reflexivity.
  rewrite Hguard.
  assert (Hle1 : sizeof_base <= len_total) by lia.
  assert (Hle2 : sizeof_ldir <= len_total) by lia.
  assert (Hle3 : sizeof_ldir + Z.of_nat (length sizes) * sizeof_dir_index
                 <= len_total) by lia.
  (* the common header *)
  destruct (toward_step len_total sizeof_base _ r1 Ht Hle1)
    as (ra & Hpa & Hta & Hfa).
  rewrite (bind_run _ _ _ _ _ (on_reader_run _ _ _ _ Hpa)).
  rewrite (bind_run _ _ _ _ _
             (on_reader_with _ st _ _ _ (inode_type_toward _ _ _ Hta Hfa))).
  rewrite Hty.
  change ((type.ldir =? 0) || (type.lsocket <? type.ldir)) with false.
  change (fixed_size type.ldir) with (Some sizeof_ldir).
  cbv iota.
  rewrite (bind_run (initialised _) _ _ (with_reader st ra) sizeof_ldir)
    by reflexivity.
  (* the structure *)
  destruct (toward_step len_total sizeof_ldir _ r1 Hta Hle2)
    as (rb & Hpb & Htb & Hfb).
  rewrite (bind_run _ _ _ _ _ (on_reader_with _ st _ _ _ Hpb)).
  rewrite (bind_run _ _ _ _ _
             (on_reader_with _ st _ _ _
                (inode_type_toward _ _ _ Htb ltac:(lia)))).
  rewrite Hty.
  (* the structure and the directory index structures *)
  assert (Hdyn : dynamic_size (MetadataReader.bufp rb) type.ldir sizeof_ldir
                   (block_size st) (block_log st) rb
                 = (inr (sizeof_ldir
                         + Z.of_nat (length sizes) * sizeof_dir_index), rb)).
  { change (dynamic_size (MetadataReader.bufp rb) type.ldir sizeof_ldir
              (block_size st) (block_log st))
      with (do i_count <- i_count_at (MetadataReader.bufp rb);
            ret (u64 (sizeof_ldir + u64 (i_count * sizeof_dir_index)))).
    rewrite (bind_run _ _ _ _ _ (i_count_toward _ _ _ Htb Hfb)).
    rewrite Hcount.
    rewrite (u64_small (_ * _)) by lia. rewrite u64_small by lia.
    reflexivity. }
  rewrite (bind_run _ _ _ _ _ (on_reader_with _ st _ _ _ Hdyn)).
  destruct (toward_step len_total
              (sizeof_ldir + Z.of_nat (length sizes) * sizeof_dir_index)
              _ r1 Htb Hle3)
    as (rc & Hpc & Htc & Hfc).
  rewrite (bind_run _ _ _ _ _ (on_reader_with _ st _ _ _ Hpc)).
  rewrite (bind_run _ _ _ _ _
             (on_reader_with _ st _ _ _
                (inode_type_toward _ _ _ Htc ltac:(lia)))).
  rewrite Hty. change (type.ldir =? type.ldir) with true. cbv iota.
  (* the directory indexes *)
  destruct (scan_loop_chain r1 len_total sizes scan_fuel 0 sizeof_ldir
              (sizeof_ldir + Z.of_nat (length sizes) * sizeof_dir_index) rc)
    as (i' & off' & Hscan); try assumption; try lia.
  { unfold scan_fuel. lia. }
  rewrite (bind_run _ _ _ _ _ (on_reader_with _ st _ _ _ Hscan)).
  reflexivity.
Qed.

End Ldir.


Section ScanInvariant.
Context {L : Layout} {C : Compressor} {F : LayoutFacts L}.
Import InodeReader.

Lemma scan_cond_inv (k : Z) (s : scan) (r : MetadataReader.t) :
  scan_inv k s r ->
  scan_cond s r = (inr (sc_i s <? k), r).
Proof.
  intros (Hwf & Hret & Hfill & Hi & Hoff & Hlen & Hk).
  pose proof i_count_in_ldir as Hf3. pose proof size_in_dir_index as Hf4.
  unfold sizeof_le16, sizeof_le32 in *.
  assert (0 <= (k - sc_i s) * sizeof_dir_index) by nia.
  unfold scan_cond, i_count_at. rewrite Hret. unfold sizeof_le16.
  erewrite bind_run; [|apply load_field; [assumption|lia..]].
  rewrite Hk. reflexivity.
Qed.

Lemma scan_inv_step (k : Z) (s s' : scan) (r r' : MetadataReader.t) :
  scan_inv k s r ->
  sc_i s < k ->
  scan_body s r = (inr s', r') ->
  scan_inv k s' r'.
Proof.
  intros (Hwf & Hret & Hfill & Hi & Hoff & Hlen & Hk) Hlt Hbody.
  pose proof i_count_in_ldir as Hf3. pose proof size_in_dir_index as Hf4.
  pose proof sizes_small as Hf5.
  unfold sizeof_le16, sizeof_le32 in *.
  pose proof Hwf as (Hp & Hfil & Hcap & Hcap').
  assert (Hrest : sizeof_dir_index <= (k - sc_i s) * sizeof_dir_index) by nia.
  unfold scan_body in Hbody.
  apply bind_inr in Hbody as (size & r0 & Hld & Hbody).
  apply load_inr in Hld as [-> Hsize].
  unfold sizeof_le32 in Hsize. specialize (Hsize ltac:(lia)).
  change (2 ^ (8 * 4)) with (2 ^ 32) in Hsize.
  apply bind_inr in Hbody as (p' & r1 & Hpeek & Hbody).
  injection Hbody as <- <-.
  assert (Hd : 0 <= u32 (size + 1) < 2 ^ 32)
    by (unfold u32, wrap; apply Z.mod_pos_bound; lia).
  rewrite (u64_small (sc_inode_len s + _)) in * by lia.
  rewrite (u64_small (u32 (size + 1) + sizeof_dir_index)) by lia.
  rewrite (u64_small (sc_offset s + _)) by lia.
  pose proof (peek_filled _ _ _ _ Hpeek) as [Hfill' ->].
  pose proof (peek_keeps_cursor _ _ _ _ Hwf Hpeek)
    as (Hwf' & (more & Hmore) & _).
  unfold scan_inv. cbn [sc_i sc_offset sc_inode_len sc_ret].
  split; [assumption|]. split; [reflexivity|]. split; [assumption|].
  split; [lia|]. split; [lia|]. split; [lia|]. unfold sizeof_le16.
  rewrite Hmore, field_app; [assumption|lia..|].
  rewrite zlen_valid_bytes by assumption. lia.
Qed.

Lemma scan_inv_at (k : Z) (n : nat) :
  forall (s s' : scan) (r r' : MetadataReader.t),
    scan_inv k s r ->
    scan_at n s r = Some (s', r') ->
    scan_inv k s' r'.
Proof.
  induction n as [|n IH]; intros s s' r r' Hinv Hat.
  - injection Hat as <- <-. assumption.
  - cbn [scan_at] in Hat. rewrite (scan_cond_inv k s r Hinv) in Hat.
    destruct (sc_i s <? k) eqn:E; [|discriminate].
    destruct (scan_body s r) as [[e|s1] r1] eqn:Hbody; [discriminate|].
    apply (IH s1 s' r1 r'); [|assumption].
    apply (scan_inv_step k s s1 r r1); [assumption|lia|assumption].
Qed.

(** C10. In [read], once an extended directory has been peeked with
    room for the structures of its directory indexes, every round of
    the loop over them starts with [offset + sizeof(dir_index)] within
    [inode_len] and [inode_len] within the bytes the last [peek]
    buffered; so the [size] member the round reads lies inside those
    bytes, and reading it succeeds. *)
Theorem scan_size_within_peek (rb r0 r : MetadataReader.t)
    (block_size block_log inode_len p : Z) (n : nat) (s : scan) :
  wf rb ->
  sizeof_ldir <= MetadataReader.buf_filled rb ->
  dynamic_size (MetadataReader.bufp rb) type.ldir sizeof_ldir
    block_size block_log rb = (inr inode_len, rb) ->
  MetadataReader.peek inode_len rb = (inr p, r0) ->
  scan_at n (mk_scan 0 sizeof_ldir inode_len p) r0 = Some (s, r) ->
  scan_cond s r = (inr true, r) ->
  sc_offset s + sizeof_dir_index <= sc_inode_len s /\
  sc_inode_len s <= MetadataReader.buf_filled r /\
  sc_ret s = MetadataReader.bufp r /\
  sc_offset s + offsetof_index_size + sizeof_le32
    <= MetadataReader.buf_filled r /\
  MetadataReader.load (sc_ret s + sc_offset s) offsetof_index_size
    sizeof_le32 r
  = (inr (field (MetadataReader.valid_bytes r)
            (sc_offset s + offsetof_index_size) sizeof_le32), r).
Proof.
  intros Hwf Hfill Hdyn Hpeek Hat Hcond.
  pose proof i_count_in_ldir as Hf3. pose proof size_in_dir_index as Hf4.
  pose proof sizes_small as Hf5.
  unfold sizeof_le16, sizeof_le32 in Hf3, Hf4.
  set (k := field (MetadataReader.valid_bytes rb) offsetof_i_count sizeof_le16).
  pose proof (field_bound (MetadataReader.valid_bytes rb) offsetof_i_count
                sizeof_le16 ltac:(unfold sizeof_le16; lia)) as Hk.
  fold k in Hk. change (2 ^ (8 * sizeof_le16)) with (2 ^ 16) in Hk.
  assert (Hprod : 0 <= k * sizeof_dir_index < 2 ^ 48) by nia.
  (* the entry of the loop *)
  assert (Hlen0 : inode_len = sizeof_ldir + k * sizeof_dir_index).
  { change (dynamic_size (MetadataReader.bufp rb) type.ldir sizeof_ldir
              block_size block_log)
      with (do i_count <- i_count_at (MetadataReader.bufp rb);
            ret (u64 (sizeof_ldir + u64 (i_count * sizeof_dir_index))))
      in Hdyn.
    unfold i_count_at in Hdyn.
    erewrite bind_run in Hdyn;
      [|apply load_field; [assumption|unfold sizeof_le16; lia..]].
    fold k in Hdyn. injection Hdyn as <-.
    rewrite (u64_small (_ * _)) by lia. apply u64_small. lia. }
  pose proof (peek_filled _ _ _ _ Hpeek) as [Hfill0 ->].
  pose proof (peek_keeps_cursor _ _ _ _ Hwf Hpeek)
    as (Hwf0 & (more & Hmore) & _).
  assert (Hentry : scan_inv k (mk_scan 0 sizeof_ldir inode_len
                                 (MetadataReader.bufp r0)) r0).
  { unfold scan_inv. cbn [sc_i sc_offset sc_inode_len sc_ret].
    split; [assumption|]. split; [reflexivity|]. split; [assumption|].
    split; [lia|]. split; [lia|]. split; [lia|].
    rewrite Hmore, field_app; [reflexivity|unfold sizeof_le16; lia..|].
    rewrite zlen_valid_bytes by assumption. unfold sizeof_le16. lia. }
  (* the start of round [n] *)
  pose proof (scan_inv_at k n _ _ _ _ Hentry Hat) as Hinv.
  rewrite (scan_cond_inv k s r Hinv) in Hcond.
  injection Hcond as Hlt. apply Z.ltb_lt in Hlt.
  destruct Hinv as (Hwfr & Hret & Hfillr & Hi & Hoff & Hlen & _).
  assert (Hrest : sizeof_dir_index <= (k - sc_i s) * sizeof_dir_index) by nia.
  split; [lia|]. split; [assumption|]. split; [assumption|].
  unfold sizeof_le32. split; [lia|].
  rewrite Hret, load_shift. apply load_field; [assumption|lia..].
Qed.

End ScanInvariant.

(** ** The invariant along a run of the decoder *)

Lemma on_reader_inv {A : Type} (m : M MetadataReader.t A)
    (st st' : InodeReader.t) (o : error + A) :
  InodeReader.on_reader m st = (o, st') ->
  exists r' : MetadataReader.t,
    m (InodeReader.f st) = (o, r') /\ st' = with_reader st r'.
Proof.
  unfold InodeReader.on_reader.
  destruct (m (InodeReader.f st)) as [o' r']. intros [= <- <-]. eauto.
Qed.

Lemma u64_range (x : Z) : 0 <= u64 x < 2 ^ 64.
Proof. unfold u64, wrap. apply Z.mod_pos_bound. lia. Qed.

Section Run.
Context {L : Layout} {C : Compressor} {F : LayoutFacts L}.
Import InodeReader.

Lemma init_wf (new_file : MMAPFile.t) (sb : super_block)
    (garbage : list byte) :
  wf (MetadataReader.init new_file sb garbage).
Proof.
  pose proof buf_small as Hb.
  unfold wf, MetadataReader.init, zlen. cbn.
  rewrite length_take, length_app, length_replicate. lia.
Qed.

Lemma fixed_size_nonneg (ty n : Z) : fixed_size ty = Some n -> 0 <= n.
Proof.
  pose proof sizes_nonneg as Hs. pose proof i_count_in_ldir as Hl.
  unfold sizeof_le16 in Hl. unfold fixed_size.
  repeat match goal with
         | |- context [if ?b then _ else _] => destruct b
         end; intros [= <-]; lia.
Qed.

Lemma dynamic_size_inr (p ty len bs bl v : Z) (r r' : MetadataReader.t) :
  0 <= len ->
  dynamic_size p ty len bs bl r = (inr v, r') -> r' = r /\ 0 <= v.
Proof.
  intros Hlen. unfold dynamic_size, reg_at, symlink_at, lreg_at, i_count_at,
    reg.inode_size, lreg.inode_size, symlink.inode_size, shifted.
  repeat match goal with
         | |- context [if ?b then _ else _] => destruct b
         end; intros H;
    repeat match goal with
           | H : bind _ _ _ = (inr _, _) |- _ =>
               apply bind_inr in H as (? & ? & ? & H)
           | H : MetadataReader.load _ _ _ _ = (inr _, _) |- _ =>
               apply load_inr in H as [-> _]
           | H : ret _ _ = (inr _, _) |- _ => injection H as <- <-
           | H : context [match ?x with _ => _ end] |- _ =>
               destruct x eqn:?
           | H : throw _ _ = (inr _, _) |- _ => discriminate H
           | H : Some _ = Some _ |- _ => injection H as <-
           | H : None = Some _ |- _ => discriminate H
           end;
    split; try reflexivity; try apply u64_range; try lia.
Qed.

(** A successful run of the loop over the directory indexes keeps the
    invariant of the reader and the stream, and ends with [inode_len]
    bytes buffered. *)
Lemma scan_loop_inr (fuel : nat) :
  forall (s s' : scan) (r r' : MetadataReader.t),
    wf r ->
    0 <= sc_inode_len s <= MetadataReader.buf_filled r ->
    scan_loop fuel s r = (inr s', r') ->
    wf r' /\ stream r' = stream r /\
    0 <= sc_inode_len s' <= MetadataReader.buf_filled r'.
Proof.
  induction fuel as [|fuel IH]; intros s s' r r' Hwf Hlen H;
    rewrite scan_loop_unfold in H;
    apply bind_inr in H as (c & r1 & Hc & H);
    unfold scan_cond, i_count_at in Hc;
    apply bind_inr in Hc as (k & r2 & Hld & Hc);
    apply load_inr in Hld as [-> _]; injection Hc as <- <-;
    destruct (sc_i s <? k).
  - discriminate.
  - injection H as <- <-. auto.
  - apply bind_inr in H as (s1 & r1 & Hb & H).
    unfold scan_body in Hb.
    apply bind_inr in Hb as (size & r2 & Hld & Hb).
    apply load_inr in Hld as [-> _].
    apply bind_inr in Hb as (p & r3 & Hpeek & Hb).
    injection Hb as <- <-.
    pose proof (peek_filled _ _ _ _ Hpeek) as [Hfill _].
    pose proof (peek_keeps_cursor _ _ _ _ Hwf Hpeek) as (Hwf1 & _ & Hs & _).
    apply IH in H as (Hwf' & Hs' & Hlen'); [|assumption|].
    + rewrite Hs' , Hs. auto.
    + cbn [sc_inode_len]. pose proof (u64_range (sc_inode_len s + u32 (size + 1))).
      lia.
  - injection H as <- <-. auto.
Qed.

(** A [read] that returns has consumed the record at the cursor, and
    nothing else: [inode_len] bytes are gone from the front of the
    stream, the invariant of the reader holds again, and the inode
    index has gone up by one. *)
Lemma read_keeps_invariant (st st' : t) (p : Z) :
  wf (f st) ->
  read st = (inr p, st') ->
  exists inode_len : Z,
    0 <= inode_len /\
    stream (f st') = drop (Z.to_nat inode_len) (stream (f st)) /\
    wf (f st') /\
    inode_num st' = u32 (inode_num st + 1) /\
    no_inodes st' = no_inodes st.
Proof.
  intros Hwf H. unfold read in H.
  rewrite (bind_run get _ st st st) in H by reflexivity.
  destruct (u32 (no_inodes st + 1) <=? inode_num st); [discriminate|].
  apply bind_inr in H as (p0 & st1 & Hp0 & H).
  apply on_reader_inv in Hp0 as (ra & Hp0 & ->).
  pose proof (peek_keeps_cursor _ _ _ _ Hwf Hp0) as (Hwfa & _ & Hsa & _).
  apply bind_inr in H as (ty & st1 & Hty & H).
  apply on_reader_inv in Hty as (ra' & Hty & ->).
  apply load_inr in Hty as [-> _]. cbn [f with_reader] in *.
  destruct ((ty =? 0) || (type.lsocket <? ty)); [discriminate|].
  apply bind_inr in H as (len1 & st1 & Hinit & H).
  destruct (fixed_size ty) as [n|] eqn:Hfix; [|discriminate].
  injection Hinit as <- <-. apply fixed_size_nonneg in Hfix.
  apply bind_inr in H as (p1 & st1 & Hp1 & H).
  apply on_reader_inv in Hp1 as (rb & Hp1 & ->). cbn [f with_reader] in *.
  pose proof (peek_keeps_cursor _ _ _ _ Hwfa Hp1) as (Hwfb & _ & Hsb & _).
  apply bind_inr in H as (ty1 & st1 & Hty & H).
  apply on_reader_inv in Hty as (rb' & Hty & ->).
  apply load_inr in Hty as [-> _]. cbn [f with_reader] in *.
  apply bind_inr in H as (len2 & st1 & Hdyn & H).
  apply on_reader_inv in Hdyn as (rb' & Hdyn & ->). cbn [f with_reader] in *.
  apply dynamic_size_inr in Hdyn as [-> Hlen2]; [|assumption].
  apply bind_inr in H as (p2 & st1 & Hp2 & H).
  apply on_reader_inv in Hp2 as (rc & Hp2 & ->). cbn [f with_reader] in *.
  pose proof (peek_filled _ _ _ _ Hp2) as [Hfillc _].
  pose proof (peek_keeps_cursor _ _ _ _ Hwfb Hp2) as (Hwfc & _ & Hsc & _).
  apply bind_inr in H as (ty2 & st1 & Hty & H).
  apply on_reader_inv in Hty as (rc' & Hty & ->).
  apply load_inr in Hty as [-> _]. cbn [f with_reader] in *.
  apply bind_inr in H as (s & st1 & Hscan & H).
  assert (Hs : exists rd : MetadataReader.t,
             st1 = with_reader st rd /\ wf rd /\ stream rd = stream rc /\
             0 <= sc_inode_len s <= MetadataReader.buf_filled rd).
  { destruct (ty2 =? type.ldir).
    - apply on_reader_inv in Hscan as (rd & Hscan & ->).
      cbn [f with_reader] in *. exists rd. split; [reflexivity|].
      apply (scan_loop_inr _ _ _ _ _ Hwfc) in Hscan; [assumption|].
      cbn [sc_inode_len]. lia.
    - injection Hscan as <- <-. exists rc. cbn [sc_inode_len]. auto. }
  destruct Hs as (rd & -> & Hwfd & Hsd & Hlen).
  apply bind_inr in H as ([] & st1 & Hseek & H).
  apply on_reader_inv in Hseek as (re & Hseek & ->). cbn [f with_reader] in *.
  apply seek_stream in Hseek as [Hwfe Hse]; [|assumption..].
  apply bind_inr in H as ([] & st1 & Hincr & H).
  injection Hincr as <-. injection H as <- <-. cbn.
  exists (sc_inode_len s). split; [lia|].
  rewrite Hse, Hsd, Hsc, Hsb, Hsa. auto.
Qed.

End Run.

(** ** The statements at concrete inputs *)

Lemma squashfs4_facts : LayoutFacts squashfs4.
Proof. constructor; vm_compute; repeat split; discriminate. Qed.

Section AtSquashfs4.
#[local] Existing Instance squashfs4.
#[local] Existing Instance copy_backend.
#[local] Existing Instance squashfs4_facts.

Ltac closed := vm_compute; repeat split; try discriminate.

Lemma peek_guarantee_witness :
  let r := InodeReader.f ldir_decoder in
  let r' := snd (MetadataReader.peek 16 r) in
  wf r /\
  MetadataReader.peek 16 r = (inr 0, r') /\
  16 <= MetadataReader.buf_filled r' /\
  0 = MetadataReader.bufp r' /\
  stream r' = stream r /\
  (exists more : list byte,
     MetadataReader.valid_bytes r' = MetadataReader.valid_bytes r ++ more) /\
  MetadataReader.bufp r' <= MetadataReader.bufp r /\
  wf r'.
Proof.
  intros r r'.
  assert (Hwf : wf r) by (repeat split; closed).
  assert (Hpeek : MetadataReader.peek 16 r = (inr 0, r')) by closed.
  split; [exact Hwf|]. split; [exact Hpeek|].
  exact (peek_guarantee 16 r r' 0 Hwf Hpeek).
Defined.

Lemma peek_idempotent_witness :
  let r := InodeReader.f ldir_decoder in
  let r1 := snd (MetadataReader.peek 40 r) in
  16 <= 40 /\
  MetadataReader.peek 40 r = (inr 0, r1) /\
  exists (p2 : Z) (r2 : MetadataReader.t),
    MetadataReader.peek 16 r1 = (inr p2, r2) /\
    slice (MetadataReader.buf r2) p2 16 = slice (MetadataReader.buf r1) 0 16 /\
    r2 = r1 /\
    (wf r -> exists more : list byte,
               MetadataReader.valid_bytes r1
               = MetadataReader.valid_bytes r ++ more).
Proof.
  intros r r1.
  assert (Hle : 16 <= 40) by lia.
  assert (Hpeek : MetadataReader.peek 40 r = (inr 0, r1)) by closed.
  split; [exact Hle|]. split; [exact Hpeek|].
  exact (peek_idempotent 40 16 r r1 0 Hle Hpeek).
Defined.

Lemma seek_unchecked_witness :
  let r := InodeReader.f ldir_decoder in
  0 <= MetadataReader.buf_filled r < 2 ^ 64 /\
  0 <= 2 < 2 ^ 64 /\
  MetadataReader.buf_filled r < 2 /\
  exists r' : MetadataReader.t,
    MetadataReader.seek 2 r = (inr tt, r') /\
    MetadataReader.bufp r' = MetadataReader.bufp r + 2 /\
    MetadataReader.buf_filled r'
    = MetadataReader.buf_filled r - 2 + 2 ^ 64 /\
    forall n : Z, n <= MetadataReader.buf_filled r - 2 + 2 ^ 64 ->
                  returns_at_once n r'.
Proof.
  intros r.
  assert (H1 : 0 <= MetadataReader.buf_filled r < 2 ^ 64) by closed.
  assert (H2 : 0 <= 2 < 2 ^ 64) by lia.
  assert (H3 : MetadataReader.buf_filled r < 2) by closed.
  split; [exact H1|]. split; [exact H2|]. split; [exact H3|].
  exact (seek_unchecked 2 r H1 H2 H3).
Defined.

Lemma symlink_inode_size_exact_witness :
  0 <= sizeof_symlink < 2 ^ 32 /\
  0 <= symlink.symlink_size (symlink.mk 65535) < 2 ^ 32 /\
  symlink.inode_size (symlink.mk 65535)
  = sizeof_symlink + symlink.symlink_size (symlink.mk 65535).
Proof.
  assert (H1 : 0 <= sizeof_symlink < 2 ^ 32) by closed.
  assert (H2 : 0 <= symlink.symlink_size (symlink.mk 65535) < 2 ^ 32)
    by closed.
  split; [exact H1|]. split; [exact H2|].
  exact (symlink_inode_size_exact (symlink.mk 65535) H1 H2).
Defined.

Lemma read_invalid_type_witness :
  let st := tagged_decoder 15 in
  let r1 := snd (MetadataReader.peek sizeof_base (InodeReader.f st)) in
  (u32 (InodeReader.no_inodes st + 1) <=? InodeReader.inode_num st) = false /\
  MetadataReader.peek sizeof_base (InodeReader.f st) = (inr 0, r1) /\
  InodeReader.inode_type_at 0 r1 = (inr 15, r1) /\
  (15 = 0 \/ type.lsocket < 15) /\
  exists st' : InodeReader.t,
    InodeReader.read st = (inl Invalid_inode_type, st') /\
    InodeReader.f st' = r1 /\
    InodeReader.inode_num st' = InodeReader.inode_num st /\
    (wf (InodeReader.f st) ->
     stream (InodeReader.f st') = stream (InodeReader.f st) /\
     exists more : list byte,
       MetadataReader.valid_bytes (InodeReader.f st')
       = MetadataReader.valid_bytes (InodeReader.f st) ++ more).
Proof.
  intros st r1.
  assert (H1 : (u32 (InodeReader.no_inodes st + 1)
                <=? InodeReader.inode_num st) = false) by closed.
  assert (H2 : MetadataReader.peek sizeof_base (InodeReader.f st)
               = (inr 0, r1)) by closed.
  assert (H3 : InodeReader.inode_type_at 0 r1 = (inr 15, r1)) by closed.
  assert (H4 : 15 = 0 \/ type.lsocket < 15) by (right; closed).
  split; [exact H1|]. split; [exact H2|]. split; [exact H3|].
  split; [exact H4|].
  exact (read_invalid_type st r1 0 15 H1 H2 H3 H4).
Defined.

Lemma read_ldir_length_witness :
  let st := ldir_decoder in
  let sizes := [0; 1; 200] in
  let r1 := snd (MetadataReader.peek (ldir_length sizes) (InodeReader.f st)) in
  wf (InodeReader.f st) /\
  (u32 (InodeReader.no_inodes st + 1) <=? InodeReader.inode_num st) = false /\
  MetadataReader.peek (ldir_length sizes) (InodeReader.f st) = (inr 0, r1) /\
  field (MetadataReader.valid_bytes r1) offsetof_inode_type sizeof_le16
  = type.ldir /\
  field (MetadataReader.valid_bytes r1) offsetof_i_count sizeof_le16
  = Z.of_nat (length sizes) /\
  index_chain (MetadataReader.valid_bytes r1) sizeof_ldir sizes /\
  exists st' : InodeReader.t,
    InodeReader.read st = (inr 0, st') /\
    MetadataReader.seek (ldir_length sizes) r1 = (inr tt, InodeReader.f st') /\
    stream (InodeReader.f st')
    = drop (Z.to_nat (ldir_length sizes)) (stream (InodeReader.f st)) /\
    InodeReader.inode_num st' = u32 (InodeReader.inode_num st + 1) /\
    ldir_length [0; 1; 200]
    = sizeof_ldir + 3 * sizeof_dir_index + 1 + 2 + 201.
Proof.
  intros st sizes r1.
  assert (H1 : wf (InodeReader.f st)) by closed.
  assert (H2 : (u32 (InodeReader.no_inodes st + 1)
                <=? InodeReader.inode_num st) = false) by closed.
  assert (H3 : MetadataReader.peek (ldir_length sizes) (InodeReader.f st)
               = (inr 0, r1)) by closed.
  assert (H4 : field (MetadataReader.valid_bytes r1) offsetof_inode_type
                 sizeof_le16 = type.ldir) by closed.
  assert (H5 : field (MetadataReader.valid_bytes r1) offsetof_i_count
                 sizeof_le16 = Z.of_nat (length sizes)) by closed.
  assert (H6 : index_chain (MetadataReader.valid_bytes r1) sizeof_ldir sizes)
    by closed.
  split; [exact H1|]. split; [exact H2|]. split; [exact H3|].
  split; [exact H4|]. split; [exact H5|]. split; [exact H6|].
  exact (read_ldir_length st r1 0 sizes H1 H2 H3 H4 H5 H6).
Defined.

Lemma scan_size_within_peek_witness :
  let rb := snd (MetadataReader.peek sizeof_ldir (InodeReader.f ldir_decoder)) in
  let r0 := snd (MetadataReader.peek 76 rb) in
  exists (s : InodeReader.scan) (r : MetadataReader.t),
    wf rb /\
    sizeof_ldir <= MetadataReader.buf_filled rb /\
    InodeReader.dynamic_size (MetadataReader.bufp rb) type.ldir sizeof_ldir
      4096 12 rb = (inr 76, rb) /\
    MetadataReader.peek 76 rb = (inr 0, r0) /\
    scan_at 2 (InodeReader.mk_scan 0 sizeof_ldir 76 0) r0 = Some (s, r) /\
    InodeReader.scan_cond s r = (inr true, r) /\
    InodeReader.sc_offset s + sizeof_dir_index <= InodeReader.sc_inode_len s /\
    InodeReader.sc_inode_len s <= MetadataReader.buf_filled r /\
    InodeReader.sc_ret s = MetadataReader.bufp r /\
    InodeReader.sc_offset s + offsetof_index_size + sizeof_le32
      <= MetadataReader.buf_filled r /\
    MetadataReader.load (InodeReader.sc_ret s + InodeReader.sc_offset s)
      offsetof_index_size sizeof_le32 r
    = (inr (field (MetadataReader.valid_bytes r)
              (InodeReader.sc_offset s + offsetof_index_size) sizeof_le32), r).
Proof.
  intros rb r0.
  exists (InodeReader.mk_scan 2 67 79 0), r0.
  assert (H1 : wf rb) by closed.
  assert (H2 : sizeof_ldir <= MetadataReader.buf_filled rb) by closed.
  assert (H3 : InodeReader.dynamic_size (MetadataReader.bufp rb) type.ldir
                 sizeof_ldir 4096 12 rb = (inr 76, rb)) by closed.
  assert (H4 : MetadataReader.peek 76 rb = (inr 0, r0)) by closed.
  assert (H5 : scan_at 2 (InodeReader.mk_scan 0 sizeof_ldir 76 0) r0
               = Some (InodeReader.mk_scan 2 67 79 0, r0)) by closed.
  assert (H6 : InodeReader.scan_cond (InodeReader.mk_scan 2 67 79 0) r0
               = (inr true, r0)) by closed.
  split; [exact H1|]. split; [exact H2|]. split; [exact H3|].
  split; [exact H4|]. split; [exact H5|]. split; [exact H6|].
  exact (scan_size_within_peek rb r0 r0 4096 12 76 0 2
           (InodeReader.mk_scan 2 67 79 0) H1 H2 H3 H4 H5 H6).
Defined.

End AtSquashfs4.

(** * Further properties of the reader *)

(** ** Runs that fail *)

Lemma bind_inl {S A B : Type} (m : M S A) (k : A -> M S B) (s s' : S)
    (e : error) :
  bind m k s = (inl e, s') ->
  m s = (inl e, s') \/
  exists (a : A) (s1 : S), m s = (inr a, s1) /\ k a s1 = (inl e, s').
Proof.
  unfold bind. destruct (m s) as [[e0 | a] s1]; intros H.
  - left. injection H as <- <-. reflexivity.
  - right. exists a, s1. split; [reflexivity | exact H].
Qed.

Lemma read_le16_inl (f0 f1 : MMAPFile.t) (e : error) :
  MMAPFile.read_le16 f0 = (inl e, f1) -> e = Eof /\ f1 = f0.
Proof.
  unfold MMAPFile.read_le16. intros H.
  apply bind_inl in H as [H | (bs & f2 & _ & H)].
  - exact (read_array_inl _ _ _ _ H).
  - discriminate H.
Qed.

Lemma read_le16_short (f0 : MMAPFile.t) :
  MMAPFile.remaining f0 < 2 -> MMAPFile.read_le16 f0 = (inl Eof, f0).
Proof.
  unfold MMAPFile.remaining, MMAPFile.read_le16, MMAPFile.read_array, bind.
  unfold sizeof_le16. intros H.
  destruct (_ && _) eqn:E; [|reflexivity].
  apply andb_prop in E as [_ E]. lia.
Qed.

Section ReaderFailures.
Context {L : Layout} {C : Compressor}.
Import MetadataReader.

Lemma store_inl (dst : Z) (bs : list byte) (r r' : t) (e : error) :
  store dst bs r = (inl e, r') ->
  r' = r /\ e = Undefined_behaviour Out_of_bounds /\
  in_bounds r dst (zlen bs) = false.
Proof.
  unfold store. destruct (in_bounds _ _ _); intros [= <- <-]; auto.
Qed.

Lemma memcpy_inl (dst src n : Z) (r r' : t) (e : error) :
  memcpy dst src n r = (inl e, r') ->
  r' = r /\
  (in_bounds r src n && in_bounds r dst n = false \/
   overlap dst src n = true).
Proof.
  unfold memcpy. destruct (in_bounds r src n && in_bounds r dst n) eqn:Eb.
  - cbn [negb]. destruct (overlap dst src n) eqn:Eo.
    + intros [= <- <-]. auto.
    + intros H. apply store_inl in H as (-> & -> & H).
      apply andb_prop in Eb as [Es Ed]. unfold in_bounds in Es.
      rewrite zlen_slice in H by lia. congruence.
  - cbn [negb]. intros [= <- <-]. auto.
Qed.

(** A pull that fails leaves the valid bytes as they were; the cursor
    may have been moved to the origin with them. *)
Lemma poll_data_inl (r r' : t) (e : error) :
  wf r ->
  poll_data r = (inl e, r') ->
  wf r' /\
  valid_bytes r' = valid_bytes r /\
  buf_filled r' = buf_filled r /\
  (bufp r' = bufp r \/ bufp r' = 0) /\
  MMAPFile.remaining (f r') <= MMAPFile.remaining (f r).
Proof.
  intros Hwf H. pose proof Hwf as (Hp & Hf & Hle & Hcap).
  unfold poll_data in H.
  apply bind_inl in H as [H | (len & r0 & Hlen & H)].
  { apply on_file_inv in H as (f' & H & ->).
    apply read_le16_inl in H as (_ & ->).
    unfold wf, valid_bytes; cbn. repeat split; auto; lia. }
  apply on_file_inv in Hlen as (f0 & Hlen & ->).
  apply read_le16_inr in Hlen as (Hpos & Hroom & Hf0 & Hv).
  assert (Hrem : MMAPFile.remaining f0 <= MMAPFile.remaining (f r))
    by (rewrite Hf0; unfold MMAPFile.remaining; cbn; lia).
  apply bind_inl in H as [H | (r0 & r0' & Hget & H)]; [discriminate H|].
  injection Hget as <- <-. cbn [bufp buf_filled] in H.
  assert (Hwf0 : wf (mk f0 (buf r) (bufp r) (buf_filled r)))
    by (repeat split; assumption).
  apply bind_inl in H as [H | (writep & r1 & Hshift & H)].
  { destruct (metadata_size <? _) in H; [|discriminate H].
    apply bind_inl in H as [H | ([] & r2 & _ & H)]; [|discriminate H].
    apply memcpy_inl in H as (-> & _).
    unfold wf, valid_bytes; cbn. repeat split; auto; lia. }
  apply (shift_inr (mk f0 (buf r) (bufp r) (buf_filled r))) in Hshift
    as (Hv1 & Hfill & Hbufp & Hlenb & Hf1 & ->); [|exact Hwf0].
  cbn [bufp buf_filled buf f] in *. unfold valid_bytes in Hv1. cbn in Hv1.
  fold (valid_bytes r1) in Hv1. fold (valid_bytes r) in Hv1.
  assert (Hwf1 : wf r1) by (unfold wf; lia).
  assert (Hkeep : forall (f2 : MMAPFile.t),
    MMAPFile.remaining f2 <= MMAPFile.remaining f0 ->
    let r2 := mk f2 (buf r1) (bufp r1) (buf_filled r1) in
    wf r2 /\ valid_bytes r2 = valid_bytes r /\
    buf_filled r2 = buf_filled r /\ (bufp r2 = bufp r \/ bufp r2 = 0) /\
    MMAPFile.remaining (f r2) <= MMAPFile.remaining (f r)).
  { intros f2 Hf2 r2. unfold r2, wf, valid_bytes in *. cbn.
    repeat split; auto; lia. }
  assert (Hbody : forall (n : Z) (k : list byte -> M t unit),
    (forall (src : list byte) (r2 r3 : t) (e' : error),
       k src r2 = (inl e', r3) -> r3 = r2) ->
    (do src <- on_file (MMAPFile.read_array n); k src) r1 = (inl e, r') ->
    exists f2 : MMAPFile.t,
      MMAPFile.remaining f2 <= MMAPFile.remaining f0 /\
      r' = mk f2 (buf r1) (bufp r1) (buf_filled r1)).
  { intros n k Hk Hb.
    apply bind_inl in Hb as [Hb | (src & r2 & Hsrc & Hb)].
    - apply on_file_inv in Hb as (f2 & Hb & ->).
      apply read_array_inl in Hb as (_ & ->).
      exists (f r1). split; [rewrite Hf1; lia | reflexivity].
    - apply on_file_inv in Hsrc as (f2 & Hsrc & ->).
      apply read_array_inr in Hsrc as (_ & Hn & _ & _ & ->).
      apply Hk in Hb as ->.
      eexists. split; [|reflexivity].
      rewrite Hf1. unfold MMAPFile.remaining. cbn. lia. }
  destruct (negb _) in H.
  - apply Hbody in H as (f2 & Hf2 & ->); [exact (Hkeep f2 Hf2)|].
    intros src r2 r3 e' Hk.
    apply bind_inl in Hk as [Hk | ([] & r4 & _ & Hk)]; [|discriminate Hk].
    apply store_inl in Hk as (-> & _). reflexivity.
  - apply Hbody in H as (f2 & Hf2 & ->); [exact (Hkeep f2 Hf2)|].
    intros src r2 r3 e' Hk.
    apply bind_inl in Hk as [Hk | (out & r4 & Hout & Hk)].
    + unfold run_decompress in Hk.
      destruct (decompress _ _); [discriminate Hk|].
      injection Hk as _ <-. reflexivity.
    + unfold run_decompress in Hout.
      destruct (decompress _ _); [|discriminate Hout].
      injection Hout as _ <-.
      apply bind_inl in Hk as [Hk | ([] & r5 & _ & Hk)]; [|discriminate Hk].
      apply store_inl in Hk as (-> & _). reflexivity.
Qed.

(** The loop of [peek], whatever its outcome: the reader keeps its
    invariant and the bytes that were valid, and the file only moves
    forward. *)
Lemma peek_loop_any (n : nat) (len : Z) :
  forall (r r' : t) (o : error + unit),
    wf r ->
    peek_loop n len r = (o, r') ->
    wf r' /\
    (exists more : list byte, valid_bytes r' = valid_bytes r ++ more) /\
    bufp r' <= bufp r /\
    MMAPFile.remaining (f r') <= MMAPFile.remaining (f r).
Proof.
  induction n as [|n IH]; intros r r' o Hwf H; cbn in H.
  - destruct (buf_filled r <? len); injection H as <- <-;
      (split; [exact Hwf|]); (split; [exists []; symmetry; apply app_nil_r|]);
      lia.
  - destruct (buf_filled r <? len).
    + unfold bind in H. destruct (poll_data r) as [[e | []] r1] eqn:Hpoll.
      * injection H as <- <-.
        apply poll_data_inl in Hpoll as (Hwf1 & Hv & _ & Hb & Hrem);
          [|exact Hwf].
        split; [exact Hwf1|].
        split; [exists []; rewrite Hv; symmetry; apply app_nil_r|].
        destruct Hwf as (Hp & _). lia.
      * pose proof Hpoll as Hc. apply poll_data_consumes in Hc.
        apply poll_data_inr in Hpoll
          as (blk & _ & Hv & _ & Hb & _ & Hwf1); [|exact Hwf].
        apply IH in H as (Hwf' & (more & Hv') & Hb' & Hrem'); [|exact Hwf1].
        split; [exact Hwf'|].
        split; [exists (blk ++ more); rewrite Hv', Hv; symmetry;
                apply app_assoc|].
        destruct Hwf as (Hp & _). lia.
    + injection H as <- <-.
      split; [exact Hwf|]. split; [exists []; symmetry; apply app_nil_r|].
      lia.
Qed.

(** The loop fails only while bytes are missing. *)
Lemma peek_loop_inl_short (n : nat) (len : Z) :
  forall (r r' : t) (e : error),
    peek_loop n len r = (inl e, r') -> buf_filled r' < len.
Proof.
  induction n as [|n IH]; intros r r' e H; cbn in H.
  - destruct (buf_filled r <? len) eqn:E; [|discriminate H].
    injection H as _ <-. lia.
  - destruct (buf_filled r <? len) eqn:E; [|discriminate H].
    apply bind_inl in H as [H | ([] & r1 & Hpoll & H)].
    + unfold poll_data in H.
      assert (Hsame : buf_filled r' = buf_filled r); [|lia].
      clear IH E.
      apply bind_inl in H as [H | (v & r0 & Hlen & H)].
      { apply on_file_inv in H as (f' & _ & ->). reflexivity. }
      apply on_file_inv in Hlen as (f0 & _ & ->).
      apply bind_inl in H as [H | (r0 & r0' & Hget & H)]; [discriminate H|].
      injection Hget as <- <-. cbn [bufp buf_filled] in H.
      assert (Hshift : forall (w : error + Z) (r1 : t),
        (if metadata_size <? bufp r + buf_filled r - 0
         then do _ <- memcpy 0 (bufp r) (buf_filled r);
              do _ <- set_bufp 0;
              ret (0 + buf_filled r)
         else ret (bufp r + buf_filled r))
          (mk f0 (buf r) (bufp r) (buf_filled r)) = (w, r1) ->
        buf_filled r1 = buf_filled r).
      { intros w r1 Hs. destruct (metadata_size <? _) in Hs.
        - unfold bind, memcpy, store in Hs.
          repeat (destruct (_ : bool) in Hs; cbn in Hs);
            injection Hs as _ <-; reflexivity.
        - injection Hs as _ <-. reflexivity. }
      apply bind_inl in H as [H | (writep & r1 & Hs & H)];
        [exact (Hshift _ _ H)|].
      apply Hshift in Hs. rewrite <- Hs. clear Hs Hshift.
      assert (Hstore : forall (dst : Z) (bs : list byte) (r2 r3 : t)
                         (w : error + unit),
        store dst bs r2 = (w, r3) -> buf_filled r3 = buf_filled r2).
      { intros dst bs r2 r3 w Hst. unfold store in Hst.
        destruct (in_bounds _ _ _); injection Hst as _ <-; reflexivity. }
      destruct (negb _) in H.
      * apply bind_inl in H as [H | (src & r2 & Hsrc & H)].
        { apply on_file_inv in H as (f2 & _ & ->). reflexivity. }
        apply on_file_inv in Hsrc as (f2 & _ & ->).
        apply bind_inl in H as [H | ([] & r3 & _ & H)]; [|discriminate H].
        exact (Hstore _ _ _ _ _ H).
      * apply bind_inl in H as [H | (src & r2 & Hsrc & H)].
        { apply on_file_inv in H as (f2 & _ & ->). reflexivity. }
        apply on_file_inv in Hsrc as (f2 & _ & ->).
        apply bind_inl in H as [H | (out & r3 & Hout & H)].
        { unfold run_decompress in H. destruct (decompress _ _);
            [discriminate H|]. injection H as _ <-. reflexivity. }
        unfold run_decompress in Hout. destruct (decompress _ _);
          [|discriminate Hout]. injection Hout as _ <-.
        apply bind_inl in H as [H | ([] & r4 & _ & H)]; [|discriminate H].
        exact (Hstore _ _ _ _ _ H).
    + exact (IH _ _ _ H).
Qed.

Lemma peek_any (len : Z) (r r' : t) (o : error + Z) :
  wf r ->
  peek len r = (o, r') ->
  wf r' /\
  (exists more : list byte, valid_bytes r' = valid_bytes r ++ more) /\
  bufp r' <= bufp r /\
  MMAPFile.remaining (f r') <= MMAPFile.remaining (f r).
Proof.
  intros Hwf H. unfold peek, bind in H.
  destruct (peek_loop (peek_fuel r) len r) as [[e | []] r1] eqn:Hloop.
  - injection H as _ <-. exact (peek_loop_any _ _ _ _ _ Hwf Hloop).
  - cbn in H. injection H as _ <-.
    exact (peek_loop_any _ _ _ _ _ Hwf Hloop).
Qed.

End ReaderFailures.

(** ** What the reader does and never does *)

Section ReaderFurther.
Context {L : Layout} {C : Compressor}.
Import MetadataReader.

(** X1. Requests compose: a peek for [a] bytes followed by a peek for
    [b >= a] bytes is the peek for [b] bytes, with the same view, the
    same reader afterwards and the same error when the file cannot
    supply the bytes. *)
Theorem peek_then_peek (a b : Z) (r : t) :
  a <= b -> (do _ <- peek a; peek b) r = peek b r.
Proof. intros Hab. symmetry. exact (peek_compose a b r Hab). Qed.

(** X2. The loop of [peek] ends on every reader and for every
    request: each pull that returns has taken at least the two bytes
    of a block header from the file, and the file is finite. *)
Theorem peek_halts (len : Z) (r : t) :
  fst (peek len r) <> inl Out_of_fuel /\
  (forall r' : t,
     poll_data r = (inr tt, r') ->
     0 <= MMAPFile.remaining (f r') /\
     MMAPFile.remaining (f r') + 2 <= MMAPFile.remaining (f r)).
Proof.
  split; [exact (peek_total len r)|].
  intros r' H. exact (poll_data_consumes r r' H).
Qed.

(** X3. Seeks add up: [seek a] then [seek b] leaves the reader that
    [seek (a + b)] leaves, for all lengths, the count of valid bytes
    being kept modulo 2^64 in both. *)
Theorem seek_seek (a b : Z) (r : t) :
  (do _ <- seek a; seek b) r = seek (a + b) r.
Proof.
  unfold seek, bind. cbn. f_equal. f_equal; [lia|].
  unfold u64, wrap. rewrite Zminus_mod_idemp_l. f_equal. lia.
Qed.

(** X4. A seek inside the valid bytes drops exactly [n] bytes at the
    cursor: the valid bytes and the stream lose their first [n]
    bytes, the count goes down by [n] without wrapping, the buffer and
    the file are not touched and the invariant is kept. *)
Theorem seek_within_valid (n : Z) (r r' : t) :
  wf r -> 0 <= n <= buf_filled r ->
  seek n r = (inr tt, r') ->
  wf r' /\
  valid_bytes r' = drop (Z.to_nat n) (valid_bytes r) /\
  stream r' = drop (Z.to_nat n) (stream r) /\
  buf_filled r' = buf_filled r - n /\
  bufp r' = bufp r + n /\
  buf r' = buf r /\ f r' = f r.
Proof.
  intros Hwf Hn H.
  destruct (seek_stream n r r' Hwf Hn H) as (Hwf' & Hs).
  destruct Hwf as (Hp & Hf & Hle & Hcap).
  injection H as <-. cbn [bufp buf_filled buf f].
  assert (Hu : u64 (buf_filled r - n) = buf_filled r - n)
    by (apply u64_small; lia).
  split; [exact Hwf'|]. split.
  { unfold valid_bytes. cbn [bufp buf_filled buf]. rewrite Hu.
    symmetry. apply slice_drop; lia. }
  split; [exact Hs|]. split; [exact Hu|]. auto.
Qed.

(** X5. A pull that returns has taken exactly one stored block from
    the file and appended its content, copied or decompressed, after
    the valid bytes: nothing of them is lost or reordered, the stream
    at the cursor is the same, and the invariant is kept. *)
Theorem poll_data_appends_block (r r' : t) :
  wf r ->
  poll_data r = (inr tt, r') ->
  exists blk : list byte,
    next_block (f r) = Some (blk, f r') /\
    valid_bytes r' = valid_bytes r ++ blk /\
    buf_filled r' = buf_filled r + zlen blk /\
    stream r' = stream r /\
    wf r'.
Proof.
  intros Hwf H.
  pose proof (poll_data_stream r r' Hwf H) as Hs.
  destruct (poll_data_inr r r' Hwf H) as (blk & Hn & Hv & Hf & _ & _ & Hwf').
  exists blk. auto.
Qed.

(** X6. At the end of the file, or with a single byte left of it, a
    peek for more than the valid bytes throws the end-of-file error
    and leaves the reader as it was. *)
Theorem peek_at_end_of_file (len : Z) (r : t) :
  buf_filled r < len ->
  MMAPFile.remaining (f r) < 2 ->
  peek len r = (inl Eof, r).
Proof.
  intros Hlen Hrem. unfold peek, bind, peek_fuel. cbn [peek_loop].
  assert (E : (buf_filled r <? len) = true) by (apply Z.ltb_lt; lia).
  rewrite E. unfold poll_data, bind, on_file.
  rewrite (read_le16_short (f r) Hrem). destruct r; reflexivity.
Qed.

(** X7. A peek fails in one of four ways only: the file ends, the
    backend rejects a block, or the pull writes past the buffer or
    copies between overlapping regions. *)
Theorem peek_error_kinds (len : Z) (r r' : t) (e : error) :
  peek len r = (inl e, r') ->
  e = Eof \/ e = Decompress_error \/
  e = Undefined_behaviour Out_of_bounds \/
  e = Undefined_behaviour Memcpy_overlap.
Proof.
  intros H.
  destruct (raised_by_poll_data e) eqn:E.
  - destruct e;
      repeat match goal with u : undefined |- _ => destruct u end;
      try discriminate E; auto.
  - exfalso. apply (peek_never e len E r). rewrite H. reflexivity.
Qed.

(** X8. A peek that throws has lost nothing: the bytes that were
    valid at the cursor are still valid there, with the blocks pulled
    before the failure after them, and the invariant holds, so that
    views handed out before stay readable through the new cursor. *)
Theorem peek_failure_keeps_bytes (len : Z) (r r' : t) (e : error) :
  wf r ->
  thrown e = true ->
  peek len r = (inl e, r') ->
  wf r' /\
  (exists more : list byte, valid_bytes r' = valid_bytes r ++ more) /\
  bufp r' <= bufp r /\
  buf_filled r' < len.
Proof.
  intros Hwf _ H.
  destruct (peek_any len r r' (inl e) Hwf H) as (Hwf' & Hv & Hb & _).
  split; [exact Hwf'|]. split; [exact Hv|]. split; [exact Hb|].
  unfold peek, bind in H.
  destruct (peek_loop (peek_fuel r) len r) as [[e1 | []] r1] eqn:Hloop;
    [|discriminate H].
  injection H as _ <-.
  exact (peek_loop_inl_short _ _ _ _ _ Hloop).
Qed.

(** X9. When a pull is free of undefined behaviour: the buffer has
    twice the block size, the backend and an uncompressed block supply
    at most a block of bytes, and either the valid bytes end in the
    first half of the buffer (no compaction) or they are not longer
    than the gap before them (the compaction copies between disjoint
    regions).  Then the pull neither writes past the buffer nor calls
    [memcpy] on overlapping regions. *)
Theorem poll_data_safe (r : t) :
  wf r ->
  zlen (buf r) = 2 * metadata_size ->
  (bufp r + buf_filled r <= metadata_size \/ buf_filled r <= bufp r) ->
  (forall (src out : list byte),
     decompress src metadata_size = Some out -> zlen out <= metadata_size) ->
  (forall (length : Z) (f1 : MMAPFile.t),
     MMAPFile.read_le16 (f r) = (inr length, f1) ->
     Z.land length uncompressed <> 0 ->
     u16 (Z.land length (Z.lnot uncompressed)) <= metadata_size) ->
  forall u : undefined, fst (poll_data r) <> inl (Undefined_behaviour u).
Proof.
  intros Hwf Hcap2 Hpos Hback Hraw u Hfst.
  pose proof Hwf as (Hp & Hf & Hle & Hcap).
  destruct (poll_data r) as [[e | []] r'] eqn:H; [|discriminate Hfst].
  cbn in Hfst. injection Hfst as ->.
  unfold poll_data in H.
  apply bind_inl in H as [H | (len & r0 & Hlen & H)].
  { apply on_file_inv in H as (f' & H & _).
    apply read_le16_inl in H as (H & _). discriminate H. }
  apply on_file_inv in Hlen as (f0 & Hlen & ->).
  specialize (Hraw len f0 Hlen).
  apply bind_inl in H as [H | (r0 & r0' & Hget & H)]; [discriminate H|].
  injection Hget as <- <-. cbn [bufp buf_filled] in H.
  assert (Hwf0 : wf (mk f0 (buf r) (bufp r) (buf_filled r)))
    by (repeat split; assumption).
  apply bind_inl in H as [H | (writep & r1 & Hshift & H)].
  { destruct (metadata_size <? _) eqn:E in H; [|discriminate H].
    apply bind_inl in H as [H | ([] & r2 & _ & H)]; [|discriminate H].
    apply memcpy_inl in H as (_ & [H | H]).
    - unfold in_bounds in H. cbn [buf] in H. lia.
    - unfold overlap in H. lia. }
  assert (Hroom : writep + metadata_size <= zlen (buf r1) /\ 0 <= writep).
  { destruct (metadata_size <? _) eqn:E in Hshift.
    - apply bind_inr in Hshift as ([] & r2 & Hm & Hshift).
      apply memcpy_inr in Hm as (_ & _ & _ & _ & _ & _ & ->).
      cbv [bind set_bufp ret] in Hshift. cbn in Hshift.
      injection Hshift as <- <-. cbn [buf].
      pose proof (zlen_slice (buf r) (bufp r) (buf_filled r) Hp Hf Hle)
        as Hn.
      rewrite zlen_splice by lia.
      lia.
    - injection Hshift as <- <-. cbn [buf]. lia. }
  clear Hshift.
  assert (Hstore : forall (bs : list byte) (r2 r3 : t) (e' : error),
    zlen bs <= metadata_size -> buf r2 = buf r1 ->
    store writep bs r2 = (inl e', r3) -> False).
  { intros bs r2 r3 e' Hbs Hb Hst.
    apply store_inl in Hst as (_ & _ & Hst).
    unfold in_bounds in Hst. rewrite Hb in Hst.
    pose proof (zlen_nonneg bs). lia. }
  destruct (negb _) eqn:Eflag in H.
  - apply bind_inl in H as [H | (src & r2 & Hsrc & H)].
    { apply on_file_inv in H as (f2 & H & _).
      apply read_array_inl in H as (H & _). discriminate H. }
    apply on_file_inv in Hsrc as (f2 & Hsrc & ->).
    apply read_array_zlen in Hsrc.
    apply bind_inl in H as [H | ([] & r3 & _ & H)]; [|discriminate H].
    apply Hstore in H; [exact H | | reflexivity].
    rewrite Hsrc. apply Hraw.
    apply negb_true_iff in Eflag. lia.
  - apply bind_inl in H as [H | (src & r2 & Hsrc & H)].
    { apply on_file_inv in H as (f2 & H & _).
      apply read_array_inl in H as (H & _). discriminate H. }
    apply on_file_inv in Hsrc as (f2 & Hsrc & ->).
    apply bind_inl in H as [H | (out & r3 & Hout & H)].
    { unfold run_decompress in H. destruct (decompress _ _);
        discriminate H. }
    unfold run_decompress in Hout.
    destruct (decompress _ _) as [out'|] eqn:Ed; [|discriminate Hout].
    injection Hout as <- <-.
    apply bind_inl in H as [H | ([] & r4 & _ & H)]; [|discriminate H].
    apply Hstore in H; [exact H | | reflexivity].
    exact (Hback _ _ Ed).
Qed.

End ReaderFurther.

Section ReaderAtSquashfs4.
#[local] Existing Instance squashfs4.
#[local] Existing Instance copy_backend.

Ltac closed := vm_compute; repeat split; try discriminate.

Lemma peek_then_peek_witness :
  let r := InodeReader.f ldir_decoder in
  16 <= 40 /\
  (do _ <- MetadataReader.peek 16; MetadataReader.peek 40) r
  = MetadataReader.peek 40 r.
Proof.
  intros r. assert (H : 16 <= 40) by lia.
  split; [exact H|]. exact (peek_then_peek 16 40 r H).
Defined.

Lemma seek_within_valid_witness :
  let r := snd (MetadataReader.peek 40 (InodeReader.f ldir_decoder)) in
  let r' := snd (MetadataReader.seek 16 r) in
  wf r /\ 0 <= 16 <= MetadataReader.buf_filled r /\
  MetadataReader.seek 16 r = (inr tt, r') /\
  wf r' /\
  MetadataReader.valid_bytes r'
  = drop (Z.to_nat 16) (MetadataReader.valid_bytes r) /\
  stream r' = drop (Z.to_nat 16) (stream r) /\
  MetadataReader.buf_filled r' = MetadataReader.buf_filled r - 16 /\
  MetadataReader.bufp r' = MetadataReader.bufp r + 16 /\
  MetadataReader.buf r' = MetadataReader.buf r /\
  MetadataReader.f r' = MetadataReader.f r.
Proof.
  intros r r'.
  assert (Hwf : wf r) by (repeat split; closed).
  assert (Hn : 0 <= 16 <= MetadataReader.buf_filled r) by closed.
  assert (Hs : MetadataReader.seek 16 r = (inr tt, r')) by reflexivity.
  split; [exact Hwf|]. split; [exact Hn|]. split; [exact Hs|].
  exact (seek_within_valid 16 r r' Hwf Hn Hs).
Defined.

Lemma poll_data_appends_block_witness :
  let r := InodeReader.f ldir_decoder in
  let r' := snd (MetadataReader.poll_data r) in
  wf r /\
  MetadataReader.poll_data r = (inr tt, r') /\
  exists blk : list byte,
    next_block (MetadataReader.f r) = Some (blk, MetadataReader.f r') /\
    MetadataReader.valid_bytes r' = MetadataReader.valid_bytes r ++ blk /\
    MetadataReader.buf_filled r' = MetadataReader.buf_filled r + zlen blk /\
    stream r' = stream r /\
    wf r'.
Proof.
  intros r r'.
  assert (Hwf : wf r) by (repeat split; closed).
  assert (Hp : MetadataReader.poll_data r = (inr tt, r')) by closed.
  split; [exact Hwf|]. split; [exact Hp|].
  exact (poll_data_appends_block r r' Hwf Hp).
Defined.

Lemma peek_at_end_of_file_witness :
  let r := MetadataReader.init empty_image (demo_sb 1) [] in
  MetadataReader.buf_filled r < 16 /\
  MMAPFile.remaining (MetadataReader.f r) < 2 /\
  MetadataReader.peek 16 r = (inl Eof, r).
Proof.
  intros r.
  assert (H1 : MetadataReader.buf_filled r < 16) by closed.
  assert (H2 : MMAPFile.remaining (MetadataReader.f r) < 2) by closed.
  split; [exact H1|]. split; [exact H2|].
  exact (peek_at_end_of_file 16 r H1 H2).
Defined.

Lemma peek_error_kinds_witness :
  let r := InodeReader.f truncated_decoder in
  let r' := snd (MetadataReader.peek 40 r) in
  MetadataReader.peek 40 r = (inl Eof, r') /\
  (Eof = Eof \/ Eof = Decompress_error \/
   Eof = Undefined_behaviour Out_of_bounds \/
   Eof = Undefined_behaviour Memcpy_overlap).
Proof.
  intros r r'.
  assert (H : MetadataReader.peek 40 r = (inl Eof, r')) by closed.
  split; [exact H|]. exact (peek_error_kinds 40 r r' Eof H).
Defined.

Lemma peek_failure_keeps_bytes_witness :
  let r := snd (MetadataReader.peek 16 (InodeReader.f truncated_decoder)) in
  let r' := snd (MetadataReader.peek 40 r) in
  wf r /\ thrown Eof = true /\
  MetadataReader.peek 40 r = (inl Eof, r') /\
  wf r' /\
  (exists more : list byte,
     MetadataReader.valid_bytes r' = MetadataReader.valid_bytes r ++ more) /\
  MetadataReader.bufp r' <= MetadataReader.bufp r /\
  MetadataReader.buf_filled r' < 40.
Proof.
  intros r r'.
  assert (Hwf : wf r) by (repeat split; closed).
  assert (Ht : thrown Eof = true) by reflexivity.
  assert (H : MetadataReader.peek 40 r = (inl Eof, r')) by closed.
  split; [exact Hwf|]. split; [exact Ht|]. split; [exact H|].
  exact (peek_failure_keeps_bytes 40 r r' Eof Hwf Ht H).
Defined.

Lemma poll_data_safe_witness :
  let r := InodeReader.f ldir_decoder in
  wf r /\
  zlen (MetadataReader.buf r) = 2 * metadata_size /\
  (MetadataReader.bufp r + MetadataReader.buf_filled r <= metadata_size \/
   MetadataReader.buf_filled r <= MetadataReader.bufp r) /\
  (forall (src out : list byte),
     decompress src metadata_size = Some out -> zlen out <= metadata_size) /\
  (forall (length : Z) (f1 : MMAPFile.t),
     MMAPFile.read_le16 (MetadataReader.f r) = (inr length, f1) ->
     Z.land length uncompressed <> 0 ->
     u16 (Z.land length (Z.lnot uncompressed)) <= metadata_size) /\
  forall u : undefined,
    fst (MetadataReader.poll_data r) <> inl (Undefined_behaviour u).
Proof.
  intros r.
  assert (Hwf : wf r) by (repeat split; closed).
  assert (Hcap : zlen (MetadataReader.buf r) = 2 * metadata_size) by closed.
  assert (Hpos : MetadataReader.bufp r + MetadataReader.buf_filled r
                   <= metadata_size \/
                 MetadataReader.buf_filled r <= MetadataReader.bufp r)
    by (left; closed).
  assert (Hback : forall (src out : list byte),
    decompress src metadata_size = Some out -> zlen out <= metadata_size).
  { intros src out H. unfold decompress, copy_backend in H.
    destruct (zlen src <=? metadata_size) eqn:E; [|discriminate H].
    injection H as <-. apply Z.leb_le. exact E. }
  assert (Hraw : forall (length : Z) (f1 : MMAPFile.t),
    MMAPFile.read_le16 (MetadataReader.f r) = (inr length, f1) ->
    Z.land length uncompressed <> 0 ->
    u16 (Z.land length (Z.lnot uncompressed)) <= metadata_size).
  { intros length f1 H _. vm_compute in H. injection H as <- _.
    vm_compute. discriminate. }
  split; [exact Hwf|]. split; [exact Hcap|]. split; [exact Hpos|].
  split; [exact Hback|]. split; [exact Hraw|].
  exact (poll_data_safe r Hwf Hcap Hpos Hback Hraw).
Defined.

End ReaderAtSquashfs4.

(** * Further properties of the size helpers and the accessors *)

Lemma shiftr_floor (x n : Z) :
  0 <= x -> 0 <= n ->
  Z.shiftr x n * 2 ^ n <= x < (Z.shiftr x n + 1) * 2 ^ n.
Proof.
  intros Hx Hn. rewrite Z.shiftr_div_pow2 by lia.
  assert (Hpow : 0 < 2 ^ n) by (apply Z.pow_pos_nonneg; lia).
  pose proof (Z.div_mod x (2 ^ n) ltac:(lia)) as Hdm.
  pose proof (Z.mod_pos_bound x (2 ^ n) Hpow) as Hm.
  nia.
Qed.

Lemma shiftr_range (x n : Z) :
  0 <= x -> 0 <= n -> 0 <= Z.shiftr x n <= x.
Proof.
  intros Hx Hn. pose proof (shiftr_floor x n Hx Hn) as H.
  assert (Hpow : 0 < 2 ^ n) by (apply Z.pow_pos_nonneg; lia).
  nia.
Qed.

Lemma u32_range (x : Z) : 0 <= u32 x < 2 ^ 32.
Proof. unfold u32, wrap. apply Z.mod_pos_bound. lia. Qed.

Section Sizes.
Context {L : Layout}.

Lemma block_count_range (this : reg.t) (block_size block_log blocks : Z) :
  0 <= reg.file_size this < 2 ^ 32 ->
  0 <= block_log ->
  reg.block_count this block_size block_log = Some blocks ->
  0 <= blocks < 2 ^ 32.
Proof.
  intros Hfs Hlog. unfold reg.block_count.
  destruct (block_log <? 32); [|discriminate].
  intros [= <-].
  destruct (reg.fragment this =? invalid_frag).
  - pose proof (u32_range (reg.file_size this + u32 (block_size - 1))) as Hr.
    pose proof (shiftr_range _ block_log (proj1 Hr) Hlog). lia.
  - pose proof (shiftr_range _ block_log (proj1 Hfs) Hlog). lia.
Qed.

(** X10. With a fragment for the tail of the file, [block_count] is
    the number of full blocks, whatever is passed for [block_size]:
    [blocks] blocks of [2 ^ block_log] bytes fit in [file_size] and
    one more does not. *)
Theorem block_count_with_fragment (this : reg.t)
    (block_size block_log : Z) :
  reg.fragment this <> invalid_frag ->
  0 <= block_log < 32 ->
  0 <= reg.file_size this ->
  exists blocks : Z,
    reg.block_count this block_size block_log = Some blocks /\
    blocks * 2 ^ block_log <= reg.file_size this
      < (blocks + 1) * 2 ^ block_log.
Proof.
  intros Hfrag Hlog Hfs.
  exists (Z.shiftr (reg.file_size this) block_log). split.
  - unfold reg.block_count.
    destruct (reg.fragment this =? invalid_frag) eqn:E; [lia|].
    destruct (block_log <? 32) eqn:E'; [reflexivity|lia].
  - apply shiftr_floor; lia.
Qed.

(** X11. Without a fragment, and as long as
    [file_size + block_size - 1] stays below 2^32, [block_count] is
    the number of blocks that cover the file: [blocks] blocks of
    [block_size = 2 ^ block_log] bytes hold [file_size] bytes and one
    fewer does not; an empty file has none. *)
Theorem block_count_without_fragment (this : reg.t) (block_log : Z) :
  reg.fragment this = invalid_frag ->
  0 <= block_log < 32 ->
  0 <= reg.file_size this ->
  reg.file_size this + 2 ^ block_log - 1 < 2 ^ 32 ->
  exists blocks : Z,
    reg.block_count this (2 ^ block_log) block_log = Some blocks /\
    (blocks - 1) * 2 ^ block_log < reg.file_size this
      <= blocks * 2 ^ block_log.
Proof.
  intros Hfrag Hlog Hfs Hsum.
  assert (Hpow : 0 < 2 ^ block_log) by (apply Z.pow_pos_nonneg; lia).
  exists (Z.shiftr (reg.file_size this + 2 ^ block_log - 1) block_log).
  split.
  - unfold reg.block_count.
    destruct (reg.fragment this =? invalid_frag) eqn:E; [|lia].
    destruct (block_log <? 32) eqn:E'; [|lia].
    rewrite (u32_small (2 ^ block_log - 1)) by lia.
    rewrite u32_small by lia.
    do 2 f_equal. lia.
  - pose proof (shiftr_floor (reg.file_size this + 2 ^ block_log - 1)
                  block_log ltac:(lia) ltac:(lia)) as H.
    nia.
Qed.

Lemma reg_inode_size_sum (this : reg.t)
    (block_size block_log blocks : Z) :
  0 <= reg.file_size this < 2 ^ 32 ->
  0 <= block_log ->
  0 <= sizeof_reg < 2 ^ 32 ->
  reg.block_count this block_size block_log = Some blocks ->
  reg.inode_size this block_size block_log
  = Some (sizeof_reg + 4 * blocks).
Proof.
  intros Hfs Hlog Hs Hb.
  pose proof (block_count_range _ _ _ _ Hfs Hlog Hb) as Hr.
  unfold reg.inode_size. rewrite Hb. unfold sizeof_le32.
  rewrite (u64_small (blocks * 4)) by lia.
  rewrite u64_small by lia. f_equal. lia.
Qed.

(** X12. [reg::inode_size] is the size of the structure plus four
    bytes for each of the [block_count] blocks; for a 32-bit
    [file_size] the sum does not wrap, whatever the block count. *)
Theorem reg_inode_size_exact (this : reg.t)
    (block_size block_log blocks : Z) :
  0 <= reg.file_size this < 2 ^ 32 ->
  0 <= block_log ->
  0 <= sizeof_reg < 2 ^ 32 ->
  reg.block_count this block_size block_log = Some blocks ->
  reg.inode_size this block_size block_log
  = Some (sizeof_reg + 4 * blocks) /\
  0 <= blocks < 2 ^ 32.
Proof.
  intros Hfs Hlog Hs Hb.
  split; [exact (reg_inode_size_sum this _ _ _ Hfs Hlog Hs Hb)|].
  exact (block_count_range _ _ _ _ Hfs Hlog Hb).
Qed.

(** X13. For an extended regular file with a fragment,
    [lreg::inode_size] is the size of the structure plus four bytes
    for every full block of the 64-bit [file_size]. *)
Theorem lreg_inode_size_with_fragment (this : lreg.t)
    (block_size block_log : Z) :
  lreg.fragment this <> invalid_frag ->
  0 <= lreg.file_size this < 2 ^ 64 ->
  3 <= block_log < 64 ->
  0 <= sizeof_lreg < 2 ^ 32 ->
  lreg.inode_size this block_size block_log
  = Some (sizeof_lreg + 4 * (lreg.file_size this / 2 ^ block_log)).
Proof.
  intros Hfrag Hfs Hlog Hs. unfold lreg.inode_size.
  destruct (lreg.fragment this =? invalid_frag) eqn:E; [lia|].
  destruct (block_log <? 64) eqn:E'; [|lia].
  rewrite Z.shiftr_div_pow2 by lia.
  assert (Hpow : 2 ^ 3 <= 2 ^ block_log)
    by (apply Z.pow_le_mono_r; lia).
  change (2 ^ 3) with 8 in Hpow.
  assert (Hq : 0 <= lreg.file_size this / 2 ^ block_log < 2 ^ 61).
  { split; [apply Z.div_pos; lia|].
    apply Z.div_lt_upper_bound; [lia|].
    change (2 ^ 64) with (8 * 2 ^ 61) in Hfs. nia. }
  unfold sizeof_le16.
  rewrite (u64_small (2 * _)) by lia.
  rewrite (u64_small (_ * 2)) by lia.
  rewrite u64_small by lia. f_equal. lia.
Qed.

(** X14. For an extended regular file without a fragment,
    [lreg::inode_size] counts the blocks that cover the file, rounding
    up in 64 bits: also for the file sizes close to 2^32 for which the
    32-bit sum in [reg::block_count] wraps. *)
Theorem lreg_inode_size_without_fragment (this : lreg.t)
    (block_log : Z) :
  lreg.fragment this = invalid_frag ->
  3 <= block_log < 32 ->
  0 <= lreg.file_size this ->
  lreg.file_size this + 2 ^ block_log - 1 < 2 ^ 64 ->
  0 <= sizeof_lreg < 2 ^ 32 ->
  lreg.inode_size this (2 ^ block_log) block_log
  = Some (sizeof_lreg
          + 4 * ((lreg.file_size this + 2 ^ block_log - 1)
                 / 2 ^ block_log)).
Proof.
  intros Hfrag Hlog Hfs Hsum Hs. unfold lreg.inode_size.
  destruct (lreg.fragment this =? invalid_frag) eqn:E; [|lia].
  destruct (block_log <? 64) eqn:E'; [|lia].
  assert (Hpow : 2 ^ 3 <= 2 ^ block_log)
    by (apply Z.pow_le_mono_r; lia).
  change (2 ^ 3) with 8 in Hpow.
  assert (Hpow' : 2 ^ block_log < 2 ^ 32)
    by (apply Z.pow_lt_mono_r; lia).
  rewrite (u32_small (2 ^ block_log - 1)) by lia.
  rewrite (u64_small (lreg.file_size this + (2 ^ block_log - 1))) by lia.
  rewrite Z.shiftr_div_pow2 by lia.
  replace (lreg.file_size this + (2 ^ block_log - 1))
    with (lreg.file_size this + 2 ^ block_log - 1) by lia.
  assert (Hq : 0 <= (lreg.file_size this + 2 ^ block_log - 1)
                    / 2 ^ block_log < 2 ^ 61).
  { split; [apply Z.div_pos; lia|].
    apply Z.div_lt_upper_bound; [lia|].
    change (2 ^ 64) with (8 * 2 ^ 61) in Hsum. nia. }
  unfold sizeof_le16.
  rewrite (u64_small (2 * _)) by lia.
  rewrite (u64_small (_ * 2)) by lia.
  rewrite u64_small by lia. f_equal. lia.
Qed.

(** X15. The target of a symlink fills the rest of its record: the
    [symlink_size] bytes from [symlink_name()] on end where the inode
    ends, [inode_size()] bytes after its start. *)
Theorem symlink_name_fills_record (p : Z) (this : symlink.t) :
  0 <= sizeof_symlink < 2 ^ 32 ->
  0 <= symlink.symlink_size this < 2 ^ 32 ->
  symlink_symlink_name p + symlink.symlink_size this
  = p + symlink.inode_size this.
Proof.
  intros Hs Hv. unfold symlink_symlink_name, symlink.inode_size.
  rewrite u64_small by lia. lia.
Qed.

(** X16. The block list of a regular file fills the rest of its
    record: [block_count] entries of 32 bits from [block_list()] on
    end where the inode ends, [inode_size] bytes after its start. *)
Theorem block_list_fills_record (p : Z) (this : reg.t)
    (block_size block_log blocks len : Z) :
  0 <= reg.file_size this < 2 ^ 32 ->
  0 <= block_log ->
  0 <= sizeof_reg < 2 ^ 32 ->
  reg.block_count this block_size block_log = Some blocks ->
  reg.inode_size this block_size block_log = Some len ->
  reg_block_list p + blocks * sizeof_le32 = p + len.
Proof.
  intros Hfs Hlog Hs Hb Hl.
  pose proof (block_count_range _ _ _ _ Hfs Hlog Hb) as Hr.
  unfold reg.inode_size in Hl. rewrite Hb in Hl. injection Hl as <-.
  unfold reg_block_list, sizeof_le32.
  rewrite (u64_small (blocks * 4)) by lia.
  rewrite u64_small by lia. lia.
Qed.

End Sizes.

Section SizesAtSquashfs4.
#[local] Existing Instance squashfs4.

Lemma block_count_with_fragment_witness :
  let this := reg.mk 10000 0 in
  reg.fragment this <> invalid_frag /\
  0 <= 12 < 32 /\
  0 <= reg.file_size this /\
  exists blocks : Z,
    reg.block_count this 4096 12 = Some blocks /\
    blocks * 2 ^ 12 <= reg.file_size this < (blocks + 1) * 2 ^ 12.
Proof.
  intros this.
  assert (H1 : reg.fragment this <> invalid_frag) by discriminate.
  assert (H2 : 0 <= 12 < 32) by lia.
  assert (H3 : 0 <= reg.file_size this) by (unfold this; cbn; lia).
  split; [exact H1|]. split; [exact H2|]. split; [exact H3|].
  exact (block_count_with_fragment this 4096 12 H1 H2 H3).
Defined.

Lemma block_count_without_fragment_witness :
  let this := reg.mk 10000 0xffffffff in
  reg.fragment this = invalid_frag /\
  0 <= 12 < 32 /\
  0 <= reg.file_size this /\
  reg.file_size this + 2 ^ 12 - 1 < 2 ^ 32 /\
  exists blocks : Z,
    reg.block_count this (2 ^ 12) 12 = Some blocks /\
    (blocks - 1) * 2 ^ 12 < reg.file_size this <= blocks * 2 ^ 12.
Proof.
  intros this.
  assert (H1 : reg.fragment this = invalid_frag) by reflexivity.
  assert (H2 : 0 <= 12 < 32) by lia.
  assert (H3 : 0 <= reg.file_size this) by (unfold this; cbn; lia).
  assert (H4 : reg.file_size this + 2 ^ 12 - 1 < 2 ^ 32)
    by (unfold this; cbn; lia).
  split; [exact H1|]. split; [exact H2|]. split; [exact H3|].
  split; [exact H4|].
  exact (block_count_without_fragment this 12 H1 H2 H3 H4).
Defined.

Lemma reg_inode_size_exact_witness :
  let this := reg.mk 0xffffffff 0 in
  0 <= reg.file_size this < 2 ^ 32 /\
  0 <= 12 /\
  0 <= sizeof_reg < 2 ^ 32 /\
  reg.block_count this 4096 12 = Some 1048575 /\
  reg.inode_size this 4096 12 = Some (sizeof_reg + 4 * 1048575) /\
  0 <= 1048575 < 2 ^ 32.
Proof.
  intros this.
  assert (H1 : 0 <= reg.file_size this < 2 ^ 32) by (unfold this; cbn; lia).
  assert (H2 : 0 <= 12) by lia.
  assert (H3 : 0 <= sizeof_reg < 2 ^ 32) by (cbn; lia).
  assert (H4 : reg.block_count this 4096 12 = Some 1048575) by reflexivity.
  split; [exact H1|]. split; [exact H2|]. split; [exact H3|].
  split; [exact H4|].
  exact (reg_inode_size_exact this 4096 12 1048575 H1 H2 H3 H4).
Defined.

Lemma lreg_inode_size_with_fragment_witness :
  let this := lreg.mk (2 ^ 40 + 5) 0 in
  lreg.fragment this <> invalid_frag /\
  0 <= lreg.file_size this < 2 ^ 64 /\
  3 <= 12 < 64 /\
  0 <= sizeof_lreg < 2 ^ 32 /\
  lreg.inode_size this 4096 12
  = Some (sizeof_lreg + 4 * (lreg.file_size this / 2 ^ 12)).
Proof.
  intros this.
  assert (H1 : lreg.fragment this <> invalid_frag) by discriminate.
  assert (H2 : 0 <= lreg.file_size this < 2 ^ 64)
    by (unfold this; cbn; lia).
  assert (H3 : 3 <= 12 < 64) by lia.
  assert (H4 : 0 <= sizeof_lreg < 2 ^ 32) by (cbn; lia).
  split; [exact H1|]. split; [exact H2|]. split; [exact H3|].
  split; [exact H4|].
  exact (lreg_inode_size_with_fragment this 4096 12 H1 H2 H3 H4).
Defined.

Lemma lreg_inode_size_without_fragment_witness :
  let this := lreg.mk 0xffffffff 0xffffffff in
  lreg.fragment this = invalid_frag /\
  3 <= 12 < 32 /\
  0 <= lreg.file_size this /\
  lreg.file_size this + 2 ^ 12 - 1 < 2 ^ 64 /\
  0 <= sizeof_lreg < 2 ^ 32 /\
  lreg.inode_size this (2 ^ 12) 12
  = Some (sizeof_lreg + 4 * ((lreg.file_size this + 2 ^ 12 - 1) / 2 ^ 12)).
Proof.
  intros this.
  assert (H1 : lreg.fragment this = invalid_frag) by reflexivity.
  assert (H2 : 3 <= 12 < 32) by lia.
  assert (H3 : 0 <= lreg.file_size this) by (unfold this; cbn; lia).
  assert (H4 : lreg.file_size this + 2 ^ 12 - 1 < 2 ^ 64)
    by (unfold this; cbn; lia).
  assert (H5 : 0 <= sizeof_lreg < 2 ^ 32) by (cbn; lia).
  split; [exact H1|]. split; [exact H2|]. split; [exact H3|].
  split; [exact H4|]. split; [exact H5|].
  exact (lreg_inode_size_without_fragment this 12 H1 H2 H3 H4 H5).
Defined.

Lemma symlink_name_fills_record_witness :
  let this := symlink.mk 11 in
  0 <= sizeof_symlink < 2 ^ 32 /\
  0 <= symlink.symlink_size this < 2 ^ 32 /\
  symlink_symlink_name 100 + symlink.symlink_size this
  = 100 + symlink.inode_size this.
Proof.
  intros this.
  assert (H1 : 0 <= sizeof_symlink < 2 ^ 32) by (cbn; lia).
  assert (H2 : 0 <= symlink.symlink_size this < 2 ^ 32)
    by (unfold this; cbn; lia).
  split; [exact H1|]. split; [exact H2|].
  exact (symlink_name_fills_record 100 this H1 H2).
Defined.

Lemma block_list_fills_record_witness :
  let this := reg.mk 12288 0 in
  0 <= reg.file_size this < 2 ^ 32 /\
  0 <= 12 /\
  0 <= sizeof_reg < 2 ^ 32 /\
  reg.block_count this 4096 12 = Some 3 /\
  reg.inode_size this 4096 12 = Some 44 /\
  reg_block_list 100 + 3 * sizeof_le32 = 100 + 44.
Proof.
  intros this.
  assert (H1 : 0 <= reg.file_size this < 2 ^ 32) by (unfold this; cbn; lia).
  assert (H2 : 0 <= 12) by lia.
  assert (H3 : 0 <= sizeof_reg < 2 ^ 32) by (cbn; lia).
  assert (H4 : reg.block_count this 4096 12 = Some 3) by reflexivity.
  assert (H5 : reg.inode_size this 4096 12 = Some 44) by reflexivity.
  split; [exact H1|]. split; [exact H2|]. split; [exact H3|].
  split; [exact H4|]. split; [exact H5|].
  exact (block_list_fills_record 100 this 4096 12 3 44 H1 H2 H3 H4 H5).
Defined.

End SizesAtSquashfs4.

(** * Further properties of the decoder *)

Lemma keeps_valid_refl (r : MetadataReader.t) : wf r -> keeps_valid r r.
Proof.
  intros H. split; [exact H|]. exists []. symmetry. apply app_nil_r.
Qed.

Lemma keeps_valid_trans (a b c : MetadataReader.t) :
  keeps_valid a b -> keeps_valid b c -> keeps_valid a c.
Proof.
  intros (_ & m1 & H1) (Hwf & m2 & H2). split; [exact Hwf|].
  exists (m1 ++ m2). rewrite H2, H1. symmetry. apply app_assoc.
Qed.

Lemma load_any (p off w : Z) (r r' : MetadataReader.t) (o : error + Z) :
  MetadataReader.load p off w r = (o, r') -> r' = r.
Proof.
  unfold MetadataReader.load.
  destruct (MetadataReader.in_bounds _ _ _); intros [= _ <-]; reflexivity.
Qed.

Lemma fixed_size_covers {L : Layout} (ty : Z) :
  0 <= ty -> (ty =? 0) || (type.lsocket <? ty) = false ->
  exists n : Z, InodeReader.fixed_size ty = Some n.
Proof.
  intros H0 H. unfold type.lsocket in H.
  assert (Hc : ty = 1 \/ ty = 2 \/ ty = 3 \/ ty = 4 \/ ty = 5 \/ ty = 6 \/
               ty = 7 \/ ty = 8 \/ ty = 9 \/ ty = 10 \/ ty = 11 \/ ty = 12 \/
               ty = 13 \/ ty = 14) by lia.
  repeat (destruct Hc as [-> | Hc]; [eexists; reflexivity|]).
  subst ty. eexists; reflexivity.
Qed.

Section DecoderRuns.
Context {L : Layout} {C : Compressor}.
Import InodeReader.

Lemma peek_keeps_valid (len : Z) (r r' : MetadataReader.t)
    (o : error + Z) :
  wf r -> MetadataReader.peek len r = (o, r') -> keeps_valid r r'.
Proof.
  intros Hwf H.
  destruct (peek_any len r r' o Hwf H) as (Hwf' & Hv & _).
  split; assumption.
Qed.

Lemma dynamic_size_any (p ty len bs bl : Z) (r r' : MetadataReader.t)
    (o : error + Z) :
  dynamic_size p ty len bs bl r = (o, r') -> r' = r.
Proof.
  unfold dynamic_size, reg_at, symlink_at, lreg_at, i_count_at, bind,
    shifted, ret, throw, MetadataReader.load.
  intros H.
  repeat match type of H with
         | context [if ?b then _ else _] => destruct b
         | context [match ?x with Some _ => _ | None => _ end] => destruct x
         end;
    injection H as _ <-; reflexivity.
Qed.

Lemma scan_cond_any (s : scan) (r r' : MetadataReader.t)
    (o : error + bool) :
  scan_cond s r = (o, r') -> r' = r.
Proof.
  unfold scan_cond, i_count_at, bind.
  destruct (MetadataReader.load _ _ _ r) as [[e | k] r2] eqn:Hld;
    apply load_any in Hld as ->; intros [= _ <-]; reflexivity.
Qed.

Lemma scan_body_any (s : scan) (r r' : MetadataReader.t)
    (o : error + scan) :
  wf r -> scan_body s r = (o, r') -> keeps_valid r r'.
Proof.
  intros Hwf. unfold scan_body, bind.
  destruct (MetadataReader.load _ _ _ r) as [[e | k] r2] eqn:Hld;
    apply load_any in Hld as ->.
  - intros [= _ <-]. apply keeps_valid_refl, Hwf.
  - destruct (MetadataReader.peek _ r) as [[e | p] r3] eqn:Hp;
      intros [= _ <-]; exact (peek_keeps_valid _ _ _ _ Hwf Hp).
Qed.

Lemma scan_loop_any (fuel : nat) :
  forall (s : scan) (r r' : MetadataReader.t) (o : error + scan),
    wf r -> scan_loop fuel s r = (o, r') -> keeps_valid r r'.
Proof.
  induction fuel as [|fuel IH]; intros s r r' o Hwf H;
    rewrite scan_loop_unfold in H; unfold bind at 1 in H;
    destruct (scan_cond s r) as [[e | c] r1] eqn:Hc;
    apply scan_cond_any in Hc as ->.
  1,3: injection H as _ <-; apply keeps_valid_refl, Hwf.
  - destruct c; injection H as _ <-; apply keeps_valid_refl, Hwf.
  - destruct c; [|injection H as _ <-; apply keeps_valid_refl, Hwf].
    unfold bind at 1 in H.
    destruct (scan_body s r) as [[e | s1] r1] eqn:Hb;
      pose proof (scan_body_any _ _ _ _ Hwf Hb) as Hk.
    + injection H as _ <-. exact Hk.
    + apply (keeps_valid_trans _ _ _ Hk).
      apply (IH _ _ _ _ (proj1 Hk) H).
Qed.

(** The view of the loop over the directory indexes stays the
    cursor. *)
Lemma scan_loop_ret (fuel : nat) :
  forall (s s' : scan) (r r' : MetadataReader.t),
    scan_loop fuel s r = (inr s', r') ->
    sc_ret s = MetadataReader.bufp r ->
    sc_ret s' = MetadataReader.bufp r'.
Proof.
  induction fuel as [|fuel IH]; intros s s' r r' H Hret;
    rewrite scan_loop_unfold in H;
    apply bind_inr in H as (c & r1 & Hc & H);
    unfold scan_cond, i_count_at in Hc;
    apply bind_inr in Hc as (k & r2 & Hld & Hc);
    apply load_inr in Hld as [-> _]; injection Hc as <- <-;
    destruct (sc_i s <? k).
  - discriminate.
  - injection H as <- <-. exact Hret.
  - apply bind_inr in H as (s1 & r1 & Hb & H).
    unfold scan_body in Hb.
    apply bind_inr in Hb as (size & r2 & Hld & Hb).
    apply load_inr in Hld as [-> _].
    apply bind_inr in Hb as (p & r3 & Hpeek & Hb).
    injection Hb as <- <-.
    pose proof (peek_filled _ _ _ _ Hpeek) as [_ Hp].
    apply (IH _ _ _ _ H). cbn [sc_ret]. exact Hp.
  - injection H as <- <-. exact Hret.
Qed.

Lemma read_inr_guard (st st' : t) (p : Z) :
  read st = (inr p, st') ->
  (u32 (no_inodes st + 1) <=? inode_num st) = false.
Proof.
  unfold read. rewrite (bind_run get _ st st st) by reflexivity.
  destruct (u32 (no_inodes st + 1) <=? inode_num st);
    [discriminate|reflexivity].
Qed.

End DecoderRuns.

Section DecoderFurther.
Context {L : Layout} {C : Compressor} {F : LayoutFacts L}.
Import InodeReader.

Ltac never_step e Hne Hne' :=
  repeat match goal with
         | |- never _ (if ?b then _ else _) => destruct b
         | |- never _ (bind _ _) => apply never_bind; [|intros ?]
         | |- never _ (on_reader _) => apply never_on_reader
         | |- never _ (MetadataReader.peek _) => apply peek_never; reflexivity
         | |- never _ (inode_type_at _) => apply never_load; reflexivity
         | |- never _ (dynamic_size _ _ _ _ _) =>
             apply dynamic_size_never; [reflexivity|exact Hne]
         | |- never _ (scan_loop _ _) =>
             apply scan_loop_never; [reflexivity|exact Hne']
         | |- never _ (ret _) => apply never_ret
         | |- never _ (initialised (Some _)) => apply never_ret
         | |- never _ (throw _) => apply never_throw; discriminate
         | |- never _ (MetadataReader.seek _) => intros ?; discriminate
         | |- never _ incr_inode_num => intros ?; discriminate
         end.

(** Only the guard throws the error of the guard. *)
Lemma read_guard_passed (st : t) :
  (u32 (no_inodes st + 1) <=? inode_num st) = false ->
  fst (read st) <> inl Past_last_inode.
Proof.
  intros E. unfold read.
  rewrite (bind_run get _ st st st) by reflexivity. rewrite E.
  match goal with
  | |- fst (?m st) <> _ => enough (H : never Past_last_inode m) by apply H
  end.
  assert (Hne : Past_last_inode <> Undefined_behaviour Shift_too_wide)
    by discriminate.
  assert (Hne' : Past_last_inode <> Out_of_fuel) by discriminate.
  never_step Past_last_inode Hne Hne'.
  destruct (fixed_size _); [apply never_ret|apply never_throw; discriminate].
Qed.

(** X17. [read] refuses with the error of its guard exactly when
    [inode_num >= no_inodes + 1] in 32-bit arithmetic, whatever the
    inode table holds, and it then leaves the decoder and its reader
    untouched: nothing is pulled from the file. *)
Theorem read_guard_exact (st : t) :
  (fst (read st) = inl Past_last_inode <->
   u32 (no_inodes st + 1) <= inode_num st) /\
  (forall st' : t, read st = (inl Past_last_inode, st') -> st' = st).
Proof.
  destruct (u32 (no_inodes st + 1) <=? inode_num st) eqn:E.
  - assert (H : read st = (inl Past_last_inode, st)).
    { unfold read. rewrite (bind_run get _ st st st) by reflexivity.
      rewrite E. reflexivity. }
    split.
    + split; [intros _; lia | intros _; rewrite H; reflexivity].
    + intros st' H'. rewrite H in H'. injection H' as <-. reflexivity.
  - pose proof (read_guard_passed st E) as Hn. split.
    + split; [intros H; contradiction | intros H; lia].
    + intros st' H'. rewrite H' in Hn. contradiction.
Qed.

(** X18. [read] never uses [inode_len] uninitialised: every type tag
    that gets past the validity check, 1 to 14, has a [case] in the
    first [switch] that assigns it. *)
Theorem read_never_uninitialised (st : t) :
  fst (read st) <> inl (Undefined_behaviour Uninitialised_read).
Proof.
  set (e := Undefined_behaviour Uninitialised_read).
  assert (Hne : e <> Undefined_behaviour Shift_too_wide) by discriminate.
  assert (Hne' : e <> Out_of_fuel) by discriminate.
  unfold read. rewrite (bind_run get _ st st st) by reflexivity.
  destruct (u32 (no_inodes st + 1) <=? inode_num st); [discriminate|].
  unfold bind at 1.
  destruct (on_reader (MetadataReader.peek sizeof_base) st)
    as [[e1 | p] st1] eqn:Hp.
  { pose proof (never_on_reader e _
                  (peek_never e sizeof_base eq_refl) st) as Hn.
    rewrite Hp in Hn. exact Hn. }
  unfold bind at 1.
  destruct (on_reader (inode_type_at p) st1) as [[e1 | ty] st2] eqn:Hty.
  { pose proof (never_on_reader e (inode_type_at p)
                  (never_load e p offsetof_inode_type sizeof_le16 eq_refl)
                  st1) as Hn.
    rewrite Hty in Hn. exact Hn. }
  apply on_reader_inv in Hty as (r' & Hty & ->).
  apply load_inr in Hty as [_ Hrange].
  unfold sizeof_le16 in Hrange.
  assert (H0 : 0 <= ty) by lia.
  destruct ((ty =? 0) || (type.lsocket <? ty)) eqn:E; [discriminate|].
  destruct (fixed_size_covers ty H0 E) as (n & ->).
  match goal with
  | |- fst (?m ?s) <> _ => enough (H : never e m) by apply H
  end.
  never_step e Hne Hne'.
Qed.

(** X19. [read] ends on every decoder: the loop over the directory
    indexes runs while [i < i_count] with [i_count] a 16-bit member,
    so at most 65535 times, and every peek in it ends. *)
Theorem read_halts (st : t) : fst (read st) <> inl Out_of_fuel.
Proof. exact (read_total st). Qed.

(** X20. What a call of [read] that returns has done: for some length
    [inode_len], the view it returns points at [inode_len] bytes of
    the buffer that are the first [inode_len] bytes of the stream, the
    cursor is right after them, exactly these bytes have left the
    stream, the invariant holds and [inode_num] has gone up by one. *)
Theorem read_returns_record (st st' : t) (p : Z) :
  wf (f st) ->
  read st = (inr p, st') ->
  exists inode_len : Z,
    0 <= inode_len /\
    slice (MetadataReader.buf (f st')) p inode_len
    = take (Z.to_nat inode_len) (stream (f st)) /\
    stream (f st') = drop (Z.to_nat inode_len) (stream (f st)) /\
    MetadataReader.bufp (f st') = p + inode_len /\
    wf (f st') /\
    inode_num st' = u32 (inode_num st + 1) /\
    no_inodes st' = no_inodes st.
Proof.
  intros Hwf H. unfold read in H.
  rewrite (bind_run get _ st st st) in H by reflexivity.
  destruct (u32 (no_inodes st + 1) <=? inode_num st); [discriminate|].
  apply bind_inr in H as (p0 & st1 & Hp0 & H).
  apply on_reader_inv in Hp0 as (ra & Hp0 & ->).
  pose proof (peek_keeps_cursor _ _ _ _ Hwf Hp0) as (Hwfa & _ & Hsa & _).
  apply bind_inr in H as (ty & st1 & Hty & H).
  apply on_reader_inv in Hty as (ra' & Hty & ->).
  apply load_inr in Hty as [-> _]. cbn [f with_reader] in *.
  destruct ((ty =? 0) || (type.lsocket <? ty)); [discriminate|].
  apply bind_inr in H as (len1 & st1 & Hinit & H).
  destruct (fixed_size ty) as [n|] eqn:Hfix; [|discriminate].
  injection Hinit as <- <-. apply fixed_size_nonneg in Hfix.
  apply bind_inr in H as (p1 & st1 & Hp1 & H).
  apply on_reader_inv in Hp1 as (rb & Hp1 & ->). cbn [f with_reader] in *.
  pose proof (peek_keeps_cursor _ _ _ _ Hwfa Hp1) as (Hwfb & _ & Hsb & _).
  apply bind_inr in H as (ty1 & st1 & Hty & H).
  apply on_reader_inv in Hty as (rb' & Hty & ->).
  apply load_inr in Hty as [-> _]. cbn [f with_reader] in *.
  apply bind_inr in H as (len2 & st1 & Hdyn & H).
  apply on_reader_inv in Hdyn as (rb' & Hdyn & ->). cbn [f with_reader] in *.
  apply dynamic_size_inr in Hdyn as [-> Hlen2]; [|assumption].
  apply bind_inr in H as (p2 & st1 & Hp2 & H).
  apply on_reader_inv in Hp2 as (rc & Hp2 & ->). cbn [f with_reader] in *.
  pose proof (peek_filled _ _ _ _ Hp2) as [Hfillc Hpc].
  pose proof (peek_keeps_cursor _ _ _ _ Hwfb Hp2) as (Hwfc & _ & Hsc & _).
  apply bind_inr in H as (ty2 & st1 & Hty & H).
  apply on_reader_inv in Hty as (rc' & Hty & ->).
  apply load_inr in Hty as [-> _]. cbn [f with_reader] in *.
  apply bind_inr in H as (s & st1 & Hscan & H).
  assert (Hs : exists rd : MetadataReader.t,
             st1 = with_reader st rd /\ wf rd /\ stream rd = stream rc /\
             0 <= sc_inode_len s <= MetadataReader.buf_filled rd /\
             sc_ret s = MetadataReader.bufp rd).
  { destruct (ty2 =? type.ldir).
    - apply on_reader_inv in Hscan as (rd & Hscan & ->).
      cbn [f with_reader] in *. exists rd. split; [reflexivity|].
      pose proof (scan_loop_ret _ _ _ _ _ Hscan Hpc) as Hret.
      apply (scan_loop_inr _ _ _ _ _ Hwfc) in Hscan;
        [|cbn [sc_inode_len]; lia].
      destruct Hscan as (Hw & Hst & Hl).
      split; [exact Hw|]. split; [exact Hst|]. split; [exact Hl|exact Hret].
    - injection Hscan as <- <-. exists rc. cbn [sc_inode_len sc_ret].
      split; [reflexivity|]. split; [exact Hwfc|]. split; [reflexivity|].
      split; [lia|exact Hpc]. }
  destruct Hs as (rd & -> & Hwfd & Hsd & Hlen & Hret).
  apply bind_inr in H as ([] & st1 & Hseek & H).
  apply on_reader_inv in Hseek as (re & Hseek & ->). cbn [f with_reader] in *.
  pose proof Hseek as Hseek'.
  apply seek_stream in Hseek' as [Hwfe Hse]; [|assumption..].
  injection Hseek as <-.
  apply bind_inr in H as ([] & st1 & Hincr & H).
  injection Hincr as <-. injection H as <- <-. cbn.
  assert (Hst : stream rd = stream (f st)) by congruence.
  exists (sc_inode_len s). split; [lia|].
  rewrite Hse, Hst, Hret.
  split; [|auto].
  rewrite <- Hst.
  pose proof (zlen_valid_bytes rd Hwfd) as Hz. unfold zlen in Hz.
  unfold stream.
  rewrite take_app_le by lia.
  unfold MetadataReader.valid_bytes, slice.
  rewrite take_take. f_equal. lia.
Qed.

(** X21. A call of [read] that throws has consumed nothing: the
    counters are as before, and the bytes that were valid at the
    cursor are still there, with what the call pulled after them; a
    later call starts at the same record. *)
Theorem read_failure_consumes_nothing (st st' : t) (e : error) :
  wf (f st) ->
  thrown e = true ->
  read st = (inl e, st') ->
  inode_num st' = inode_num st /\
  no_inodes st' = no_inodes st /\
  wf (f st') /\
  exists more : list byte,
    MetadataReader.valid_bytes (f st')
    = MetadataReader.valid_bytes (f st) ++ more.
Proof.
  intros Hwf _ H.
  assert (Hdone : forall r' : MetadataReader.t,
    keeps_valid (f st) r' ->
    inode_num (with_reader st r') = inode_num st /\
    no_inodes (with_reader st r') = no_inodes st /\
    wf (f (with_reader st r')) /\
    exists more : list byte,
      MetadataReader.valid_bytes (f (with_reader st r'))
      = MetadataReader.valid_bytes (f st) ++ more).
  { intros r' (Hwf' & Hv). cbn. auto. }
  unfold read in H.
  rewrite (bind_run get _ st st st) in H by reflexivity.
  destruct (u32 (no_inodes st + 1) <=? inode_num st).
  { injection H as _ <-.
    destruct (keeps_valid_refl _ Hwf) as (? & ?). auto. }
  apply bind_inl in H as [H | (p0 & st1 & Hp0 & H)].
  { apply on_reader_inv in H as (ra & H & ->). apply Hdone.
    exact (peek_keeps_valid _ _ _ _ Hwf H). }
  apply on_reader_inv in Hp0 as (ra & Hp0 & ->).
  pose proof (peek_keeps_valid _ _ _ _ Hwf Hp0) as Hka.
  apply bind_inl in H as [H | (ty & st1 & Hty & H)].
  { apply on_reader_inv in H as (ra' & H & ->).
    apply load_any in H as ->. apply Hdone, Hka. }
  apply on_reader_inv in Hty as (ra' & Hty & ->).
  apply load_any in Hty as ->. cbn [f with_reader] in *.
  change (with_reader (with_reader st ra) ra) with (with_reader st ra) in H.
  destruct ((ty =? 0) || (type.lsocket <? ty)).
  { injection H as _ <-. apply Hdone, Hka. }
  apply bind_inl in H as [H | (len1 & st1 & Hinit & H)].
  { destruct (fixed_size ty); [discriminate H|].
    injection H as _ <-. apply Hdone, Hka. }
  destruct (fixed_size ty) as [n|]; [|discriminate Hinit].
  injection Hinit as <- <-.
  apply bind_inl in H as [H | (p1 & st1 & Hp1 & H)].
  { apply on_reader_inv in H as (rb & H & ->). apply Hdone.
    apply (keeps_valid_trans _ _ _ Hka).
    exact (peek_keeps_valid _ _ _ _ (proj1 Hka) H). }
  apply on_reader_inv in Hp1 as (rb & Hp1 & ->). cbn [f with_reader] in *.
  pose proof (keeps_valid_trans _ _ _ Hka
                (peek_keeps_valid _ _ _ _ (proj1 Hka) Hp1)) as Hkb.
  change (with_reader (with_reader st ra) rb) with (with_reader st rb) in H.
  apply bind_inl in H as [H | (ty1 & st1 & Hty & H)].
  { apply on_reader_inv in H as (rb' & H & ->).
    apply load_any in H as ->. apply Hdone, Hkb. }
  apply on_reader_inv in Hty as (rb' & Hty & ->).
  apply load_any in Hty as ->. cbn [f with_reader] in *.
  change (with_reader (with_reader st rb) rb) with (with_reader st rb) in H.
  apply bind_inl in H as [H | (len2 & st1 & Hdyn & H)].
  { apply on_reader_inv in H as (rb' & H & ->).
    apply dynamic_size_any in H as ->. apply Hdone, Hkb. }
  apply on_reader_inv in Hdyn as (rb' & Hdyn & ->).
  apply dynamic_size_any in Hdyn as ->. cbn [f with_reader] in *.
  change (with_reader (with_reader st rb) rb) with (with_reader st rb) in H.
  apply bind_inl in H as [H | (p2 & st1 & Hp2 & H)].
  { apply on_reader_inv in H as (rc & H & ->). apply Hdone.
    apply (keeps_valid_trans _ _ _ Hkb).
    exact (peek_keeps_valid _ _ _ _ (proj1 Hkb) H). }
  apply on_reader_inv in Hp2 as (rc & Hp2 & ->). cbn [f with_reader] in *.
  pose proof (keeps_valid_trans _ _ _ Hkb
                (peek_keeps_valid _ _ _ _ (proj1 Hkb) Hp2)) as Hkc.
  change (with_reader (with_reader st rb) rc) with (with_reader st rc) in H.
  apply bind_inl in H as [H | (ty2 & st1 & Hty & H)].
  { apply on_reader_inv in H as (rc' & H & ->).
    apply load_any in H as ->. apply Hdone, Hkc. }
  apply on_reader_inv in Hty as (rc' & Hty & ->).
  apply load_any in Hty as ->. cbn [f with_reader] in *.
  change (with_reader (with_reader st rc) rc) with (with_reader st rc) in H.
  apply bind_inl in H as [H | (s & st1 & Hscan & H)].
  { destruct (ty2 =? type.ldir); [|discriminate H].
    apply on_reader_inv in H as (rd & H & ->). apply Hdone.
    apply (keeps_valid_trans _ _ _ Hkc).
    exact (scan_loop_any _ _ _ _ _ (proj1 Hkc) H). }
  apply bind_inl in H as [H | ([] & st2 & _ & H)]; [discriminate H|].
  apply bind_inl in H as [H | ([] & st3 & _ & H)]; discriminate H.
Qed.

End DecoderFurther.

(** ** The length of the records without directory indexes *)

Section DecoderRecords.
Context {L : Layout} {C : Compressor}.
Context {F : LayoutFacts L} {G : StructFacts L}.
Import InodeReader.

(** The run of [read] on a record that is no extended directory, given
    what the second [switch] makes of it. *)
Lemma read_record (st : t) (r1 : MetadataReader.t) (p ty fixed len : Z) :
  wf (f st) ->
  (u32 (no_inodes st + 1) <=? inode_num st) = false ->
  MetadataReader.peek len (f st) = (inr p, r1) ->
  field (MetadataReader.valid_bytes r1) offsetof_inode_type sizeof_le16
  = ty ->
  (ty =? 0) || (type.lsocket <? ty) = false ->
  (ty =? type.ldir) = false ->
  fixed_size ty = Some fixed ->
  sizeof_base <= fixed <= len ->
  (forall r : MetadataReader.t,
     toward len r1 r -> fixed <= MetadataReader.buf_filled r ->
     dynamic_size (MetadataReader.bufp r) ty fixed
       (block_size st) (block_log st) r = (inr len, r)) ->
  exists st' : t,
    read st = (inr p, st') /\
    MetadataReader.seek len r1 = (inr tt, f st') /\
    stream (f st') = drop (Z.to_nat len) (stream (f st)) /\
    inode_num st' = u32 (inode_num st + 1).
Proof.
  intros Hwf Hguard Hpeek Hty Hvalid Hldir Hfix Hlen Hdyn.
  exists (mk (snd (MetadataReader.seek len r1))
            (u32 (inode_num st + 1)) (no_inodes st)
            (block_size st) (block_log st)).
  cbn [f inode_num].
  pose proof inode_type_in_base as Hf1.
  unfold sizeof_le16 in Hf1.
  assert (Hnn : 0 <= len) by lia.
  split; [|split; [reflexivity|split; [|reflexivity]]].
  2:{ pose proof (peek_filled _ _ _ _ Hpeek) as [Hfill _].
      pose proof (peek_keeps_cursor _ _ _ _ Hwf Hpeek) as (Hwf1 & _ & <- & _).
      apply (seek_stream len r1); [assumption|lia|reflexivity]. }
  apply toward_start in Hpeek as [Ht ->]; [|assumption].
  unfold read. rewrite (bind_run get _ st st st) by reflexivity.
  rewrite Hguard.
  assert (Hle1 : sizeof_base <= len) by lia.
  assert (Hle2 : fixed <= len) by lia.
  assert (Hle3 : len <= len) by lia.
  (* the common header *)
  destruct (toward_step len sizeof_base _ r1 Ht Hle1)
    as (ra & Hpa & Hta & Hfa).
  rewrite (bind_run _ _ _ _ _ (on_reader_run _ _ _ _ Hpa)).
  rewrite (bind_run _ _ _ _ _
             (on_reader_with _ st _ _ _ (inode_type_toward _ _ _ Hta Hfa))).
  rewrite Hty, Hvalid, Hfix.
  rewrite (bind_run (initialised _) _ _ (with_reader st ra) fixed)
    by reflexivity.
  (* the structure *)
  destruct (toward_step len fixed _ r1 Hta Hle2)
    as (rb & Hpb & Htb & Hfb).
  rewrite (bind_run _ _ _ _ _ (on_reader_with _ st _ _ _ Hpb)).
  assert (Hfb' : sizeof_base <= MetadataReader.buf_filled rb) by lia.
  rewrite (bind_run _ _ _ _ _
             (on_reader_with _ st _ _ _
                (inode_type_toward _ _ _ Htb Hfb'))).
  rewrite Hty.
  (* the whole record *)
  rewrite (bind_run _ _ _ _ _
             (on_reader_with _ st _ _ _ (Hdyn rb Htb Hfb))).
  destruct (toward_step len len _ r1 Htb Hle3)
    as (rc & Hpc & Htc & Hfc).
  pose proof (toward_done _ _ _ Htc Hfc) as <-.
  rewrite (bind_run _ _ _ _ _ (on_reader_with _ st _ _ _ Hpc)).
  assert (Hfc' : sizeof_base <= MetadataReader.buf_filled r1) by lia.
  rewrite (bind_run _ _ _ _ _
             (on_reader_with _ st _ _ _
                (inode_type_toward _ _ _ Htc Hfc'))).
  rewrite Hty, Hldir.
  reflexivity.
Qed.

(** X22. An inode of one of the nine types without trailing data
    (directory, devices, fifos, sockets and the extended ones) has the
    length of its structure: [read] returns the view of it and seeks
    by exactly [sizeof] of the structure of its type. *)
Theorem read_fixed_length (st : t) (r1 : MetadataReader.t)
    (p ty n : Z) :
  wf (f st) ->
  (u32 (no_inodes st + 1) <=? inode_num st) = false ->
  In ty [type.dir; type.blkdev; type.chrdev; type.fifo; type.socket;
         type.lblkdev; type.lchrdev; type.lfifo; type.lsocket] ->
  fixed_size ty = Some n ->
  MetadataReader.peek n (f st) = (inr p, r1) ->
  field (MetadataReader.valid_bytes r1) offsetof_inode_type sizeof_le16
  = ty ->
  exists st' : t,
    read st = (inr p, st') /\
    MetadataReader.seek n r1 = (inr tt, f st') /\
    stream (f st') = drop (Z.to_nat n) (stream (f st)) /\
    inode_num st' = u32 (inode_num st + 1).
Proof.
  intros Hwf Hguard Hin Hfix Hpeek Hty.
  pose proof base_in_structs as Hb.
  assert (Hcase : (ty =? 0) || (type.lsocket <? ty) = false /\
                  (ty =? type.ldir) = false /\
                  sizeof_base <= n /\
                  forall (bs bl : Z) (r : MetadataReader.t),
                    dynamic_size (MetadataReader.bufp r) ty n bs bl r
                    = (inr n, r)).
  { cbn [In] in Hin.
    repeat (destruct Hin as [<- | Hin];
            [injection Hfix as <-; repeat split; auto; lia|]).
    contradiction. }
  destruct Hcase as (Hvalid & Hldir & Hbase & Hdyn).
  apply (read_record st r1 p ty n n); try assumption; [lia|].
  intros r _ _. apply Hdyn.
Qed.




End DecoderRecords.

(** ** Runs of the decoder from its construction *)

Section DecoderSequences.
Context {L : Layout} {C : Compressor} {F : LayoutFacts L}.
Import InodeReader.

Lemma u32_succ (x : Z) (k : nat) :
  u32 (u32 (x + 1) + Z.of_nat k) = u32 (x + Z.of_nat (S k)).
Proof.
  unfold u32, wrap. rewrite Zplus_mod_idemp_l. f_equal. lia.
Qed.

Lemma read_n_run (k : nat) :
  forall st st' : t,
    wf (f st) ->
    0 <= inode_num st < 2 ^ 32 ->
    read_n k st = Some st' ->
    wf (f st') /\
    no_inodes st' = no_inodes st /\
    inode_num st' = u32 (inode_num st + Z.of_nat k) /\
    (exists n : Z,
       0 <= n /\ stream (f st') = drop (Z.to_nat n) (stream (f st))) /\
    (0 <= no_inodes st < 2 ^ 32 - 1 ->
     inode_num st <= no_inodes st + 1 ->
     inode_num st + Z.of_nat k <= no_inodes st + 1).
Proof.
  induction k as [|k IH]; intros st st' Hwf Hnum0 H; cbn [read_n] in H.
  - injection H as <-. split; [exact Hwf|]. split; [reflexivity|].
    split; [rewrite u32_small by lia; lia|].
    split; [exists 0; split; [lia|reflexivity]|]. lia.
  - destruct (read st) as [[e | p] st1] eqn:Hr; [discriminate H|].
    pose proof (read_inr_guard _ _ _ Hr) as Hg.
    destruct (read_keeps_invariant _ _ _ Hwf Hr)
      as (len & Hlen & Hs & Hwf1 & Hnum & Hno).
    assert (Hnum1 : 0 <= inode_num st1 < 2 ^ 32)
      by (rewrite Hnum; apply u32_range).
    destruct (IH _ _ Hwf1 Hnum1 H)
      as (Hwf' & Hno' & Hnum' & (n & Hn & Hs') & Hb).
    split; [exact Hwf'|]. split; [congruence|].
    split; [rewrite Hnum', Hnum; apply u32_succ|].
    split.
    + exists (len + n). split; [lia|].
      rewrite Hs', Hs, drop_drop. f_equal. lia.
    + intros Hrange _. rewrite Hno in Hb.
      rewrite u32_small in Hg by lia.
      assert (Hlt : inode_num st < no_inodes st + 1) by lia.
      rewrite Hnum in Hb. rewrite u32_small in Hb by lia.
      specialize (Hb Hrange ltac:(lia)). lia.
Qed.

(** X26. Along any run of calls of [read] that return, from the
    construction of the decoder on, the reader keeps its invariant,
    [inode_num] counts the calls modulo 2^32, [no_inodes] stays the
    count of the superblock, and what is left to consume is the stream
    of the inode table without some leading bytes: nothing is read
    twice or out of order. *)
Theorem reads_from_init (new_file : MMAPFile.t) (sb : super_block)
    (garbage : list byte) (k : nat) (st' : t) :
  read_n k (init new_file sb garbage) = Some st' ->
  wf (f st') /\
  inode_num st' = u32 (Z.of_nat k) /\
  no_inodes st' = inodes sb /\
  exists n : Z,
    0 <= n /\
    stream (f st')
    = drop (Z.to_nat n) (stream (f (init new_file sb garbage))).
Proof.
  intros H.
  pose proof (init_wf new_file sb garbage) as Hwf.
  assert (H0 : 0 <= inode_num (init new_file sb garbage) < 2 ^ 32)
    by (cbn; lia).
  destruct (read_n_run k (init new_file sb garbage) st' Hwf H0 H)
    as (Hwf' & Hno & Hnum & Hs & _).
  cbn [init inode_num no_inodes f] in *. auto.
Qed.

(** X27. From its construction on, the decoder returns at most
    [inodes + 1] records, one more than the superblock declares: a run
    of [k] calls that all return has [k <= inodes + 1]. *)
Theorem reads_bounded (new_file : MMAPFile.t) (sb : super_block)
    (garbage : list byte) (k : nat) (st' : t) :
  0 <= inodes sb < 2 ^ 32 - 1 ->
  read_n k (init new_file sb garbage) = Some st' ->
  Z.of_nat k <= inodes sb + 1.
Proof.
  intros Hrange H.
  pose proof (init_wf new_file sb garbage) as Hwf.
  assert (H0 : 0 <= inode_num (init new_file sb garbage) < 2 ^ 32)
    by (cbn; lia).
  destruct (read_n_run k (init new_file sb garbage) st' Hwf H0 H)
    as (_ & _ & _ & _ & Hb).
  cbn [init inode_num no_inodes] in Hb.
  specialize (Hb Hrange ltac:(lia)). lia.
Qed.

(** X28. One round of the loop over the directory indexes moves
    [offset] from a directory index to the byte after its name,
    [size + 1] bytes from [name()] on, and adds the bytes of the name
    to [inode_len]; [size + 1] is computed in 32 bits, so that for
    [size = 2^32 - 1] the name counts as empty. *)
Theorem scan_body_next_index (s s' : scan) (r r' : MetadataReader.t) :
  0 <= sc_offset s < 2 ^ 63 ->
  0 <= sc_inode_len s < 2 ^ 63 ->
  0 <= sizeof_dir_index ->
  scan_body s r = (inr s', r') ->
  exists size : Z,
    MetadataReader.load (sc_ret s + sc_offset s)
      offsetof_index_size sizeof_le32 r = (inr size, r) /\
    sc_i s' = sc_i s + 1 /\
    (size < 2 ^ 32 - 1 ->
     sc_ret s + sc_offset s'
     = dir_index_name (sc_ret s + sc_offset s) + (size + 1) /\
     sc_inode_len s' = sc_inode_len s + (size + 1)) /\
    (size = 2 ^ 32 - 1 ->
     sc_ret s + sc_offset s' = dir_index_name (sc_ret s + sc_offset s) /\
     sc_inode_len s' = sc_inode_len s).
Proof.
  intros Hoff Hlen Hidx H. unfold scan_body in H.
  pose proof sizes_small as Hsm.
  apply bind_inr in H as (size & r2 & Hld & H).
  pose proof Hld as Hld'.
  apply load_inr in Hld' as [-> Hsize].
  unfold sizeof_le32 in Hsize. specialize (Hsize ltac:(lia)).
  change (2 ^ (8 * 4)) with (2 ^ 32) in Hsize.
  apply bind_inr in H as (p & r3 & _ & H).
  injection H as <- <-. cbn [sc_i sc_offset sc_inode_len].
  exists size. split; [exact Hld|]. split; [reflexivity|].
  unfold dir_index_name. split.
  - intros Hs. rewrite (u32_small (size + 1)) by lia.
    rewrite (u64_small (size + 1 + sizeof_dir_index)) by lia.
    rewrite !u64_small by lia. lia.
  - intros ->.
    replace (u32 (2 ^ 32 - 1 + 1)) with 0 by reflexivity.
    rewrite (u64_small (0 + sizeof_dir_index)) by lia.
    rewrite !u64_small by lia. lia.
Qed.

End DecoderSequences.

(** ** The statements at concrete inputs *)

Lemma squashfs4_struct_facts : StructFacts squashfs4.
Proof. constructor; vm_compute; repeat split; discriminate. Qed.

Section DecoderAtSquashfs4.
#[local] Existing Instance squashfs4.
#[local] Existing Instance copy_backend.
#[local] Existing Instance squashfs4_facts.
#[local] Existing Instance squashfs4_struct_facts.

Ltac closed := vm_compute; repeat split; try discriminate.

Lemma read_returns_record_witness :
  let st := ldir_decoder in
  let st' := snd (InodeReader.read st) in
  wf (InodeReader.f st) /\
  InodeReader.read st = (inr 0, st') /\
  exists inode_len : Z,
    0 <= inode_len /\
    slice (MetadataReader.buf (InodeReader.f st')) 0 inode_len
    = take (Z.to_nat inode_len) (stream (InodeReader.f st)) /\
    stream (InodeReader.f st')
    = drop (Z.to_nat inode_len) (stream (InodeReader.f st)) /\
    MetadataReader.bufp (InodeReader.f st') = 0 + inode_len /\
    wf (InodeReader.f st') /\
    InodeReader.inode_num st' = u32 (InodeReader.inode_num st + 1) /\
    InodeReader.no_inodes st' = InodeReader.no_inodes st.
Proof.
  intros st st'.
  assert (Hwf : wf (InodeReader.f st)) by (repeat split; closed).
  assert (Hr : InodeReader.read st = (inr 0, st')) by closed.
  split; [exact Hwf|]. split; [exact Hr|].
  exact (read_returns_record st st' 0 Hwf Hr).
Defined.

Lemma read_failure_consumes_nothing_witness :
  let st := snd (InodeReader.read truncated_decoder) in
  let st' := snd (InodeReader.read st) in
  wf (InodeReader.f st) /\
  thrown Eof = true /\
  InodeReader.read st = (inl Eof, st') /\
  InodeReader.inode_num st' = InodeReader.inode_num st /\
  InodeReader.no_inodes st' = InodeReader.no_inodes st /\
  wf (InodeReader.f st') /\
  exists more : list byte,
    MetadataReader.valid_bytes (InodeReader.f st')
    = MetadataReader.valid_bytes (InodeReader.f st) ++ more.
Proof.
  intros st st'.
  assert (Hwf : wf (InodeReader.f st)) by (repeat split; closed).
  assert (Ht : thrown Eof = true) by reflexivity.
  assert (Hr : InodeReader.read st = (inl Eof, st')) by closed.
  split; [exact Hwf|]. split; [exact Ht|]. split; [exact Hr|].
  exact (read_failure_consumes_nothing st st' Eof Hwf Ht Hr).
Defined.

Lemma read_fixed_length_witness :
  let st := one_fifo_decoder in
  let r1 := snd (MetadataReader.peek 20 (InodeReader.f st)) in
  wf (InodeReader.f st) /\
  (u32 (InodeReader.no_inodes st + 1) <=? InodeReader.inode_num st)
  = false /\
  In type.fifo
     [type.dir; type.blkdev; type.chrdev; type.fifo; type.socket;
      type.lblkdev; type.lchrdev; type.lfifo; type.lsocket] /\
  InodeReader.fixed_size type.fifo = Some 20 /\
  MetadataReader.peek 20 (InodeReader.f st) = (inr 0, r1) /\
  field (MetadataReader.valid_bytes r1) offsetof_inode_type sizeof_le16
  = type.fifo /\
  exists st' : InodeReader.t,
    InodeReader.read st = (inr 0, st') /\
    MetadataReader.seek 20 r1 = (inr tt, InodeReader.f st') /\
    stream (InodeReader.f st')
    = drop (Z.to_nat 20) (stream (InodeReader.f st)) /\
    InodeReader.inode_num st' = u32 (InodeReader.inode_num st + 1).
Proof.
  intros st r1.
  assert (Hwf : wf (InodeReader.f st)) by (repeat split; closed).
  assert (Hg : (u32 (InodeReader.no_inodes st + 1)
                <=? InodeReader.inode_num st) = false) by reflexivity.
  assert (Hin : In type.fifo
            [type.dir; type.blkdev; type.chrdev; type.fifo; type.socket;
             type.lblkdev; type.lchrdev; type.lfifo; type.lsocket])
    by (cbn; auto).
  assert (Hfix : InodeReader.fixed_size type.fifo = Some 20)
    by reflexivity.
  assert (Hp : MetadataReader.peek 20 (InodeReader.f st) = (inr 0, r1))
    by closed.
  assert (Hty : field (MetadataReader.valid_bytes r1)
                  offsetof_inode_type sizeof_le16 = type.fifo) by closed.
  split; [exact Hwf|]. split; [exact Hg|]. split; [exact Hin|].
  split; [exact Hfix|]. split; [exact Hp|]. split; [exact Hty|].
  exact (read_fixed_length st r1 0 type.fifo 20 Hwf Hg Hin Hfix Hp Hty).
Defined.




Lemma reads_from_init_witness :
  let st0 := InodeReader.init mixed_image (demo_sb 4) [] in
  let st' := default st0 (read_n 4 st0) in
  read_n 4 st0 = Some st' /\
  wf (InodeReader.f st') /\
  InodeReader.inode_num st' = u32 (Z.of_nat 4) /\
  InodeReader.no_inodes st' = inodes (demo_sb 4) /\
  exists n : Z,
    0 <= n /\
    stream (InodeReader.f st')
    = drop (Z.to_nat n) (stream (InodeReader.f st0)).
Proof.
  intros st0 st'.
  assert (H : read_n 4 st0 = Some st') by closed.
  split; [exact H|].
  exact (reads_from_init mixed_image (demo_sb 4) [] 4 st' H).
Defined.

Lemma reads_bounded_witness :
  let st0 := InodeReader.init one_fifo_image (demo_sb 1) [] in
  let st' := default st0 (read_n 2 st0) in
  0 <= inodes (demo_sb 1) < 2 ^ 32 - 1 /\
  read_n 2 st0 = Some st' /\
  Z.of_nat 2 <= inodes (demo_sb 1) + 1.
Proof.
  intros st0 st'.
  assert (Hr : 0 <= inodes (demo_sb 1) < 2 ^ 32 - 1) by closed.
  assert (H : read_n 2 st0 = Some st') by closed.
  split; [exact Hr|]. split; [exact H|].
  exact (reads_bounded one_fifo_image (demo_sb 1) [] 2 st' Hr H).
Defined.

Lemma scan_body_next_index_witness :
  let r := snd (MetadataReader.peek 76 (InodeReader.f ldir_decoder)) in
  let s := InodeReader.mk_scan 0 40 76 0 in
  let s' := InodeReader.mk_scan 1 53 77 0 in
  let r' := snd (InodeReader.scan_body s r) in
  0 <= InodeReader.sc_offset s < 2 ^ 63 /\
  0 <= InodeReader.sc_inode_len s < 2 ^ 63 /\
  0 <= sizeof_dir_index /\
  InodeReader.scan_body s r = (inr s', r') /\
  exists size : Z,
    MetadataReader.load (InodeReader.sc_ret s + InodeReader.sc_offset s)
      offsetof_index_size sizeof_le32 r = (inr size, r) /\
    InodeReader.sc_i s' = InodeReader.sc_i s + 1 /\
    (size < 2 ^ 32 - 1 ->
     InodeReader.sc_ret s + InodeReader.sc_offset s'
     = dir_index_name (InodeReader.sc_ret s + InodeReader.sc_offset s)
       + (size + 1) /\
     InodeReader.sc_inode_len s' = InodeReader.sc_inode_len s + (size + 1)) /\
    (size = 2 ^ 32 - 1 ->
     InodeReader.sc_ret s + InodeReader.sc_offset s'
     = dir_index_name (InodeReader.sc_ret s + InodeReader.sc_offset s) /\
     InodeReader.sc_inode_len s' = InodeReader.sc_inode_len s).
Proof.
  intros r s s' r'.
  assert (H1 : 0 <= InodeReader.sc_offset s < 2 ^ 63) by closed.
  assert (H2 : 0 <= InodeReader.sc_inode_len s < 2 ^ 63) by closed.
  assert (H3 : 0 <= sizeof_dir_index) by closed.
  assert (H4 : InodeReader.scan_body s r = (inr s', r')) by closed.
  split; [exact H1|]. split; [exact H2|]. split; [exact H3|].
  split; [exact H4|].
  exact (scan_body_next_index s s' r r' H1 H2 H3 H4).
Defined.

End DecoderAtSquashfs4.
